(** * function_graph.py: call-graph resolution under multiple inheritance

    A shallow embedding of [src/function_graph.py]: the classes [Function],
    [Call], [Edge] and [Contract], the C3 linearization ([c3], [c3_merge]),
    the base lookup [find_base], the worklist traversal [walk_call] and the
    function lookup of the command line.

    Conventions.
    - A Python exception is a [Raise e]; a Python computation whose recursion
      is not structural takes a [fuel] and yields [OutOfFuel] when it is
      exhausted.
    - A Python [dict] whose iteration order is observed ([contracts],
      [Contract.functions]) is an insertion-ordered association list read
      with [dict_get]; the dicts that are only indexed ([state_user_vars],
      [usingfors], the two [defaultdict]s of [walk_call]) are [gmap]s.
    - A Python [set] of [Call]s or [Edge]s is a list extended with
      [call_set_add] or [edge_set_add] under the class's own [__eq__]: that
      equality ignores [Call.context], so the stored representative is the
      first one added. *)

From Stdlib Require Import ZArith.
From stdpp Require Import base option list strings gmap.

Local Open Scope string_scope.
Local Open Scope list_scope.

#[local] Set Warnings "-clear-no-such-hyp".

(** ** Outcomes of a Python computation *)

Inductive exn : Set := KeyError | TypeError | ValueError | SystemExit.

Inductive result (A : Type) : Type :=
  | Ok (a : A)
  | Raise (e : exn)
  | OutOfFuel.
Arguments Ok {A} a.
Arguments Raise {A} e.
Arguments OutOfFuel {A}.

#[global] Instance result_ret : MRet result := λ A a, Ok a.
#[global] Instance result_bind : MBind result := λ A B f m,
  match m with
  | Ok a => f a
  | Raise e => Raise e
  | OutOfFuel => OutOfFuel
  end.

(** [d[k]] on something indexable: a missing key raises [KeyError]. *)
Definition getitem {A} (o : option A) : result A :=
  match o with
  | Some a => Ok a
  | None => Raise KeyError
  end.

(** ** Insertion-ordered dictionaries *)

Section dict.
Context {K V : Type} (eqb : K → K → bool).

(** [d.get(k)]: the value of the first (and, in a dict, only) key equal to
    [k]. *)
Fixpoint dict_get (d : list (K * V)) (k : K) : option V :=
  match d with
  | [] => None
  | (k', v) :: d' => if eqb k k' then Some v else dict_get d' k
  end.

(** [k in d] *)
Definition dict_in (d : list (K * V)) (k : K) : bool :=
  bool_decide (is_Some (dict_get d k)).
End dict.

(** ** class Function *)

Module Function.
(** The three values of [fun_type]: "Function", "Modifier", "Event". *)
Inductive kind : Set := Function | Modifier | Event.

Record t : Set := mk { name : string; params : Z; type : kind }.

#[global] Instance kind_eq_dec : EqDecision kind.
Proof. solve_decision. Defined.
#[global] Instance eq_dec : EqDecision t.
Proof. solve_decision. Defined.

(** [Function(name, params, fun_type="Function")] *)
Definition __init__ (name : string) (params : Z) (fun_type : option kind) : t :=
  mk name params (default Function fun_type).

Definition __eq__ (self other : t) : bool :=
  bool_decide (name self = name other) &&
  bool_decide (params self = params other) &&
  bool_decide (type self = type other).

(** [hash(self.name)]; [hash_str] is Python's hash of a [str]. *)
Definition __hash__ (hash_str : string → Z) (self : t) : Z :=
  hash_str (name self).
End Function.

(** ** class Call *)

Module Call.
Record t : Set := mk { contract : string; function : Function.t; context : string }.

#[global] Instance eq_dec : EqDecision t.
Proof. solve_decision. Defined.

(** [Call(contract, function, context=None)], with
    [self.context = context or contract]: [None] and the empty string are
    both falsy. *)
Definition __init__ (contract : string) (function : Function.t)
    (context : option string) : t :=
  mk contract function
     (match context with
      | Some c => if bool_decide (c = "") then contract else c
      | None => contract
      end).

Definition __eq__ (self other : t) : bool :=
  bool_decide (contract self = contract other) &&
  Function.__eq__ (function self) (function other).

Definition __hash__ (hash_str : string → Z) (self : t) : Z :=
  Function.__hash__ hash_str (function self).
End Call.

(** ** class Edge *)

Module Edge.
Record t : Set := mk { caller : Call.t; callee : Call.t }.

Definition __eq__ (self other : t) : bool :=
  Call.__eq__ (caller self) (caller other) &&
  Call.__eq__ (callee self) (callee other).

Definition __hash__ (hash_str : string → Z) (self : t) : Z :=
  Call.__hash__ hash_str (callee self).
End Edge.

(** ** class Contract *)

Module Contract.
Record t : Type := mk {
  name : string;
  base_contracts : list string;
  state_user_vars : gmap string string;
  usingfors : gmap string string;
  functions : list (Function.t * list Call.t);
  linearization : list string
}.

(** [Contract(name)] *)
Definition __init__ (name : string) : t := mk name [] ∅ ∅ [] [].
End Contract.

(** The module-level registry [contracts]: name to [Contract]. *)
Abbreviation registry := (list (string * Contract.t)).

(** [contracts[name]] and [name in contracts] *)
Definition contracts_get (contracts : registry) (name : string) : option Contract.t :=
  dict_get String.eqb contracts name.

(** [contract.functions.get(function)] *)
Definition functions_get (c : Contract.t) (function : Function.t) : option (list Call.t) :=
  dict_get Function.__eq__ (Contract.functions c) function.

(** [function in contract.functions] *)
Definition defines (function : Function.t) (c : Contract.t) : bool :=
  dict_in Function.__eq__ (Contract.functions c) function.

(** ** Linearization: [c3_merge] and [c3] *)

(** [any(lst)]: some list is non-empty. *)
Definition any (lst : list (list string)) : bool :=
  existsb (λ l, bool_decide (l ≠ [])) lst.

(** [all(candidate not in tail for _, *tail in lst)]: unpacking an empty
    list raises [ValueError]; [all] stops at the first [False]. *)
Fixpoint not_in_tails (candidate : string) (lst : list (list string)) : result bool :=
  match lst with
  | [] => Ok true
  | [] :: _ => Raise ValueError
  | (_ :: tail) :: lst' =>
      if bool_decide (candidate ∈ tail) then Ok false
      else not_in_tails candidate lst'
  end.

(** The [for candidate, *_ in lst] loop up to its [return]: the first head
    that is in no tail; [None] when the loop runs to its [else]. [heads] is
    the part of [lst] still to visit. *)
Fixpoint find_candidate (heads lst : list (list string)) : result (option string) :=
  match heads with
  | [] => Ok None
  | [] :: _ => Raise ValueError
  | (candidate :: _) :: heads' =>
      ok ← not_in_tails candidate lst;
      if ok : bool then Ok (Some candidate) else find_candidate heads' lst
  end.

(** [tail if head == candidate else [head, *tail]] for one [head, *tail]. *)
Definition drop_candidate (candidate : string) (l : list string) : result (list string) :=
  match l with
  | [] => Raise ValueError
  | head :: tail => Ok (if bool_decide (head = candidate) then tail else head :: tail)
  end.

Fixpoint c3_merge_fuel (fuel : nat) (lst : list (list string)) : result (list string) :=
  match fuel with
  | O => OutOfFuel
  | S fuel' =>
      if negb (any lst) then Ok []
      else
        found ← find_candidate lst lst;
        match found with
        | Some candidate =>
            rec ← mapM (drop_candidate candidate) lst;
            rest ← c3_merge_fuel fuel' (filter (λ l, l ≠ []) rec);
            Ok (candidate :: rest)
        | None => Raise TypeError
        end
  end.

(** Each recursive call removes at least one element, so the total length
    bounds the depth. *)
Definition total_length (lst : list (list string)) : nat :=
  sum_list (length <$> lst).

Definition c3_merge (lst : list (list string)) : result (list string) :=
  c3_merge_fuel (S (total_length lst)) lst.

(** [c3(contract, contracts)]; the recursion follows the inheritance graph
    and does not end on a cyclic one, hence the fuel. *)
Fixpoint c3 (fuel : nat) (contract : string) (contracts : registry)
    : result (list string) :=
  match fuel with
  | O => OutOfFuel
  | S fuel' =>
      match contracts_get contracts contract with
      | None => Ok [contract]
      | Some c =>
          match Contract.base_contracts c with
          | [] => Ok [contract]
          | bases =>
              lins ← mapM (λ base, c3 fuel' base contracts) bases;
              merged ← c3_merge (lins ++ [bases]);
              Ok (contract :: merged)
          end
      end
  end.

(** The last loop of [parse_contracts]:
    [for name, contract in contracts.items(): contract.linearization = c3(name, contracts)].
    [c3] reads [base_contracts] only, so the in-place update of one contract
    does not change the linearization computed for the next. *)
Definition set_linearization (c : Contract.t) (lin : list string) : Contract.t :=
  Contract.mk (Contract.name c) (Contract.base_contracts c)
    (Contract.state_user_vars c) (Contract.usingfors c) (Contract.functions c) lin.

Definition linearize_contracts (fuel : nat) (contracts : registry) : result registry :=
  mapM (λ '(name, contract),
          lin ← c3 fuel name contracts;
          Ok (name, set_linearization contract lin)) contracts.

(** ** [find_base] *)

(** The loop of [find_base]. A predicate receives the base's name next to
    the [Contract] object: the one predicate that looks at the object's
    identity ([contract is contracts[callee.contract]]) compares it with an
    entry of the registry, and two entries are the same object exactly when
    they are stored under the same name. *)
Fixpoint first_base (contracts : registry) (predicate : string → Contract.t → bool)
    (lin : list string) : option string :=
  match lin with
  | [] => None
  | base_name :: lin' =>
      match contracts_get contracts base_name with
      | Some base =>
          if predicate base_name base then Some base_name
          else first_base contracts predicate lin'
      | None => first_base contracts predicate lin'
      end
  end.

Definition find_base (contracts : registry) (contract_name : string)
    (predicate : string → Contract.t → bool) : result (option string) :=
  c ← getitem (contracts_get contracts contract_name);
  Ok (first_base contracts predicate (Contract.linearization c)).

(** ** [walk_call] *)

(** [x in lst] for a list of [Call]s, and [s.add(x)] for the two kinds of
    set. *)
Definition call_in (x : Call.t) (lst : list Call.t) : bool :=
  existsb (λ y, Call.__eq__ x y) lst.

Definition edge_in (x : Edge.t) (lst : list Edge.t) : bool :=
  existsb (λ y, Edge.__eq__ x y) lst.

Definition call_set_add (x : Call.t) (s : list Call.t) : list Call.t :=
  if call_in x s then s else s ++ [x].

Definition edge_set_add (x : Edge.t) (s : list Edge.t) : list Edge.t :=
  if edge_in x s then s else s ++ [x].

(** The predicates built by the lambdas of [walk_call]. *)
Definition search_function (call : Call.t) : string → Contract.t → bool :=
  λ _ contract, defines (Call.function call) contract.

Definition search_function_super (callee call : Call.t) : string → Contract.t → bool :=
  λ base_name contract,
    negb (bool_decide (base_name = Call.contract callee)) &&
    defines (Call.function call) contract.

Definition search_var (call : Call.t) : string → Contract.t → bool :=
  λ _ contract, bool_decide (is_Some (Contract.state_user_vars contract !! Call.contract call)).

Definition search_using (contract_to : string) : string → Contract.t → bool :=
  λ _ contract, bool_decide (is_Some (Contract.usingfors contract !! contract_to)).

(** The body of the inner loop up to the construction of [call_to]:
    [Ok None] is a [continue]. *)
Definition resolve (contracts : registry) (callee call : Call.t) : result (option Call.t) :=
  if bool_decide (Call.contract call ∈ ["this"; "super"]) then
    contract_to ←
      (if bool_decide (Call.contract call = "super")
       then find_base contracts (Call.contract callee) (search_function_super callee call)
       else find_base contracts (Call.context callee) (search_function call));
    match contract_to with
    | None => Ok None
    | Some contract_to =>
        Ok (Some (Call.__init__ contract_to (Call.function call) (Some (Call.context callee))))
    end
  else
    c ← getitem (contracts_get contracts (Call.contract callee));
    base_name ←
      (if bool_decide (Call.contract call ∈ Contract.linearization c)
       then find_base contracts (Call.contract call) (search_function call)
       else Ok None);
    match base_name with
    | Some contract_to =>
        Ok (Some (Call.__init__ contract_to (Call.function call) (Some (Call.context callee))))
    | None =>
        base_name ← find_base contracts (Call.contract callee) (search_var call);
        match base_name with
        | None => Ok None
        | Some base_name =>
            base ← getitem (contracts_get contracts base_name);
            contract_to ← getitem (Contract.state_user_vars base !! Call.contract call);
            let context_to := base_name in
            if dict_in String.eqb contracts contract_to then
              Ok (Some (Call.__init__ contract_to (Call.function call) (Some context_to)))
            else
              base_usingfor ← find_base contracts base_name (search_using contract_to);
              (* [contracts[None]] when no base declares the attachment *)
              base_usingfor ← getitem base_usingfor;
              lib ← getitem (contracts_get contracts base_usingfor);
              contract_to ← getitem (Contract.usingfors lib !! contract_to);
              (* [lib_function] and the [search_function] built from it are
                 never read again *)
              let lib_function :=
                Function.__init__ (Function.name (Call.function call))
                  (Function.params (Call.function call) + 1)%Z None in
              Ok (Some (Call.__init__ contract_to (Call.function call) (Some context_to)))
        end
    end.

(** The state of the traversal: the list [calls] that the outer loop walks
    while the inner loop appends to it, and the two [defaultdict(set)]. *)
Record walk_state : Type := mk_state {
  calls : list Call.t;
  nodes : gmap string (list Call.t);
  edges : gmap string (list Edge.t)
}.

(** [nodes[k].add(x)] and [edges[k].add(e)] on a [defaultdict(set)]. *)
Definition nodes_add (k : string) (x : Call.t) (nodes : gmap string (list Call.t)) :=
  <[k := call_set_add x (default [] (nodes !! k))]> nodes.

Definition edges_add (k : string) (e : Edge.t) (edges : gmap string (list Edge.t)) :=
  <[k := edge_set_add e (default [] (edges !! k))]> edges.

(** One turn of the inner loop [for call in ...functions[callee.function]]. *)
Definition walk_one (contracts : registry) (callee call : Call.t) (st : walk_state)
    : result walk_state :=
  target ← resolve contracts callee call;
  match target with
  | None => Ok st
  | Some call_to =>
      let edges' := edges_add (Call.contract callee) (Edge.mk callee call_to) (edges st) in
      let calls' :=
        if negb (call_in call_to (calls st)) then calls st ++ [call_to] else calls st in
      Ok (mk_state calls' (nodes st) edges')
  end.

Fixpoint walk_body (contracts : registry) (callee : Call.t) (body : list Call.t)
    (st : walk_state) : result walk_state :=
  match body with
  | [] => Ok st
  | call :: body' =>
      st' ← walk_one contracts callee call st;
      walk_body contracts callee body' st'
  end.

(** One turn of the outer loop, for the element [callee] of [calls]. *)
Definition walk_step (contracts : registry) (ignore_list : list Call.t)
    (callee : Call.t) (st : walk_state) : result walk_state :=
  let st1 := mk_state (calls st) (nodes_add (Call.contract callee) callee (nodes st)) (edges st) in
  if call_in callee ignore_list then Ok st1
  else
    c ← getitem (contracts_get contracts (Call.contract callee));
    body ← getitem (functions_get c (Call.function callee));
    walk_body contracts callee body st1.

(** [for callee in calls]: the list iterator keeps an index [i] and stops
    when it reaches the current length of the list. *)
Fixpoint walk_loop (fuel : nat) (contracts : registry) (ignore_list : list Call.t)
    (i : nat) (st : walk_state) : result walk_state :=
  match fuel with
  | O => OutOfFuel
  | S fuel' =>
      match calls st !! i with
      | None => Ok st
      | Some callee =>
          st' ← walk_step contracts ignore_list callee st;
          walk_loop fuel' contracts ignore_list (S i) st'
      end
  end.

Definition walk_init (entry : Call.t) : walk_state :=
  mk_state [entry] (nodes_add (Call.contract entry) entry ∅) ∅.

(** The traversal with its worklist, and [walk_call] proper, which returns
    [(nodes, edges)]. *)
Definition walk_run (fuel : nat) (contracts : registry) (entry : Call.t)
    (ignore_list : list Call.t) : result walk_state :=
  walk_loop fuel contracts ignore_list 0 (walk_init entry).

Definition walk_call (fuel : nat) (contracts : registry) (entry : Call.t)
    (ignore_list : list Call.t)
    : result (gmap string (list Call.t) * gmap string (list Edge.t)) :=
  st ← walk_run fuel contracts entry ignore_list;
  Ok (nodes st, edges st).

(** ** The function lookup of the command line *)

(** Lines 291-310 of the script: the contract must be in the registry, the
    candidates are the functions of every modeled contract of its
    linearization, in that order, filtered by name and kind, then by the
    optional parameter count; the first one is the entry. [sys.exit] raises
    [SystemExit]. *)
Definition matching_functions (contracts : registry) (bases : list string)
    : list (Function.t * string) :=
  b ← bases;
  match contracts_get contracts b with
  | Some base => (λ f, (f, b)) <$> (Contract.functions base).*1
  | None => []
  end.

Definition entry_call (contracts : registry) (contract_name : string)
    (function : string) (count : option Z) : result Call.t :=
  match contracts_get contracts contract_name with
  | None => Raise SystemExit
  | Some c =>
      let bases := Contract.linearization c in
      let functions := matching_functions contracts bases in
      let functions :=
        filter (λ f, Function.name f.1 = function ∧ Function.type f.1 = Function.Function)
               functions in
      match functions with
      | [] => Raise SystemExit
      | _ =>
          let functions :=
            match count with
            | None => functions
            | Some n => filter (λ f, Function.params f.1 = n) functions
            end in
          match functions with
          | [] => Raise SystemExit
          | f :: _ => Ok (Call.__init__ contract_name f.1 None)
          end
      end
  end.

Definition main (fuel : nat) (contracts : registry) (contract_name function : string)
    (count : option Z) (ignore_list : list Call.t)
    : result (gmap string (list Call.t) * gmap string (list Edge.t)) :=
  entry ← entry_call contracts contract_name function count;
  walk_call fuel contracts entry ignore_list.

(** * Vocabulary of the properties *)

(** The key of a [Call]: what [Call.__eq__] looks at. *)
Definition call_key (c : Call.t) : string * Function.t :=
  (Call.contract c, Call.function c).

(** The pure content of [drop_candidate]. *)
Definition drop_head (candidate : string) (l : list string) : list string :=
  match l with
  | [] => []
  | head :: tail => if bool_decide (head = candidate) then tail else head :: tail
  end.

(** The heads of the non-empty lists, in order. *)
Definition heads (lst : list (list string)) : list string := omap head lst.

(** [c] is in the tail of no list of [lst]. *)
Definition in_no_tail (lst : list (list string)) (c : string) : Prop :=
  Forall (λ l, c ∉ tail l) lst.

#[global] Instance in_no_tail_dec lst c : Decision (in_no_tail lst c).
Proof. unfold in_no_tail. apply _. Defined.

(** [c] is the candidate the loop returns: the first head that is in no
    tail. *)
Definition first_candidate (lst : list (list string)) (c : string) : Prop :=
  ∃ pre post, heads lst = pre ++ c :: post ∧ in_no_tail lst c ∧
              Forall (λ x, ¬ in_no_tail lst x) pre.

(** Some list is non-empty and no head is absent from every tail. *)
Definition stuck (lst : list (list string)) : Prop :=
  (∃ l, l ∈ lst ∧ l ≠ []) ∧ ∀ c, c ∈ heads lst → ¬ in_no_tail lst c.

(** One round of the merge: the candidate leaves every list, the emptied
    lists leave the input. *)
Definition merge_step (lst lst' : list (list string)) : Prop :=
  ∃ c, first_candidate lst c ∧ lst' = filter (λ l, l ≠ []) (drop_head c <$> lst).

Definition reaches_stuck (lst : list (list string)) : Prop :=
  ∃ lst', rtc merge_step lst lst' ∧ stuck lst'.

(** [y] is a declared base of the modeled contract [x]; its transitive
    closure gives all the bases of [x]. *)
Definition is_base (contracts : registry) (x y : string) : Prop :=
  ∃ c, contracts_get contracts x = Some c ∧ y ∈ Contract.base_contracts c.

Definition transitive_base (contracts : registry) : string → string → Prop :=
  tc (is_base contracts).

(** The modeled contract [base_name] satisfies [predicate]. *)
Definition holds_at (contracts : registry) (predicate : string → Contract.t → bool)
    (base_name : string) : Prop :=
  ∃ base, contracts_get contracts base_name = Some base ∧ predicate base_name base = true.

(** [b] is the first element of [lin], from the left, at which [predicate]
    holds. *)
Definition first_at (contracts : registry) (predicate : string → Contract.t → bool)
    (lin : list string) (b : string) : Prop :=
  ∃ pre post, lin = pre ++ b :: post ∧ holds_at contracts predicate b ∧
              Forall (λ x, ¬ holds_at contracts predicate x) pre.

(** What [walk_one] does with a resolved [call_to]: the edge is added, and
    [call_to] joins the worklist unless an equal [Call] is in it. *)
Definition push (callee call_to : Call.t) (st : walk_state) : walk_state :=
  mk_state
    (if negb (call_in call_to (calls st)) then calls st ++ [call_to] else calls st)
    (nodes st)
    (edges_add (Call.contract callee) (Edge.mk callee call_to) (edges st)).

(** The state after [nodes[callee.contract].add(callee)]. *)
Definition visit (callee : Call.t) (st : walk_state) : walk_state :=
  mk_state (calls st) (nodes_add (Call.contract callee) callee (nodes st)) (edges st).

(** Every name a resolved call can carry: the entries of the stored
    linearizations, the declared types of the state variables and the
    attached libraries. *)
Definition known_names (contracts : registry) : list string :=
  c ← contracts.*2;
  Contract.linearization c ++
  (map_to_list (Contract.state_user_vars c)).*2 ++
  (map_to_list (Contract.usingfors c)).*2.

(** Every function some recorded call names. *)
Definition called_functions (contracts : registry) : list Function.t :=
  c ← contracts.*2; body ← (Contract.functions c).*2; Call.function <$> body.

Definition universe (contracts : registry) : list (string * Function.t) :=
  n ← known_names contracts; f ← called_functions contracts; [(n, f)].

(** Enough fuel for [walk_call]: the entry, one turn for each target, and
    the turn that finds the iterator at the end. *)
Definition walk_bound (contracts : registry) : nat :=
  2 + length (universe contracts).

(** What holds of the state when the iterator of the outer loop is at
    index [i]. *)
Record walk_inv (contracts : registry) (ignore_list : list Call.t) (entry : Call.t)
    (i : nat) (st : walk_state) : Prop := {
  (** the iterator is within the list; *)
  inv_index : (i ≤ length (calls st))%nat;
  (** no two calls of the worklist are equal as [Call]s; *)
  inv_nodup : NoDup (call_key <$> calls st);
  (** the worklist holds the entry and targets from the universe; *)
  inv_known : ∀ k, k ∈ call_key <$> calls st → k ∈ call_key entry :: universe contracts;
  (** the caller of an edge is not ignored; *)
  inv_callers : ∀ k es e, edges st !! k = Some es → e ∈ es →
    call_in (Edge.caller e) ignore_list = false;
  (** a call the iterator passed is a node under its contract; *)
  inv_nodes : ∀ j c, (j < i)%nat → calls st !! j = Some c →
    ∃ ns, nodes st !! Call.contract c = Some ns ∧ call_in c ns = true;
  (** a call that was appended is the callee of an edge. *)
  inv_incoming : ∀ j c, calls st !! S j = Some c →
    ∃ k es e, edges st !! k = Some es ∧ e ∈ es ∧ call_key (Edge.callee e) = call_key c
}.

(** The modeled contract [b] defines a function equal to [f], that is with
    the same name, parameter count and kind. *)
Definition defined_in (contracts : registry) (f : Function.t) (b : string) : Prop :=
  ∃ base, contracts_get contracts b = Some base ∧ defines f base = true.

(** ** Sample models *)

(** A contract as [parse_contracts] leaves it before the linearization
    loop, and the registry after that loop. *)
Definition raw_contract (name : string) (bases : list string)
    (vars usingfors : list (string * string))
    (functions : list (Function.t * list Call.t)) : string * Contract.t :=
  (name, Contract.mk name bases (list_to_map vars) (list_to_map usingfors) functions []).

Definition linked (raw : registry) : registry :=
  match linearize_contracts (2 + length raw) raw with
  | Ok contracts => contracts
  | _ => raw
  end.

(** [Function(name, params)] and the [Call(receiver, function)] that the
    call extraction records. *)
Definition fn (name : string) (params : Z) : Function.t :=
  Function.__init__ name params None.

Definition raw_call (receiver : string) (f : Function.t) : Call.t :=
  Call.__init__ receiver f None.

(** [contract A { foo() }], [contract B is A { foo() { super.foo() } }],
    [contract C is B { foo() { super.foo() } }]. *)
Definition ex_chain : registry := linked
  [raw_contract "A" [] [] [] [(fn "foo" 0, [])];
   raw_contract "B" ["A"] [] [] [(fn "foo" 0, [raw_call "super" (fn "foo" 0)])];
   raw_contract "C" ["B"] [] [] [(fn "foo" 0, [raw_call "super" (fn "foo" 0)])]].

(** [contract Parent { foo() }],
    [contract Child is Parent { foo() { super.foo() } }]. *)
Definition ex_child : registry := linked
  [raw_contract "Parent" [] [] [] [(fn "foo" 0, [])];
   raw_contract "Child" ["Parent"] [] []
     [(fn "foo" 0, [raw_call "super" (fn "foo" 0)])]].

(** [contract Base { f() { g() }  g() }],
    [contract Derived is Base { g()  h() { super.f() } }]. *)
Definition ex_derived : registry := linked
  [raw_contract "Base" [] [] []
     [(fn "f" 0, [raw_call "this" (fn "g" 0)]); (fn "g" 0, [])];
   raw_contract "Derived" ["Base"] [] []
     [(fn "g" 0, []); (fn "h" 0, [raw_call "super" (fn "f" 0)])]].

(** [contract B { g() }], [contract D is B { f() { B.g() } }]. *)
Definition ex_base_name : registry := linked
  [raw_contract "B" [] [] [] [(fn "g" 0, [])];
   raw_contract "D" ["B"] [] [] [(fn "f" 0, [raw_call "B" (fn "g" 0)])]].

(** [library L { add(Counter storage self, uint x) }],
    [contract W { using L for Counter; Counter bal; inc() { bal.add(1) } }];
    [Counter] is a struct, not a contract. *)
Definition ex_usingfor : registry := linked
  [raw_contract "L" [] [] [] [(fn "add" 2, [])];
   raw_contract "W" [] [("bal", "Counter")] [("Counter", "L")]
     [(fn "inc" 0, [raw_call "bal" (fn "add" 1)])]].

(** [contract B {}], [contract C {}], [contract X is B, C {}],
    [contract Y is C, B {}], [contract Z is X, Y {}]; the base lists are
    stored reversed. *)
Definition ex_contradictory_raw : registry :=
  [raw_contract "B" [] [] [] [];
   raw_contract "C" [] [] [] [];
   raw_contract "X" ["C"; "B"] [] [] [];
   raw_contract "Y" ["B"; "C"] [] [] [];
   raw_contract "Z" ["Y"; "X"] [] [] []].

(** [contract A {}], [contract B is A {}], [contract C is A {}],
    [contract D is B, C {}]. *)
Definition ex_diamond_raw : registry :=
  [raw_contract "A" [] [] [] [];
   raw_contract "B" ["A"] [] [] [];
   raw_contract "C" ["A"] [] [] [];
   raw_contract "D" ["C"; "B"] [] [] []].

(** [contract Base { f() }], [contract Derived is Base {}]. *)
Definition ex_inherits_only : registry := linked
  [raw_contract "Base" [] [] [] [(fn "f" 0, [])];
   raw_contract "Derived" ["Base"] [] [] []].

(** [contract Token { g() }], [contract Sub is Token {}],
    [contract Main { Sub t; f() { t.g() } }]. *)
Definition ex_external : registry := linked
  [raw_contract "Token" [] [] [] [(fn "g" 0, [])];
   raw_contract "Sub" ["Token"] [] [] [];
   raw_contract "Main" [] [("t", "Sub")] [] [(fn "f" 0, [raw_call "t" (fn "g" 0)])]].

(** [contract Token { approve(a, b) { _approve(a, b, c) }
    _approve(a, b, c) { check(a) }  check(a) }]. *)
Definition ex_token : registry := linked
  [raw_contract "Token" [] [] []
     [(fn "approve" 2, [raw_call "this" (fn "_approve" 3)]);
      (fn "_approve" 3, [raw_call "this" (fn "check" 1)]);
      (fn "check" 1, [])]].

(** * Vocabulary of the further properties *)

(** [xs] is a chain of declared bases that starts below [x]: each contract
    is a declared base of the one before it. *)
Fixpoint base_path (contracts : registry) (x : string) (xs : list string) : Prop :=
  match xs with
  | [] => True
  | y :: xs' => is_base contracts x y ∧ base_path contracts y xs'
  end.

(** [contract A is B {}], [contract B is A {}]. *)
Definition ex_cyclic_raw : registry :=
  [raw_contract "A" ["B"] [] [] [];
   raw_contract "B" ["A"] [] [] []].

(** The modeled contract [b] declares the state variable [var] with the
    user-defined type [ty]. *)
Definition declares_var (contracts : registry) (var b ty : string) : Prop :=
  ∃ base, contracts_get contracts b = Some base ∧
          Contract.state_user_vars base !! var = Some ty.

(** The modeled contract [u] attaches the library [lib] to the type [ty]
    ([using lib for ty]). *)
Definition attaches (contracts : registry) (ty u lib : string) : Prop :=
  ∃ c, contracts_get contracts u = Some c ∧ Contract.usingfors c !! ty = Some lib.

(** The receiver of [call] does not resolve as the name of a base of the
    contract [c]: it is not in the linearization of [c], or it is a modeled
    contract in whose linearization no modeled contract defines the
    function. *)
Definition not_a_base_call (contracts : registry) (c : Contract.t) (call : Call.t) : Prop :=
  Call.contract call ∉ Contract.linearization c ∨
  ∃ anc, contracts_get contracts (Call.contract call) = Some anc ∧
         ∀ x, x ∈ Contract.linearization anc →
              ¬ defined_in contracts (Call.function call) x.

(** [contract W { Counter bal; inc() { bal.add(1) } }] with no using-for
    declaration and no contract named [Counter]. *)
Definition ex_no_attachment : registry := linked
  [raw_contract "W" [] [("bal", "Counter")] []
     [(fn "inc" 0, [raw_call "bal" (fn "add" 1)])]].

(** The state [st'] comes after [st] in a traversal: the worklist was
    extended at its end and no edge was removed. *)
Definition extends (st st' : walk_state) : Prop :=
  calls st `prefix_of` calls st' ∧
  ∀ k es e, edges st !! k = Some es → e ∈ es →
    ∃ es', edges st' !! k = Some es' ∧ e ∈ es'.

(** The edge of [callee] to [target], or an [Edge] equal to it, is in the
    edge set of [callee]'s contract, and [target], or a [Call] equal to it,
    is in the worklist. *)
Definition recorded (callee target : Call.t) (st : walk_state) : Prop :=
  call_in target (calls st) = true ∧
  ∃ es e, edges st !! Call.contract callee = Some es ∧ e ∈ es ∧
          Edge.__eq__ (Edge.mk callee target) e = true.

(** A node is a call of the worklist, stored under its contract. *)
Definition nodes_ok (st : walk_state) : Prop :=
  ∀ k ns x, nodes st !! k = Some ns → x ∈ ns → Call.contract x = k ∧ x ∈ calls st.

(** The edge [e], stored under [k]: [k] is its caller's contract, its caller
    is a call of the worklist, its callee is equal to one, and it is the
    resolution of a call recorded for the caller's function. *)
Definition edge_ok (contracts : registry) (st : walk_state) (k : string) (e : Edge.t)
    : Prop :=
  Call.contract (Edge.caller e) = k ∧
  Edge.caller e ∈ calls st ∧
  call_in (Edge.callee e) (calls st) = true ∧
  ∃ c body call,
    contracts_get contracts k = Some c ∧
    functions_get c (Call.function (Edge.caller e)) = Some body ∧
    call ∈ body ∧
    resolve contracts (Edge.caller e) call = Ok (Some (Edge.callee e)).

Definition edges_ok (contracts : registry) (st : walk_state) : Prop :=
  ∀ k es e, edges st !! k = Some es → e ∈ es → edge_ok contracts st k e.

(** The contract of [callee] defines its function, and every call recorded
    for it that resolves is recorded in the graph. *)
Definition expanded (contracts : registry) (callee : Call.t) (st : walk_state) : Prop :=
  ∃ c body,
    contracts_get contracts (Call.contract callee) = Some c ∧
    functions_get c (Call.function callee) = Some body ∧
    ∀ call target, call ∈ body →
      resolve contracts callee call = Ok (Some target) →
      recorded callee target st.

(** What holds of the graph when the iterator of the outer loop is at
    index [i]. *)
Record graph_inv (contracts : registry) (ignore_list : list Call.t) (entry : Call.t)
    (i : nat) (st : walk_state) : Prop := {
  (** the worklist starts with the entry; *)
  g_entry : calls st !! 0 = Some entry;
  g_nodes : nodes_ok st;
  g_edges : edges_ok contracts st;
  (** every call the iterator passed that is not ignored was expanded. *)
  g_expanded : ∀ j callee, (j < i)%nat → calls st !! j = Some callee →
    call_in callee ignore_list = false → expanded contracts callee st
}.

(** The modeled contract [b] has the function [f] among the keys of its
    function map, and [f] is what the command line asks for: a plain function
    of the given name and, when a count is given, of that parameter count. *)
Definition entry_candidate (contracts : registry) (function : string) (count : option Z)
    (f : Function.t) (b : string) : Prop :=
  (∃ base body, contracts_get contracts b = Some base ∧
                (f, body) ∈ Contract.functions base) ∧
  Function.name f = function ∧
  Function.type f = Function.Function ∧
  ∀ n, count = Some n → Function.params f = n.

(** The two filters of the lookup, as one condition. *)
Definition entry_filter (function : string) (count : option Z)
    (f : Function.t * string) : Prop :=
  (Function.name f.1 = function ∧ Function.type f.1 = Function.Function) ∧
  match count with Some n => Function.params f.1 = n | None => True end.

#[global] Instance entry_filter_dec function count f :
  Decision (entry_filter function count f).
Proof. unfold entry_filter. destruct count; apply _. Defined.

(** ** The ignore list of the command line *)

(** [s.split(sep)] for a separator of one character: the pieces between
    the occurrences of [sep], one more than there are occurrences. *)
Fixpoint split_on (sep : Ascii.ascii) (s : string) : list string :=
  match s with
  | EmptyString => [""]
  | String ch s' =>
      if bool_decide (ch = sep) then "" :: split_on sep s'
      else
        match split_on sep s' with
        | [] => [String ch ""]
        | w :: ws => String ch w :: ws
        end
  end.

(** The character [':'], code 58. *)
Definition colon : Ascii.ascii :=
  Ascii.Ascii false true false true true true false false.

(** The number of occurrences of a character in a string. *)
Fixpoint count_char (ch : Ascii.ascii) (s : string) : nat :=
  match s with
  | EmptyString => 0
  | String ch' s' => (if bool_decide (ch' = ch) then 1 else 0) + count_char ch s'
  end.

Section ignore.
(** [int] of Python on a [str]: it raises [ValueError] on what is not an
    integer literal. Its grammar is left open. *)
Variable py_int : string → result Z.

(** One turn of the loop over [args.ignore]: the specifier is split at the
    colons, must have three parts, and gives
    [Call(call[0], Function(call[1], int(call[2])))]. *)
Definition parse_ignore_one (ignore : string) : result Call.t :=
  match split_on colon ignore with
  | [contract; function; count] =>
      n ← py_int count;
      Ok (Call.__init__ contract (Function.__init__ function n None) None)
  | _ => Raise SystemExit
  end.

(** [args.ignore] is [None] without the option and a list with it. *)
Definition parse_ignore (ignore : option (list string)) : result (list Call.t) :=
  match ignore with
  | None => Ok []
  | Some l => mapM parse_ignore_one l
  end.
End ignore.

(** A stand-in for [int] that reads one decimal digit. *)
Definition digit_int (s : string) : result Z :=
  match s with
  | String ch EmptyString =>
      let n := (Z.of_nat (Ascii.nat_of_ascii ch) - 48)%Z in
      if bool_decide (0 ≤ n ≤ 9)%Z then Ok n else Raise ValueError
  | _ => Raise ValueError
  end.

(** * The model builder: [parse_node] and [get_calls_from_dict] *)

(** Modelled from the spec: the [Node] of the external parser
    ([solidity_parser]), which is not part of the repository. A node is a
    [dict] from field names to values; a value is [None], a [bool], an [int],
    a [str], a list of values or a node. The fields the code reads are the
    ones of the spec's input contract; an [items] list stands for a [dict],
    so it holds a field name once. *)
#[local] Unset Elimination Schemes.
Inductive value : Type :=
  | VNone
  | VBool (b : bool)
  | VInt (n : Z)
  | VStr (s : string)
  | VList (l : list value)
  | VNode (items : list (string * value)).
#[local] Set Elimination Schemes.

(** The exceptions of the builder, and its outcomes. [Unmodelled] marks a
    tree on which the embedding does not follow Python: a name that is not a
    [str] (the classes of this file carry strings), or a [str] or a [dict]
    where the parser puts a list. Where the outcome is [Parsed] or [Throws],
    it is Python's. *)
Inductive py_error : Set := PyKeyError | PyTypeError | PyAttributeError.

Inductive parsed (A : Type) : Type :=
  | Parsed (a : A)
  | Throws (e : py_error)
  | Unmodelled.
Arguments Parsed {A} a.
Arguments Throws {A} e.
Arguments Unmodelled {A}.

#[global] Instance parsed_ret : MRet parsed := λ A a, Parsed a.
#[global] Instance parsed_bind : MBind parsed := λ A B f m,
  match m with
  | Parsed a => f a
  | Throws e => Throws e
  | Unmodelled => Unmodelled
  end.

(** [d[k]] on a node's items. *)
Definition node_getitem (items : list (string * value)) (k : string) : parsed value :=
  match dict_get String.eqb items k with
  | Some v => Parsed v
  | None => Throws PyKeyError
  end.

(** [v[k]] with a [str] key: only a node can be indexed by a string. *)
Definition py_getitem (v : value) (k : string) : parsed value :=
  match v with
  | VNode items => node_getitem items k
  | _ => Throws PyTypeError
  end.

(** [len(v)] *)
Definition py_len (v : value) : parsed Z :=
  match v with
  | VList l => Parsed (Z.of_nat (length l))
  | VNone | VBool _ | VInt _ => Throws PyTypeError
  | VStr _ | VNode _ => Unmodelled
  end.

(** [for x in v] *)
Definition py_iter (v : value) : parsed (list value) :=
  match v with
  | VList l => Parsed l
  | VNone | VBool _ | VInt _ => Throws PyTypeError
  | VStr _ | VNode _ => Unmodelled
  end.

(** [reversed(v)] *)
Definition py_reversed (v : value) : parsed (list value) :=
  match v with
  | VList l => Parsed (reverse l)
  | VNone | VBool _ | VInt _ => Throws PyTypeError
  | VStr _ | VNode _ => Unmodelled
  end.

(** [k in v] *)
Definition py_contains (v : value) (k : string) : parsed bool :=
  match v with
  | VNode items => Parsed (dict_in String.eqb items k)
  | VNone | VBool _ | VInt _ => Throws PyTypeError
  | VStr _ | VList _ => Unmodelled
  end.

(** The truth value of [v]. *)
Definition py_truthy (v : value) : bool :=
  match v with
  | VNone => false
  | VBool b => b
  | VInt n => negb (bool_decide (n = 0%Z))
  | VStr s => negb (bool_decide (s = ""))
  | VList l => negb (bool_decide (l = []))
  | VNode items => negb (bool_decide (items = []))
  end.

(** [v == s] for a string literal [s]. *)
Definition py_eq_str (v : value) (s : string) : bool :=
  match v with
  | VStr s' => bool_decide (s' = s)
  | _ => false
  end.

(** A value where the classes of this file hold a name. *)
Definition as_str (v : value) : parsed string :=
  match v with
  | VStr s => Parsed s
  | _ => Unmodelled
  end.

(** The body of [if k == "type" and v == "FunctionCall"] in
    [get_calls_from_dict]. *)
Definition call_of_invocation (dictionary : list (string * value)) (keyname : string)
    (function_calls : list Call.t) : parsed (list Call.t) :=
  exp ← node_getitem dictionary "expression";
  arguments ← node_getitem dictionary "arguments";
  param_count ← py_len arguments;
  let fun_type :=
    if bool_decide (keyname = "eventCall") then Function.Event else Function.Function in
  exp_type ← py_getitem exp "type";
  function_calls ←
    (if py_eq_str exp_type "Identifier" then
       name ← py_getitem exp "name";
       name ← as_str name;
       Parsed (function_calls ++
               [Call.__init__ "this" (Function.__init__ name param_count (Some fun_type))
                              None])
     else Parsed function_calls);
  if py_eq_str exp_type "MemberAccess" then
    base ← py_getitem exp "expression";
    has_name ← py_contains base "name";
    if has_name : bool then
      member ← py_getitem exp "memberName";
      member ← as_str member;
      receiver ← py_getitem base "name";
      receiver ← as_str receiver;
      Parsed (function_calls ++
              [Call.__init__ receiver (Function.__init__ member param_count (Some fun_type))
                             None])
    else Parsed function_calls
  else Parsed function_calls.

(** [get_calls_from_dict(dictionary, function_calls, keyname)] for the node
    [v]; a value without [items()] raises [AttributeError]. The list
    [function_calls] is extended in place; here it is passed along. *)
Fixpoint get_calls_from_dict (v : value) (function_calls : list Call.t)
    (keyname : string) {struct v} : parsed (list Call.t) :=
  match v with
  | VNode dictionary =>
      (fix items (rest : list (string * value)) (function_calls : list Call.t)
           {struct rest} : parsed (list Call.t) :=
         match rest with
         | [] => Parsed function_calls
         | (k, v') :: rest' =>
             function_calls ←
               (if bool_decide (k = "type") && py_eq_str v' "FunctionCall"
                then call_of_invocation dictionary keyname function_calls
                else Parsed function_calls);
             function_calls ←
               match v' with
               | VNode _ => get_calls_from_dict v' function_calls k
               | VList l =>
                   (fix elements (l : list value) (function_calls : list Call.t)
                        {struct l} : parsed (list Call.t) :=
                      match l with
                      | [] => Parsed function_calls
                      | x :: l' =>
                          function_calls ←
                            match x with
                            | VNode _ => get_calls_from_dict x function_calls ""
                            | _ => Parsed function_calls
                            end;
                          elements l' function_calls
                      end) l function_calls
               | _ => Parsed function_calls
               end;
             items rest' function_calls
         end) dictionary function_calls
  | _ => Throws PyAttributeError
  end.

(** [contract.functions[function] = calls] *)
Fixpoint functions_set (functions : list (Function.t * list Call.t))
    (function : Function.t) (calls : list Call.t) : list (Function.t * list Call.t) :=
  match functions with
  | [] => [(function, calls)]
  | (f, old) :: functions' =>
      if Function.__eq__ function f then (f, calls) :: functions'
      else (f, old) :: functions_set functions' function calls
  end.

Definition with_usingfor (c : Contract.t) (ty lib : string) : Contract.t :=
  Contract.mk (Contract.name c) (Contract.base_contracts c) (Contract.state_user_vars c)
    (<[ty := lib]> (Contract.usingfors c)) (Contract.functions c)
    (Contract.linearization c).

Definition with_state_user_var (c : Contract.t) (var ty : string) : Contract.t :=
  Contract.mk (Contract.name c) (Contract.base_contracts c)
    (<[var := ty]> (Contract.state_user_vars c)) (Contract.usingfors c)
    (Contract.functions c) (Contract.linearization c).

Definition with_function (c : Contract.t) (function : Function.t) (calls : list Call.t)
    : Contract.t :=
  Contract.mk (Contract.name c) (Contract.base_contracts c) (Contract.state_user_vars c)
    (Contract.usingfors c) (functions_set (Contract.functions c) function calls)
    (Contract.linearization c).

(** A loop whose body updates an accumulator and may raise. *)
Fixpoint for_each {A B} (f : A → B → parsed A) (a : A) (l : list B) : parsed A :=
  match l with
  | [] => Parsed a
  | x :: l' => a' ← f a x; for_each f a' l'
  end.

(** The kind that [node["type"][:-len("Definition")]] names, for the three
    types that reach it. *)
Definition definition_kind (ty : value) : option Function.kind :=
  if py_eq_str ty "FunctionDefinition" then Some Function.Function
  else if py_eq_str ty "ModifierDefinition" then Some Function.Modifier
  else if py_eq_str ty "EventDefinition" then Some Function.Event
  else None.

(** The three [if] statements of [parse_node], one after the other. In an
    assignment [d[k] = v] Python evaluates [v] before [k]. *)
Definition parse_using_for (contract : Contract.t) (node : value) : parsed Contract.t :=
  typename ← py_getitem node "typeName";
  typename_type ← py_getitem typename "type";
  if py_eq_str typename_type "UserDefinedTypeName" then
    library_name ← py_getitem node "libraryName";
    name_path ← py_getitem typename "namePath";
    library_name ← as_str library_name;
    name_path ← as_str name_path;
    Parsed (with_usingfor contract name_path library_name)
  else Parsed contract.

Definition parse_state_variable (contract : Contract.t) (var : value) : parsed Contract.t :=
  typename ← py_getitem var "typeName";
  typename_type ← py_getitem typename "type";
  if py_eq_str typename_type "UserDefinedTypeName" then
    name_path ← py_getitem typename "namePath";
    name ← py_getitem var "name";
    name_path ← as_str name_path;
    name ← as_str name;
    Parsed (with_state_user_var contract name name_path)
  else Parsed contract.

(** [Call("this", Function(x["name"], len(x["arguments"]), "Modifier"))] *)
Definition modifier_call (x : value) : parsed Call.t :=
  name ← py_getitem x "name";
  arguments ← py_getitem x "arguments";
  count ← py_len arguments;
  name ← as_str name;
  Parsed (Call.__init__ "this" (Function.__init__ name count (Some Function.Modifier)) None).

(** The body of the third [if] of [parse_node], for a definition of kind
    [fun_type]. The warning that the source prints for an overloaded
    function goes to the standard error and is left out. *)
Definition parse_definition (contract : Contract.t) (node : value) (fun_type : Function.kind)
    : parsed Contract.t :=
  name ← py_getitem node "name";
  name_calls ←
    (if bool_decide (fun_type = Function.Function) then
       is_constructor ← py_getitem node "isConstructor";
       let name := if py_truthy is_constructor then VStr (Contract.name contract) else name in
       modifiers ← py_getitem node "modifiers";
       modifiers ← py_iter modifiers;
       calls ← mapM modifier_call modifiers;
       Parsed (name, calls)
     else Parsed (name, []));
  let '(name, calls) := name_calls in
  has_body ← py_contains node "body";
  calls ←
    (if has_body : bool then
       body ← py_getitem node "body";
       if py_truthy body then get_calls_from_dict body calls "" else Parsed calls
     else Parsed calls);
  parameters ← py_getitem node "parameters";
  parameters ← py_getitem parameters "parameters";
  count ← py_len parameters;
  name ← as_str name;
  Parsed (with_function contract (Function.__init__ name count (Some fun_type)) calls).

Definition parse_node (contract : Contract.t) (node : value) : parsed Contract.t :=
  node_type ← py_getitem node "type";
  contract ←
    (if py_eq_str node_type "UsingForDeclaration" then parse_using_for contract node
     else Parsed contract);
  contract ←
    (if py_eq_str node_type "StateVariableDeclaration" then
       variables ← py_getitem node "variables";
       variables ← py_iter variables;
       for_each parse_state_variable contract variables
     else Parsed contract);
  match definition_kind node_type with
  | Some fun_type => parse_definition contract node fun_type
  | None => Parsed contract
  end.

(** [contracts[name] = contract] *)
Fixpoint contracts_set (contracts : registry) (name : string) (contract : Contract.t)
    : registry :=
  match contracts with
  | [] => [(name, contract)]
  | (n, old) :: contracts' =>
      if String.eqb name n then (n, contract) :: contracts'
      else (n, old) :: contracts_set contracts' name contract
  end.

(** [b["baseName"]["namePath"]] *)
Definition base_name_of (b : value) : parsed string :=
  base_name ← py_getitem b "baseName";
  name_path ← py_getitem base_name "namePath";
  as_str name_path.

(** The body of [if directive["type"] == "ContractDefinition"] in
    [parse_contracts]: the contract replaces one of the same name, its bases
    are the declared ones reversed, and its members are parsed in order. The
    source updates the registered contract in place; an exception ends the
    program, so the registry is given with the finished contract. *)
Definition parse_contract_definition (contracts : registry) (directive : value)
    : parsed registry :=
  name ← py_getitem directive "name";
  name ← as_str name;
  base_contracts ← py_getitem directive "baseContracts";
  base_contracts ← py_reversed base_contracts;
  bases ← mapM base_name_of base_contracts;
  let contract :=
    Contract.mk name bases ∅ ∅ [] [] in
  sub_nodes ← py_getitem directive "subNodes";
  sub_nodes ← py_iter sub_nodes;
  contract ← for_each parse_node contract sub_nodes;
  Parsed (contracts_set contracts name contract).

(** One turn of each loop of [get_calls_from_dict], to state its
    unfolding: an element of a list value, and an item of the node. *)
Definition get_calls_element (function_calls : list Call.t) (x : value)
    : parsed (list Call.t) :=
  match x with
  | VNode _ => get_calls_from_dict x function_calls ""
  | _ => Parsed function_calls
  end.

Definition get_calls_item (dictionary : list (string * value)) (keyname : string)
    (function_calls : list Call.t) (item : string * value) : parsed (list Call.t) :=
  function_calls ←
    (if bool_decide (item.1 = "type") && py_eq_str item.2 "FunctionCall"
     then call_of_invocation dictionary keyname function_calls
     else Parsed function_calls);
  match item.2 with
  | VNode _ => get_calls_from_dict item.2 function_calls item.1
  | VList l => for_each get_calls_element function_calls l
  | _ => Parsed function_calls
  end.

(** [g] only appends to the list it is given, what it appends does not
    depend on that list, and every call it appends satisfies [P]. *)
Definition yields (P : Call.t → Prop) (g : list Call.t → parsed (list Call.t)) : Prop :=
  (∀ acc, g acc = (new ← g []; Parsed (acc ++ new))) ∧
  ∀ new, g [] = Parsed new → Forall P new.

(** A call as the extraction records it from a body: its context is its
    receiver, and its function is a plain function or an event. *)
Definition extracted (c : Call.t) : Prop :=
  Call.context c = Call.contract c ∧
  (Function.type (Call.function c) = Function.Function ∨
   Function.type (Call.function c) = Function.Event).

(** A call as [parse_node] records it for an attached modifier. *)
Definition is_modifier_call (c : Call.t) : Prop :=
  Call.contract c = "this" ∧ Call.context c = "this" ∧
  Function.type (Call.function c) = Function.Modifier.

(** ** Sample syntax trees, in the shapes of the parser *)

Definition identifier (name : string) : value :=
  VNode [("type", VStr "Identifier"); ("name", VStr name)].

Definition member_access (base : value) (member : string) : value :=
  VNode [("type", VStr "MemberAccess"); ("expression", base); ("memberName", VStr member)].

Definition invocation (exp : value) (arguments : list value) : value :=
  VNode [("type", VStr "FunctionCall"); ("expression", exp);
         ("arguments", VList arguments); ("names", VList [])].

Definition expression_statement (e : value) : value :=
  VNode [("type", VStr "ExpressionStatement"); ("expression", e)].

Definition emit_statement (e : value) : value :=
  VNode [("type", VStr "EmitStatement"); ("eventCall", e)].

Definition block (statements : list value) : value :=
  VNode [("type", VStr "Block"); ("statements", VList statements)].

Definition parameter_list (n : nat) : value :=
  VNode [("type", VStr "ParameterList");
         ("parameters", VList (replicate n (VNode [("type", VStr "Parameter")])))].

Definition modifier_invocation (name : string) (arguments : list value) : value :=
  VNode [("type", VStr "ModifierInvocation"); ("name", VStr name);
         ("arguments", VList arguments)].

Definition function_definition (name : string) (n : nat) (modifiers : list value)
    (body : value) (is_constructor : bool) : value :=
  VNode [("type", VStr "FunctionDefinition"); ("name", VStr name);
         ("parameters", parameter_list n); ("body", body);
         ("modifiers", VList modifiers); ("isConstructor", VBool is_constructor)].

Definition user_defined_type (name_path : string) : value :=
  VNode [("type", VStr "UserDefinedTypeName"); ("namePath", VStr name_path)].

Definition elementary_type (name : string) : value :=
  VNode [("type", VStr "ElementaryTypeName"); ("name", VStr name)].

Definition state_variable_declaration (variables : list (string * value)) : value :=
  VNode [("type", VStr "StateVariableDeclaration");
         ("variables",
          VList ((λ v, VNode [("type", VStr "VariableDeclaration");
                              ("typeName", v.2); ("name", VStr v.1)]) <$> variables))].

Definition using_for_declaration (type_name : value) (library_name : string) : value :=
  VNode [("type", VStr "UsingForDeclaration"); ("typeName", type_name);
         ("libraryName", VStr library_name)].

Definition contract_definition (name : string) (bases : list string)
    (sub_nodes : list value) : value :=
  VNode [("type", VStr "ContractDefinition"); ("name", VStr name);
         ("baseContracts",
          VList ((λ b, VNode [("type", VStr "InheritanceSpecifier");
                              ("baseName", user_defined_type b)]) <$> bases));
         ("subNodes", VList sub_nodes)].

(** [{ _approve(a, g(), c); emit Approval(a); token.transfer(x);
      h().call(); }] *)
Definition ex_body : value :=
  block [
    expression_statement
      (invocation (identifier "_approve")
                  [identifier "a"; invocation (identifier "g") []; identifier "c"]);
    emit_statement (invocation (identifier "Approval") [identifier "a"]);
    expression_statement
      (invocation (member_access (identifier "token") "transfer") [identifier "x"]);
    expression_statement
      (invocation (member_access (invocation (identifier "h") []) "call") [])].

(** * Vocabulary of the builder properties *)

(** [node["type"] == s], for a node that has a type. *)
Definition has_type (node : value) (s : string) : bool :=
  match py_getitem node "type" with
  | Parsed ty => py_eq_str ty s
  | _ => false
  end.

(** [var] declares a variable [x] of the user-defined type [ty]. *)
Definition user_typed (var : value) (x ty : string) : Prop :=
  ∃ typename,
    py_getitem var "typeName" = Parsed typename ∧
    py_getitem typename "type" = Parsed (VStr "UserDefinedTypeName") ∧
    py_getitem typename "namePath" = Parsed (VStr ty) ∧
    py_getitem var "name" = Parsed (VStr x).

(** [c'] differs from [c] at most in the fields that [parse_node] fills. *)
Definition same_header (c c' : Contract.t) : Prop :=
  Contract.name c' = Contract.name c ∧
  Contract.base_contracts c' = Contract.base_contracts c ∧
  Contract.linearization c' = Contract.linearization c.

(** [node["isConstructor"]] holds. *)
Definition is_constructor (node : value) : bool :=
  match py_getitem node "isConstructor" with
  | Parsed v => py_truthy v
  | _ => false
  end.

(** [function] is the identity of the definition [node] of kind [kind] in
    [contract]: its kind, its number of parameters, and its name, which for
    a constructor is the contract's. *)
Definition signature_of (contract : Contract.t) (node : value) (kind : Function.kind)
    (function : Function.t) : Prop :=
  Function.type function = kind ∧
  (if bool_decide (kind = Function.Function) && is_constructor node
   then Function.name function = Contract.name contract
   else py_getitem node "name" = Parsed (VStr (Function.name function))) ∧
  ∃ parameters l,
    py_getitem node "parameters" = Parsed parameters ∧
    py_getitem parameters "parameters" = Parsed (VList l) ∧
    Function.params function = Z.of_nat (length l).

(** The calls of the body of the definition [node]; none without a body. *)
Definition body_calls (node : value) (body : list Call.t) : Prop :=
  match py_getitem node "body" with
  | Parsed b => if py_truthy b then get_calls_from_dict b [] "" = Parsed body else body = []
  | _ => body = []
  end.

(** [function approve(a, b) onlyOwner { ... }] with the body [ex_body], and
    the contract that holds it. *)
Definition ex_approve : value :=
  function_definition "approve" 2 [modifier_invocation "onlyOwner" []] ex_body false.

Definition ex_token_contract : Contract.t := Contract.__init__ "Token".

Definition ex_body_calls : list Call.t :=
  [raw_call "this" (fn "_approve" 3); raw_call "this" (fn "g" 0);
   raw_call "this" (Function.mk "Approval" 1 Function.Event);
   raw_call "token" (fn "transfer" 1); raw_call "this" (fn "h" 0)].

Definition ex_only_owner : Call.t :=
  raw_call "this" (Function.mk "onlyOwner" 0 Function.Modifier).

(** * Functions by their fields, and further sample models *)

(** The modeled contract [b] has, among the keys of its function map, a
    function with the name, the parameter count and the kind of [f]. *)
Definition has_function (contracts : registry) (f : Function.t) (b : string) : Prop :=
  ∃ base g body,
    contracts_get contracts b = Some base ∧
    (g, body) ∈ Contract.functions base ∧
    Function.name g = Function.name f ∧
    Function.params g = Function.params f ∧
    Function.type g = Function.type f.

(** [contract A { foo() }], [contract B is A { foo(x)  event foo() }],
    [contract C is B { foo() { super.foo() } }]: [B] has the name [foo], but
    not with no parameter as a function. *)
Definition ex_chain_gap : registry := linked
  [raw_contract "A" [] [] [] [(fn "foo" 0, [])];
   raw_contract "B" ["A"] [] []
     [(fn "foo" 1, []); (Function.mk "foo" 0 Function.Event, [])];
   raw_contract "C" ["B"] [] [] [(fn "foo" 0, [raw_call "super" (fn "foo" 0)])]].

(** [contract Base { f() { g() }  g() }], [contract Mid is Base { g(x) }],
    [contract Derived is Mid { h() { f() } }]. *)
Definition ex_derived_gap : registry := linked
  [raw_contract "Base" [] [] []
     [(fn "f" 0, [raw_call "this" (fn "g" 0)]); (fn "g" 0, [])];
   raw_contract "Mid" ["Base"] [] [] [(fn "g" 1, [])];
   raw_contract "Derived" ["Mid"] [] [] [(fn "h" 0, [raw_call "this" (fn "f" 0)])]].

(** [contract T { a() { c(); b() }  b() { c() }  c() { d() }  d() }] *)
Definition ex_shared_callee : registry := linked
  [raw_contract "T" [] [] []
     [(fn "a" 0, [raw_call "this" (fn "c" 0); raw_call "this" (fn "b" 0)]);
      (fn "b" 0, [raw_call "this" (fn "c" 0)]);
      (fn "c" 0, [raw_call "this" (fn "d" 0)]);
      (fn "d" 0, [])]].

(** A contract that holds [approve] with two parameters already, between
    two other functions. *)
Definition ex_token_redefined : Contract.t :=
  Contract.mk "Token" [] ∅ ∅
    [(fn "transfer" 2, []);
     (fn "approve" 2, [raw_call "this" (fn "old" 0)]);
     (fn "check" 1, [])] [].

(** * Properties *)

(** ** Equality of the classes *)

Lemma Function_eq_true (f g : Function.t) : Function.__eq__ f g = true ↔ f = g.
Proof.
  unfold Function.__eq__. rewrite !andb_true_iff, !bool_decide_eq_true.
  split; [|by intros ->].
  destruct f, g; simpl. by intros [[-> ->] ->].
Qed.

Lemma Function_eq_refl (f : Function.t) : Function.__eq__ f f = true.
Proof. by apply Function_eq_true. Qed.

Lemma Call_eq_true (c d : Call.t) : Call.__eq__ c d = true ↔ call_key c = call_key d.
Proof.
  unfold Call.__eq__, call_key.
  rewrite andb_true_iff, bool_decide_eq_true, Function_eq_true.
  split; [by intros [-> ->]|]. by intros [= -> ->].
Qed.

Lemma call_in_true (x : Call.t) (lst : list Call.t) :
  call_in x lst = true ↔ call_key x ∈ call_key <$> lst.
Proof.
  unfold call_in. rewrite existsb_exists, list_elem_of_fmap.
  split.
  - intros (y & Hy & Heq). exists y. split; [by apply Call_eq_true|].
    by apply list_elem_of_In.
  - intros (y & Heq & Hy). exists y. split; [by apply list_elem_of_In|].
    by apply Call_eq_true.
Qed.

Lemma call_in_false (x : Call.t) (lst : list Call.t) :
  call_in x lst = false ↔ call_key x ∉ call_key <$> lst.
Proof.
  rewrite <- not_true_iff_false. by rewrite call_in_true.
Qed.

(** ** Dictionaries *)

Lemma dict_get_elem_of {K V} (eqb : K → K → bool) (d : list (K * V)) k v :
  dict_get eqb d k = Some v → ∃ k', eqb k k' = true ∧ (k', v) ∈ d.
Proof.
  induction d as [|[k' v'] d IH]; simpl; [done|].
  destruct (eqb k k') eqn:E.
  - intros [= ->]. exists k'. split; [done|]. by left.
  - intros (k'' & ? & ?)%IH. exists k''. split; [done|]. by right.
Qed.

Lemma contracts_get_elem_of (contracts : registry) name c :
  contracts_get contracts name = Some c → (name, c) ∈ contracts.
Proof.
  intros (k' & Heq & Hin)%dict_get_elem_of.
  by apply String.eqb_eq in Heq as ->.
Qed.

Lemma functions_get_elem_of (c : Contract.t) f body :
  functions_get c f = Some body → (f, body) ∈ Contract.functions c.
Proof.
  intros (k' & Heq & Hin)%dict_get_elem_of.
  by apply Function_eq_true in Heq as ->.
Qed.

(** [function in contract.functions] holds exactly when the contract has
    an entry under that very identity. *)
Lemma defines_true (f : Function.t) (c : Contract.t) :
  defines f c = true ↔ ∃ body, (f, body) ∈ Contract.functions c.
Proof.
  unfold defines, dict_in. rewrite bool_decide_eq_true. split.
  - intros [body Hbody]. exists body. by apply functions_get_elem_of.
  - intros [body Hin]. induction (Contract.functions c) as [|[k v] d IH]; simpl.
    + by apply not_elem_of_nil in Hin.
    + destruct (Function.__eq__ f k) eqn:E; [done|].
      apply elem_of_cons in Hin as [[= <- <-]|Hin]; [|by apply IH].
      by rewrite Function_eq_refl in E.
Qed.

(** ** The result monad *)

Lemma bind_Ok_inv {A B} (m : result A) (f : A → result B) b :
  m ≫= f = Ok b → ∃ a, m = Ok a ∧ f a = Ok b.
Proof. destruct m; simpl; [eauto|done..]. Qed.

Lemma mapM_Ok_inv {A B} (f : A → result B) (l : list A) (k : list B) :
  mapM f l = Ok k ↔ Forall2 (λ x y, f x = Ok y) l k.
Proof.
  revert k. induction l as [|x l IH]; intros k; simpl.
  - split; [intros [= <-]; constructor|by inversion 1].
  - split.
    + intros (y & Hy & (k' & Hk' & [= <-])%bind_Ok_inv)%bind_Ok_inv.
      constructor; [done|]. by apply IH.
    + inversion 1 as [|? y ? k' Hy Hk']; subst.
      apply IH in Hk'. unfold mbind, result_bind, mret, result_ret in *.
      by rewrite Hy, Hk'.
Qed.

(** ** The merge: what a successful run returns *)

Lemma any_false (lst : list (list string)) :
  any lst = false ↔ Forall (λ l, l = []) lst.
Proof.
  unfold any. induction lst as [|l lst IH]; simpl.
  - split; [constructor|done].
  - rewrite orb_false_iff, IH, Forall_cons, bool_decide_eq_false.
    assert (¬ l ≠ [] ↔ l = []) as ->; [|done].
    destruct l; split; intros H; try done.
    + by intros H'.
    + by destruct H.
Qed.

Lemma not_in_tails_true c lst :
  not_in_tails c lst = Ok true → Forall (λ l, l ≠ []) lst ∧ in_no_tail lst c.
Proof.
  unfold in_no_tail.
  induction lst as [|[|h t] lst IH]; simpl; [by split|done|].
  case_bool_decide as Hin; [done|]. intros [? ?]%IH.
  split; constructor; done.
Qed.

Lemma not_in_tails_nonempty c lst :
  Forall (λ l, l ≠ []) lst →
  not_in_tails c lst = Ok (bool_decide (in_no_tail lst c)).
Proof.
  unfold in_no_tail.
  induction 1 as [|[|h t] lst Hne _ IH]; simpl; [done..|].
  destruct (decide (c ∈ t)) as [Hin|Hin].
  - rewrite (bool_decide_eq_true_2 _ Hin). f_equal. symmetry.
    apply bool_decide_eq_false. by inversion 1.
  - rewrite (bool_decide_eq_false_2 _ Hin), IH. f_equal. apply bool_decide_ext.
    split; [by constructor|by inversion 1].
Qed.

Lemma find_candidate_Some hs lst c :
  find_candidate hs lst = Ok (Some c) →
  c ∈ heads hs ∧ not_in_tails c lst = Ok true.
Proof.
  induction hs as [|[|h t] hs IH]; simpl; [done..|].
  destruct (not_in_tails h lst) as [[]| |] eqn:E; simpl; try done.
  - intros [= <-]. split; [by left|done].
  - intros [? ?]%IH. split; [by right|done].
Qed.

Lemma mapM_drop_candidate c lst rec :
  mapM (drop_candidate c) lst = Ok rec → rec = drop_head c <$> lst.
Proof.
  rewrite mapM_Ok_inv. induction 1 as [|[|h t] y lst rec Hy _ IH]; simpl in *;
    [done..|]. injection Hy as <-. by rewrite IH.
Qed.

Lemma mapM_drop_candidate_nonempty c lst :
  Forall (λ l, l ≠ []) lst →
  mapM (drop_candidate c) lst = Ok (drop_head c <$> lst).
Proof.
  intros Hne. apply mapM_Ok_inv.
  induction Hne as [|[|h t] lst Hl _ IH]; simpl; constructor; done.
Qed.

Lemma elem_of_drop_head c l x :
  c ∉ tail l → x ∈ drop_head c l ↔ x ∈ l ∧ x ≠ c.
Proof.
  destruct l as [|h t]; simpl; [set_solver|].
  intros Hc. case_bool_decide as Hh; [subst h|]; set_solver.
Qed.

Lemma elem_of_heads c lst :
  c ∈ heads lst ↔ ∃ l, l ∈ lst ∧ head l = Some c.
Proof. unfold heads. by rewrite list_elem_of_omap. Qed.

(** The lists handed to the recursive call hold what the lists held,
    without the candidate. *)
Lemma elem_of_merge_rest c lst x :
  in_no_tail lst c →
  (∃ l, l ∈ filter (λ l, l ≠ []) (drop_head c <$> lst) ∧ x ∈ l) ↔
  (∃ l, l ∈ lst ∧ x ∈ l) ∧ x ≠ c.
Proof.
  unfold in_no_tail. rewrite Forall_forall. intros Hc. split.
  - intros (l & Hl & Hx). apply list_elem_of_filter in Hl as [_ Hl].
    apply list_elem_of_fmap in Hl as (l0 & -> & Hl0).
    apply elem_of_drop_head in Hx as [? ?]; [|by apply Hc]. eauto.
  - intros [(l & Hl & Hx) Hne]. exists (drop_head c l). split.
    + apply list_elem_of_filter. split.
      * intros Hnil. assert (x ∈ drop_head c l) as Hx'
          by (apply elem_of_drop_head; [by apply Hc|done]).
        rewrite Hnil in Hx'. by apply not_elem_of_nil in Hx'.
      * apply list_elem_of_fmap. eauto.
    + apply elem_of_drop_head; [by apply Hc|done].
Qed.

Lemma c3_merge_fuel_Ok fuel lst out :
  c3_merge_fuel fuel lst = Ok out →
  NoDup out ∧ ∀ x, x ∈ out ↔ ∃ l, l ∈ lst ∧ x ∈ l.
Proof.
  revert lst out. induction fuel as [|fuel IH]; intros lst out; simpl; [done|].
  destruct (any lst) eqn:Hany; simpl.
  - intros ([c|] & Hfound & Hrest)%bind_Ok_inv; [|done].
    apply bind_Ok_inv in Hrest as (rec & Hrec & Hrest).
    apply bind_Ok_inv in Hrest as (rest & Hrest & [= <-]).
    apply mapM_drop_candidate in Hrec as ->.
    apply find_candidate_Some in Hfound as [Hhead [_ Htails]%not_in_tails_true].
    apply IH in Hrest as [Hnodup Hrest].
    assert (∀ x, x ∈ rest ↔ (∃ l, l ∈ lst ∧ x ∈ l) ∧ x ≠ c) as Hrest'.
    { intros x. by rewrite Hrest, elem_of_merge_rest. }
    split.
    + constructor; [|done]. rewrite Hrest'. naive_solver.
    + intros x. rewrite elem_of_cons, Hrest'. split.
      * intros [->|[? _]]; [|done].
        apply elem_of_heads in Hhead as (l & Hl & Hc). exists l. split; [done|].
        destruct l; simplify_eq/=. by left.
      * intros Hx. destruct (decide (x = c)); [by left|by right].
  - intros [= <-]. split; [constructor|]. intros x. split; [by intros ?%not_elem_of_nil|].
    apply any_false in Hany. rewrite Forall_forall in Hany.
    intros (l & Hl & Hx). rewrite (Hany l Hl) in Hx. by apply not_elem_of_nil in Hx.
Qed.

Lemma c3_merge_Ok lst out :
  c3_merge lst = Ok out →
  NoDup out ∧ ∀ x, x ∈ out ↔ ∃ l, l ∈ lst ∧ x ∈ l.
Proof. apply c3_merge_fuel_Ok. Qed.

(** ** The merge: when it fails *)

Lemma first_match_unique {A} (P : A → Prop) pre x post pre' x' post' :
  pre ++ x :: post = pre' ++ x' :: post' →
  P x → P x' → Forall (λ y, ¬ P y) pre → Forall (λ y, ¬ P y) pre' →
  pre = pre' ∧ x = x' ∧ post = post'.
Proof.
  revert pre'. induction pre as [|y pre IH]; intros [|y' pre']; simpl.
  - by intros [= -> ->].
  - intros [= -> _] Hx _ _ Hpre'. by inversion Hpre'.
  - intros [= -> _] _ Hx' Hpre _. by inversion Hpre.
  - intros [= -> Heq] Hx Hx' Hpre Hpre'.
    inversion Hpre; inversion Hpre'; subst.
    destruct (IH pre' Heq) as (-> & -> & ->); done.
Qed.

Lemma first_candidate_unique lst c c' :
  first_candidate lst c → first_candidate lst c' → c = c'.
Proof.
  intros (pre & post & Hh & Hc & Hpre) (pre' & post' & Hh' & Hc' & Hpre').
  rewrite Hh in Hh'.
  by destruct (first_match_unique _ _ _ _ _ _ _ Hh' Hc Hc' Hpre Hpre') as (_ & ? & _).
Qed.

Lemma find_candidate_nonempty hs lst :
  Forall (λ l, l ≠ []) lst → Forall (λ l, l ≠ []) hs →
  (∃ c pre post, find_candidate hs lst = Ok (Some c) ∧
      heads hs = pre ++ c :: post ∧ in_no_tail lst c ∧
      Forall (λ x, ¬ in_no_tail lst x) pre) ∨
  (find_candidate hs lst = Ok None ∧ Forall (λ x, ¬ in_no_tail lst x) (heads hs)).
Proof.
  intros Hlst. induction 1 as [|[|h t] hs Hne _ IH]; simpl; [by right|done|].
  rewrite (not_in_tails_nonempty _ _ Hlst). simpl.
  destruct (decide (in_no_tail lst h)) as [Hh|Hh].
  - rewrite (bool_decide_eq_true_2 _ Hh). left. exists h, [], (heads hs).
    by repeat split.
  - rewrite (bool_decide_eq_false_2 _ Hh).
    destruct IH as [(c & pre & post & -> & Heq & Hc & Hpre)|[-> Hall]].
    + left. exists c, (h :: pre), post. unfold heads in *. simpl. rewrite Heq.
      repeat split; [done|]. by constructor.
    + right. split; [done|]. by constructor.
Qed.

Lemma length_drop_head c l : (length (drop_head c l) ≤ length l)%nat.
Proof. destruct l; simpl; [done|]. case_bool_decide; simpl; lia. Qed.

Lemma total_length_filter (lst : list (list string)) :
  total_length (filter (λ l, l ≠ []) lst) = total_length lst.
Proof.
  unfold total_length. induction lst as [|[|h t] lst IH]; [done|..].
  - rewrite filter_cons_False; [done|]. intros H. by apply H.
  - rewrite filter_cons_True by done. rewrite !fmap_cons. cbn [sum_list_with].
    by rewrite IH.
Qed.

Lemma total_length_drop_le c lst :
  (total_length (drop_head c <$> lst) ≤ total_length lst)%nat.
Proof.
  unfold total_length. induction lst as [|l lst IH]; [done|].
  pose proof (length_drop_head c l). rewrite !fmap_cons. cbn [sum_list_with].
  unfold id in *. lia.
Qed.

Lemma total_length_rest_lt c lst :
  c ∈ heads lst →
  (total_length (filter (λ l, l ≠ []) (drop_head c <$> lst)) < total_length lst)%nat.
Proof.
  rewrite total_length_filter.
  unfold heads. induction lst as [|l lst IH].
  - by intros ?%not_elem_of_nil.
  - pose proof (total_length_drop_le c lst) as Hle.
    pose proof (length_drop_head c l) as Hl.
    unfold total_length in *. rewrite !fmap_cons. cbn [sum_list_with]. unfold id in *.
    destruct l as [|h t]; cbn [omap list_omap head]; [intros Hin%IH; lia|].
    rewrite elem_of_cons. intros [->|Hin%IH]; [|lia].
    cbn [drop_head]. rewrite bool_decide_eq_true_2 by done.
    cbn [length]. lia.
Qed.

Lemma merge_rest_nonempty c lst :
  Forall (λ l, l ≠ []) (filter (λ l : list string, l ≠ []) (drop_head c <$> lst)).
Proof. apply Forall_forall. by intros l [? _]%list_elem_of_filter. Qed.

Lemma not_reaches_stuck_nil : ¬ reaches_stuck [].
Proof.
  intros (lst' & Hrtc & Hstuck). inversion Hrtc as [|? y ? Hstep _]; subst.
  - destruct Hstuck as [(l & Hl & _) _]. by apply not_elem_of_nil in Hl.
  - destruct Hstep as (c & (pre & post & Hh & _) & _).
    by destruct pre.
Qed.

Lemma c3_merge_fuel_total fuel lst :
  Forall (λ l, l ≠ []) lst → (total_length lst < fuel)%nat →
  (c3_merge_fuel fuel lst = Raise TypeError ∧ reaches_stuck lst) ∨
  (∃ out, c3_merge_fuel fuel lst = Ok out ∧ ¬ reaches_stuck lst).
Proof.
  revert lst. induction fuel as [|fuel IH]; intros lst Hne Hlen; [lia|].
  simpl. destruct (any lst) eqn:Hany; simpl.
  - destruct (find_candidate_nonempty lst lst Hne Hne)
      as [(c & pre & post & -> & Hh & Hc & Hpre)|[-> Hall]]; simpl.
    + rewrite (mapM_drop_candidate_nonempty _ _ Hne). simpl.
      assert (c ∈ heads lst) as Hin by (rewrite Hh; set_solver).
      assert (first_candidate lst c) as Hfirst by (by exists pre, post).
      pose proof (total_length_rest_lt c lst Hin) as Hlt.
      destruct (IH _ (merge_rest_nonempty c lst)) as [[-> Hreach]|(out & -> & Hreach)];
        [lia| |]; simpl.
      * left. split; [done|]. destruct Hreach as (lst' & Hrtc & Hstuck).
        exists lst'. split; [|done]. eapply rtc_l; [|done]. by exists c.
      * right. exists (c :: out). split; [done|].
        intros (lst' & Hrtc & Hstuck). inversion Hrtc as [|? y ? Hstep Hrtc']; subst.
        -- destruct Hstuck as [_ Hno]. by apply (Hno c).
        -- destruct Hstep as (c' & Hfirst' & ->).
           rewrite <- (first_candidate_unique _ _ _ Hfirst Hfirst') in Hrtc'.
           apply Hreach. by exists lst'.
    + left. split; [done|]. exists lst. split; [done|]. split.
      * apply existsb_exists in Hany as (l & Hl & Hnil%bool_decide_eq_true).
        exists l. split; [by apply list_elem_of_In|done].
      * rewrite Forall_forall in Hall. done.
  - right. exists []. split; [done|].
    apply any_false in Hany.
    assert (lst = []) as ->; [|apply not_reaches_stuck_nil].
    destruct lst as [|l lst]; [done|]. inversion Hne; inversion Hany; subst. done.
Qed.

(** ** The linearization *)

Lemma c3_S fuel contract contracts :
  c3 (S fuel) contract contracts =
  match contracts_get contracts contract with
  | None => Ok [contract]
  | Some c =>
      if decide (Contract.base_contracts c = []) then Ok [contract]
      else
        lins ← mapM (λ base, c3 fuel base contracts) (Contract.base_contracts c);
        merged ← c3_merge (lins ++ [Contract.base_contracts c]);
        Ok (contract :: merged)
  end.
Proof.
  simpl. destruct (contracts_get contracts contract) as [c|]; [|done].
  by destruct (Contract.base_contracts c).
Qed.

Lemma c3_node_inv fuel contract contracts c l :
  contracts_get contracts contract = Some c →
  Contract.base_contracts c ≠ [] →
  c3 (S fuel) contract contracts = Ok l →
  ∃ lins merged,
    Forall2 (λ b lb, c3 fuel b contracts = Ok lb) (Contract.base_contracts c) lins ∧
    c3_merge (lins ++ [Contract.base_contracts c]) = Ok merged ∧
    l = contract :: merged.
Proof.
  intros Hc Hbases. rewrite c3_S, Hc, decide_False by done.
  intros (lins & Hlins & (merged & Hmerged & [= <-])%bind_Ok_inv)%bind_Ok_inv.
  exists lins, merged. by rewrite <- mapM_Ok_inv.
Qed.

Lemma mapM_mono {A B} (f g : A → result B) (l : list A) r :
  (∀ x r, x ∈ l → f x = r → r ≠ OutOfFuel → g x = r) →
  mapM f l = r → r ≠ OutOfFuel → mapM g l = r.
Proof.
  revert r. induction l as [|x l IH]; intros r Hfg; simpl; [done|].
  destruct (f x) as [y| |] eqn:Hx; simpl.
  - rewrite (Hfg x (Ok y)); [|by left|done..]. simpl.
    destruct (mapM f l) as [k| |] eqn:Hl; simpl.
    + rewrite (IH (Ok k)); [done| |done..]. intros. apply Hfg; [by right|done..].
    + rewrite (IH (Raise e)); [done| |done..]. intros. apply Hfg; [by right|done..].
    + by intros <-.
  - rewrite (Hfg x (Raise e)); [done|by left|done..].
  - by intros <-.
Qed.

(** More fuel does not change a result that did not run out of it. *)
Lemma c3_mono fuel contract contracts r :
  c3 fuel contract contracts = r → r ≠ OutOfFuel →
  c3 (S fuel) contract contracts = r.
Proof.
  revert contract r. induction fuel as [|fuel IH]; intros contract r.
  { simpl. by intros <-. }
  rewrite (c3_S (S fuel)), c3_S.
  destruct (contracts_get contracts contract) as [c|]; [|done].
  case_decide; [done|].
  destruct (mapM (λ base, c3 fuel base contracts) (Contract.base_contracts c))
    as [lins| |] eqn:Hlins.
  - by rewrite (mapM_mono _ _ _ _ (λ x r _, IH x r) Hlins).
  - by rewrite (mapM_mono _ _ _ _ (λ x r _, IH x r) Hlins).
  - by intros <-.
Qed.

Lemma c3_mono_le fuel fuel' contract contracts r :
  (fuel ≤ fuel')%nat →
  c3 fuel contract contracts = r → r ≠ OutOfFuel →
  c3 fuel' contract contracts = r.
Proof. induction 1; [done|]. intros. apply c3_mono; auto. Qed.

Lemma tc_inv_l {A} (R : relation A) x z :
  tc R x z → R x z ∨ ∃ y, R x y ∧ tc R y z.
Proof. destruct 1; eauto. Qed.

Lemma is_base_inv contracts contract c x :
  contracts_get contracts contract = Some c →
  is_base contracts contract x → x ∈ Contract.base_contracts c.
Proof. intros Hc (c' & Hc' & Hx). by simplify_eq. Qed.

(** What the merge of a contract with bases holds: its transitive bases. *)
Lemma c3_merged_elem fuel contracts contract c lins merged :
  contracts_get contracts contract = Some c →
  Forall2 (λ b lb, c3 fuel b contracts = Ok lb) (Contract.base_contracts c) lins →
  (∀ b lb, c3 fuel b contracts = Ok lb →
     ∀ x, x ∈ lb ↔ x = b ∨ transitive_base contracts b x) →
  c3_merge (lins ++ [Contract.base_contracts c]) = Ok merged →
  ∀ x, x ∈ merged ↔ transitive_base contracts contract x.
Proof.
  intros Hc Hlins IH [_ Hmerged]%c3_merge_Ok x. rewrite Hmerged. split.
  - intros (l & [Hl| ->%list_elem_of_singleton]%elem_of_app & Hx).
    + apply list_elem_of_lookup in Hl as [i Hi].
      destruct (Forall2_lookup_r _ _ _ _ _ Hlins Hi) as (b & Hb & Hcb).
      assert (is_base contracts contract b) as Hbase.
      { exists c. split; [done|]. by eapply list_elem_of_lookup_2. }
      destruct (proj1 (IH _ _ Hcb x) Hx) as [Heq|Hx']; [rewrite Heq; by apply tc_once|].
      by eapply tc_l.
    + apply tc_once. by exists c.
  - intros [Hb|(b & Hb & Hrest)]%tc_inv_l;
      pose proof (is_base_inv _ _ _ _ Hc Hb) as Hin.
    + exists (Contract.base_contracts c).
      split; [|done]. apply elem_of_app. right. by apply list_elem_of_singleton.
    + apply list_elem_of_lookup in Hin as [i Hi].
      destruct (Forall2_lookup_l _ _ _ _ _ Hlins Hi) as (lb & Hlb & Hcb).
      exists lb. split.
      * apply elem_of_app. left. by eapply list_elem_of_lookup_2.
      * apply (IH _ _ Hcb). by right.
Qed.

Lemma not_transitive_base_leaf contracts contract x :
  (∀ c, contracts_get contracts contract = Some c → Contract.base_contracts c = []) →
  ¬ transitive_base contracts contract x.
Proof.
  intros Hleaf [(c & Hc & Hb)|(b & (c & Hc & Hb) & _)]%tc_inv_l;
    rewrite (Hleaf c Hc) in Hb; by apply not_elem_of_nil in Hb.
Qed.

Lemma c3_elem fuel contracts contract l :
  c3 fuel contract contracts = Ok l →
  ∀ x, x ∈ l ↔ x = contract ∨ transitive_base contracts contract x.
Proof.
  revert contract l. induction fuel as [|fuel IH]; intros contract l; [done|].
  destruct (contracts_get contracts contract) as [c|] eqn:Hc.
  - destruct (decide (Contract.base_contracts c = [])) as [Hb|Hb].
    + rewrite c3_S, Hc, decide_True by done. intros [= <-] x.
      rewrite list_elem_of_singleton. split; [by left|]. intros [?|Htc]; [done|].
      exfalso. eapply not_transitive_base_leaf; [|done]. intros c' ?. by simplify_eq.
    + intros (lins & merged & Hlins & Hmerged & ->)%(c3_node_inv _ _ _ c); [|done..].
      intros x. rewrite elem_of_cons.
      by rewrite (c3_merged_elem _ _ _ _ _ _ Hc Hlins IH Hmerged).
  - rewrite c3_S, Hc. intros [= <-] x.
    rewrite list_elem_of_singleton. split; [by left|]. intros [?|Htc]; [done|].
    exfalso. eapply not_transitive_base_leaf; [|done]. intros c' ?. by simplify_eq.
Qed.

(** A linearization that was computed for [contract] was computed, with
    less fuel, for each of its bases. *)
Lemma c3_base_fuel contracts contract x :
  transitive_base contracts contract x →
  ∀ fuel l, c3 fuel contract contracts = Ok l →
  ∃ fuel' l', fuel = S fuel' ∧ c3 fuel' x contracts = Ok l'.
Proof.
  induction 1 as [contract x (c & Hc & Hx)|contract b x (c & Hc & Hb) _ IH];
    intros [|fuel] l Hl; try done.
  - apply (c3_node_inv _ _ _ c) in Hl as (lins & _ & Hlins & _);
      [|done|by intros Hnil; rewrite Hnil in Hx; apply not_elem_of_nil in Hx].
    apply list_elem_of_lookup in Hx as [i Hi].
    destruct (Forall2_lookup_l _ _ _ _ _ Hlins Hi) as (lx & _ & Hlx). eauto.
  - apply (c3_node_inv _ _ _ c) in Hl as (lins & _ & Hlins & _);
      [|done|by intros Hnil; rewrite Hnil in Hb; apply not_elem_of_nil in Hb].
    apply list_elem_of_lookup in Hb as [i Hi].
    destruct (Forall2_lookup_l _ _ _ _ _ Hlins Hi) as (lb & _ & Hlb).
    destruct (IH _ _ Hlb) as (fuel' & l' & -> & Hl').
    exists (S fuel'), l'. split; [done|]. by apply c3_mono.
Qed.

Lemma c3_acyclic fuel contracts contract l :
  c3 fuel contract contracts = Ok l → ¬ transitive_base contracts contract contract.
Proof.
  revert l. induction fuel as [|fuel IH]; intros l Hl Htc; [done|].
  destruct (c3_base_fuel _ _ _ Htc _ _ Hl) as (fuel' & l' & [= <-] & Hl').
  by eapply IH.
Qed.

Lemma c3_head_NoDup fuel contracts contract l :
  c3 fuel contract contracts = Ok l → head l = Some contract ∧ NoDup l.
Proof.
  destruct fuel as [|fuel]; [done|]. intros Hl.
  pose proof (c3_acyclic _ _ _ _ Hl) as Hacyclic.
  pose proof (c3_elem _ _ _ _ Hl) as Helem. revert Hl.
  destruct (contracts_get contracts contract) as [c|] eqn:Hc.
  - destruct (decide (Contract.base_contracts c = [])) as [Hb|Hb].
    + rewrite c3_S, Hc, decide_True by done. intros [= <-].
      split; [done|]. apply NoDup_singleton.
    + intros (lins & merged & Hlins & Hmerged & ->)%(c3_node_inv _ _ _ c); [|done..].
      split; [done|]. constructor; [|by apply c3_merge_Ok in Hmerged as [? _]].
      rewrite (c3_merged_elem _ _ _ _ _ _ Hc Hlins (c3_elem fuel contracts) Hmerged).
      done.
  - rewrite c3_S, Hc. intros [= <-]. split; [done|]. apply NoDup_singleton.
Qed.

(** ** [find_base]: the first match in linearization order *)

Lemma first_base_Some contracts predicate lin b :
  first_base contracts predicate lin = Some b ↔ first_at contracts predicate lin b.
Proof.
  unfold first_at, holds_at. induction lin as [|x lin IH]; simpl.
  - split; [done|]. intros (pre & post & Heq & _). by destruct pre.
  - destruct (contracts_get contracts x) as [cx|] eqn:Hx;
      [destruct (predicate x cx) eqn:Hp|].
    + split.
      * intros [= <-]. exists [], lin. eauto.
      * intros ([|y pre] & post & [= <- Heq] & _ & Hpre); [done|].
        inversion Hpre as [|? ? Hy]; subst. destruct Hy. eauto.
    + rewrite IH. split.
      * intros (pre & post & -> & Hb & Hpre). exists (x :: pre), post.
        split; [done|]. split; [done|]. constructor; [|done].
        intros (? & ? & ?). congruence.
      * intros ([|y pre] & post & [= <- Heq] & Hb & Hpre).
        { destruct Hb as (? & ? & ?). congruence. }
        inversion Hpre; subst. eauto.
    + rewrite IH. split.
      * intros (pre & post & -> & Hb & Hpre). exists (x :: pre), post.
        split; [done|]. split; [done|]. constructor; [|done].
        intros (? & ? & ?). congruence.
      * intros ([|y pre] & post & [= <- Heq] & Hb & Hpre).
        { destruct Hb as (? & ? & ?). congruence. }
        inversion Hpre; subst. eauto.
Qed.

Lemma first_base_None contracts predicate lin :
  first_base contracts predicate lin = None ↔
  Forall (λ x, ¬ holds_at contracts predicate x) lin.
Proof.
  unfold holds_at. induction lin as [|x lin IH]; simpl; [by split|].
  rewrite Forall_cons.
  destruct (contracts_get contracts x) as [cx|] eqn:Hx;
    [destruct (predicate x cx) eqn:Hp|].
  - split; [done|]. intros [Hno _]. destruct Hno. eauto.
  - rewrite IH. split; [|by intros [_ ?]]. intros ?. split; [|done].
    intros (? & ? & ?). congruence.
  - rewrite IH. split; [|by intros [_ ?]]. intros ?. split; [|done].
    intros (? & ? & ?). congruence.
Qed.

Lemma first_base_elem_of contracts predicate lin b :
  first_base contracts predicate lin = Some b →
  b ∈ lin ∧ holds_at contracts predicate b.
Proof.
  intros (pre & post & -> & Hb & _)%first_base_Some. split; [|done].
  apply elem_of_app. right. by left.
Qed.

(** ** What [resolve] computes on each kind of receiver *)

Lemma resolve_this_eq contracts callee call ctx :
  Call.contract call = "this" →
  contracts_get contracts (Call.context callee) = Some ctx →
  resolve contracts callee call =
  Ok ((λ b, Call.__init__ b (Call.function call) (Some (Call.context callee))) <$>
      first_base contracts (search_function call) (Contract.linearization ctx)).
Proof.
  intros Hthis Hctx. unfold resolve, find_base. rewrite Hthis, Hctx.
  rewrite bool_decide_eq_true_2 by set_solver.
  rewrite bool_decide_eq_false_2 by done. simpl.
  by destruct (first_base _ _ _).
Qed.

Lemma resolve_super_eq contracts callee call c :
  Call.contract call = "super" →
  contracts_get contracts (Call.contract callee) = Some c →
  resolve contracts callee call =
  Ok ((λ b, Call.__init__ b (Call.function call) (Some (Call.context callee))) <$>
      first_base contracts (search_function_super callee call) (Contract.linearization c)).
Proof.
  intros Hsuper Hc. unfold resolve, find_base. rewrite Hsuper, Hc.
  rewrite bool_decide_eq_true_2 by set_solver.
  rewrite bool_decide_eq_true_2 by done. simpl.
  by destruct (first_base _ _ _).
Qed.

Lemma resolve_base_name_eq contracts callee call c anc b :
  Call.contract call ∉ ["this"; "super"] →
  contracts_get contracts (Call.contract callee) = Some c →
  Call.contract call ∈ Contract.linearization c →
  contracts_get contracts (Call.contract call) = Some anc →
  first_base contracts (search_function call) (Contract.linearization anc) = Some b →
  resolve contracts callee call =
  Ok (Some (Call.__init__ b (Call.function call) (Some (Call.context callee)))).
Proof.
  intros Hcall Hc Hin Hanc Hb. unfold resolve, find_base.
  rewrite bool_decide_eq_false_2 by done. rewrite Hc. simpl.
  rewrite bool_decide_eq_true_2 by done. rewrite Hanc. simpl. by rewrite Hb.
Qed.

(** Whatever the path, the function of the target is the function of the
    call as it was recorded. *)
Lemma resolve_function contracts callee call target :
  resolve contracts callee call = Ok (Some target) →
  Call.function target = Call.function call.
Proof.
  unfold resolve. case_bool_decide.
  - intros ([b|] & _ & Heq)%bind_Ok_inv; by simplify_eq.
  - intros (c & _ & ([b|] & _ & Heq)%bind_Ok_inv)%bind_Ok_inv; [by simplify_eq|].
    apply bind_Ok_inv in Heq as ([base_name|] & _ & Heq); [|done].
    apply bind_Ok_inv in Heq as (base & _ & Heq).
    apply bind_Ok_inv in Heq as (contract_to & _ & Heq).
    destruct (dict_in _ _ _); [by simplify_eq|].
    apply bind_Ok_inv in Heq as (? & _ & Heq).
    apply bind_Ok_inv in Heq as (? & _ & Heq).
    apply bind_Ok_inv in Heq as (? & _ & Heq).
    apply bind_Ok_inv in Heq as (? & _ & Heq).
    by simplify_eq.
Qed.

(** ** The traversal: one resolved call *)

Lemma walk_one_Ok contracts callee call st st' :
  walk_one contracts callee call st = Ok st' →
  (resolve contracts callee call = Ok None ∧ st' = st) ∨
  ∃ target, resolve contracts callee call = Ok (Some target) ∧ st' = push callee target st.
Proof.
  unfold walk_one. intros ([target|] & Hres & Heq)%bind_Ok_inv; simplify_eq; eauto.
Qed.

(** A property kept by every resolved call of the body is kept by the inner
    loop. *)
Lemma walk_body_ind (P : walk_state → Prop) contracts callee body st st' :
  (∀ st call target, call ∈ body →
     resolve contracts callee call = Ok (Some target) → P st → P (push callee target st)) →
  P st → walk_body contracts callee body st = Ok st' → P st'.
Proof.
  revert st. induction body as [|call body IH]; intros st Hpush HP; simpl.
  - by intros [= <-].
  - intros (st1 & Hone & Hrest)%bind_Ok_inv.
    eapply IH; [| |exact Hrest].
    + intros. eapply Hpush; [by right|done..].
    + apply walk_one_Ok in Hone as [[_ ->]|(target & Hres & ->)]; [done|].
      eapply Hpush; [by left|done..].
Qed.

Lemma walk_step_ind (P : walk_state → Prop) contracts ignore_list callee st st' :
  (∀ c body st call target,
     call_in callee ignore_list = false →
     contracts_get contracts (Call.contract callee) = Some c →
     functions_get c (Call.function callee) = Some body →
     call ∈ body →
     resolve contracts callee call = Ok (Some target) → P st → P (push callee target st)) →
  P (visit callee st) →
  walk_step contracts ignore_list callee st = Ok st' → P st'.
Proof.
  intros Hpush HP. unfold walk_step. fold (visit callee st).
  destruct (call_in callee ignore_list) eqn:Hig; [by intros [= <-]|].
  intros (c & Hc & (body & Hbody & Hwalk)%bind_Ok_inv)%bind_Ok_inv.
  destruct (contracts_get _ _) as [c'|] eqn:Hc'; simplify_eq/=.
  destruct (functions_get _ _) as [body'|] eqn:Hbody'; simplify_eq/=.
  eapply walk_body_ind; [|done..]. intros. by eapply Hpush.
Qed.

(** The same for the outer loop, with a property that may mention how far
    the iterator got; the run ends with the iterator past the end. *)
Lemma walk_loop_ind (P : nat → walk_state → Prop) contracts ignore_list fuel i st st' :
  (∀ i st callee st', P i st → calls st !! i = Some callee →
     walk_step contracts ignore_list callee st = Ok st' → P (S i) st') →
  P i st →
  walk_loop fuel contracts ignore_list i st = Ok st' →
  ∃ i', P i' st' ∧ calls st' !! i' = None.
Proof.
  intros Hstep. revert i st. induction fuel as [|fuel IH]; intros i st HP; simpl; [done|].
  destruct (calls st !! i) as [callee|] eqn:Hi.
  - intros (st1 & Hst1 & Hloop)%bind_Ok_inv. eapply IH; [|done]. by eapply Hstep.
  - intros [= <-]. eauto.
Qed.

(** ** The traversal: sets and dictionaries of sets *)

Lemma Call_eq_refl (c : Call.t) : Call.__eq__ c c = true.
Proof. by apply Call_eq_true. Qed.

Lemma call_set_add_mono x s y : y ∈ s → y ∈ call_set_add x s.
Proof. unfold call_set_add. destruct (call_in x s); set_solver. Qed.

Lemma call_set_add_has x s : call_in x (call_set_add x s) = true.
Proof.
  unfold call_set_add. destruct (call_in x s) eqn:E; [done|].
  apply call_in_true. rewrite fmap_app. set_solver.
Qed.

Lemma nodes_add_mono k x (nodes : gmap string (list Call.t)) k' ns y :
  nodes !! k' = Some ns → call_in y ns = true →
  ∃ ns', nodes_add k x nodes !! k' = Some ns' ∧ call_in y ns' = true.
Proof.
  intros Hk' Hy. unfold nodes_add. destruct (decide (k = k')) as [->|Hne].
  - rewrite lookup_insert_eq, Hk'. simpl. eexists. split; [done|].
    apply call_in_true. apply call_in_true in Hy.
    apply list_elem_of_fmap in Hy as (z & -> & Hz).
    apply list_elem_of_fmap. exists z. split; [done|]. by apply call_set_add_mono.
  - rewrite lookup_insert_ne by done. eauto.
Qed.

Lemma nodes_add_has k x (nodes : gmap string (list Call.t)) :
  ∃ ns', nodes_add k x nodes !! k = Some ns' ∧ call_in x ns' = true.
Proof.
  unfold nodes_add. rewrite lookup_insert_eq. eexists. split; [done|].
  apply call_set_add_has.
Qed.

Lemma edge_set_add_elem x s y : y ∈ edge_set_add x s → y = x ∨ y ∈ s.
Proof. unfold edge_set_add. destruct (edge_in x s); set_solver. Qed.

Lemma edge_set_add_mono x s y : y ∈ s → y ∈ edge_set_add x s.
Proof. unfold edge_set_add. destruct (edge_in x s); set_solver. Qed.

Lemma edge_set_add_has x s :
  ∃ y, y ∈ edge_set_add x s ∧ Edge.__eq__ x y = true.
Proof.
  unfold edge_set_add. destruct (edge_in x s) eqn:E.
  - apply existsb_exists in E as (y & Hy & Heq). exists y.
    split; [by apply list_elem_of_In|done].
  - exists x. split; [set_solver|]. unfold Edge.__eq__. by rewrite !Call_eq_refl.
Qed.

Lemma edges_add_elem k e (edges : gmap string (list Edge.t)) k' es' e' :
  edges_add k e edges !! k' = Some es' → e' ∈ es' →
  e' = e ∨ ∃ es, edges !! k' = Some es ∧ e' ∈ es.
Proof.
  unfold edges_add. destruct (decide (k = k')) as [->|Hne].
  - rewrite lookup_insert_eq. intros [= <-] [->|Hin]%edge_set_add_elem; [by left|].
    right. destruct (edges !! k') as [es|]; simpl in *; [eauto|].
    by apply not_elem_of_nil in Hin.
  - rewrite lookup_insert_ne by done. eauto.
Qed.

Lemma edges_add_mono k e (edges : gmap string (list Edge.t)) k' es e' :
  edges !! k' = Some es → e' ∈ es →
  ∃ es', edges_add k e edges !! k' = Some es' ∧ e' ∈ es'.
Proof.
  intros Hk' He'. unfold edges_add. destruct (decide (k = k')) as [->|Hne].
  - rewrite lookup_insert_eq, Hk'. simpl. eexists. split; [done|].
    by apply edge_set_add_mono.
  - rewrite lookup_insert_ne by done. eauto.
Qed.

Lemma edges_add_has k e (edges : gmap string (list Edge.t)) :
  ∃ es' e', edges_add k e edges !! k = Some es' ∧ e' ∈ es' ∧ Edge.__eq__ e e' = true.
Proof.
  unfold edges_add. rewrite lookup_insert_eq.
  destruct (edge_set_add_has e (default [] (edges !! k))) as (y & Hy & Heq). eauto.
Qed.

(** ** The traversal: the finite universe of targets *)

Lemma getitem_Ok {A} (o : option A) a : getitem o = Ok a ↔ o = Some a.
Proof. destruct o; simpl; split; congruence. Qed.

Lemma elem_of_universe contracts n f :
  n ∈ known_names contracts → f ∈ called_functions contracts →
  (n, f) ∈ universe contracts.
Proof.
  intros Hn Hf. unfold universe. apply list_elem_of_bind. exists n. split; [|done].
  apply list_elem_of_bind. exists f. split; [|done]. by left.
Qed.

Lemma registry_values contracts name c :
  contracts_get contracts name = Some c → c ∈ contracts.*2.
Proof.
  intros Hc%contracts_get_elem_of. apply list_elem_of_fmap. by exists (name, c).
Qed.

Lemma linearization_known contracts name c b :
  contracts_get contracts name = Some c → b ∈ Contract.linearization c →
  b ∈ known_names contracts.
Proof.
  intros Hc%registry_values Hb. unfold known_names. apply list_elem_of_bind.
  exists c. split; [|done]. apply elem_of_app. by left.
Qed.

Lemma state_user_var_known contracts name c var ty :
  contracts_get contracts name = Some c → Contract.state_user_vars c !! var = Some ty →
  ty ∈ known_names contracts.
Proof.
  intros Hc%registry_values Hty. unfold known_names. apply list_elem_of_bind.
  exists c. split; [|done]. apply elem_of_app. right. apply elem_of_app. left.
  apply list_elem_of_fmap. exists (var, ty). split; [done|].
  by apply elem_of_map_to_list.
Qed.

Lemma usingfor_known contracts name c ty lib :
  contracts_get contracts name = Some c → Contract.usingfors c !! ty = Some lib →
  lib ∈ known_names contracts.
Proof.
  intros Hc%registry_values Hlib. unfold known_names. apply list_elem_of_bind.
  exists c. split; [|done]. apply elem_of_app. right. apply elem_of_app. right.
  apply list_elem_of_fmap. exists (ty, lib). split; [done|].
  by apply elem_of_map_to_list.
Qed.

Lemma called_function_known contracts name c f body call :
  contracts_get contracts name = Some c → functions_get c f = Some body → call ∈ body →
  Call.function call ∈ called_functions contracts.
Proof.
  intros Hc%registry_values Hbody%functions_get_elem_of Hcall.
  unfold called_functions. apply list_elem_of_bind. exists c. split; [|done].
  apply list_elem_of_bind. exists body. split.
  - apply list_elem_of_fmap. by exists call.
  - apply list_elem_of_fmap. by exists (f, body).
Qed.

Lemma find_base_Ok contracts name p r :
  find_base contracts name p = Ok r →
  ∃ c, contracts_get contracts name = Some c ∧
       r = first_base contracts p (Contract.linearization c).
Proof.
  unfold find_base. intros (c & Hc%getitem_Ok & [= <-])%bind_Ok_inv. eauto.
Qed.

Lemma find_base_known contracts name p b :
  find_base contracts name p = Ok (Some b) → b ∈ known_names contracts.
Proof.
  intros (c & Hc & Hb)%find_base_Ok. symmetry in Hb.
  apply first_base_elem_of in Hb as [Hb _]. by eapply linearization_known.
Qed.

Lemma resolve_contract_known contracts callee call target :
  resolve contracts callee call = Ok (Some target) →
  Call.contract target ∈ known_names contracts.
Proof.
  unfold resolve. case_bool_decide.
  - intros ([b|] & Hfb & Heq)%bind_Ok_inv; [|done]. simplify_eq/=.
    destruct (bool_decide (Call.contract call = "super")); by eapply find_base_known.
  - intros (c & _ & ([b|] & Hfb & Heq)%bind_Ok_inv)%bind_Ok_inv.
    { simplify_eq/=. destruct (bool_decide (Call.contract call ∈ _)); [|done].
      by eapply find_base_known. }
    apply bind_Ok_inv in Heq as ([base_name|] & _ & Heq); [|done].
    apply bind_Ok_inv in Heq as (base & Hbase%getitem_Ok & Heq).
    apply bind_Ok_inv in Heq as (contract_to & Hto%getitem_Ok & Heq).
    destruct (dict_in _ _ _).
    { simplify_eq/=. by eapply state_user_var_known. }
    apply bind_Ok_inv in Heq as (? & _ & Heq).
    apply bind_Ok_inv in Heq as (u & _ & Heq).
    apply bind_Ok_inv in Heq as (lib & Hlib%getitem_Ok & Heq).
    apply bind_Ok_inv in Heq as (contract_to' & Hto'%getitem_Ok & Heq).
    simplify_eq/=. by eapply usingfor_known.
Qed.

Lemma resolve_target_known contracts callee c body call target :
  contracts_get contracts (Call.contract callee) = Some c →
  functions_get c (Call.function callee) = Some body →
  call ∈ body →
  resolve contracts callee call = Ok (Some target) →
  call_key target ∈ universe contracts.
Proof.
  intros Hc Hbody Hcall Hres. apply elem_of_universe.
  - by eapply resolve_contract_known.
  - rewrite (resolve_function _ _ _ _ Hres). by eapply called_function_known.
Qed.

(** ** The traversal: its invariant *)

Lemma walk_inv_init contracts ignore_list entry :
  walk_inv contracts ignore_list entry 0 (walk_init entry).
Proof.
  split; simpl.
  - lia.
  - apply NoDup_singleton.
  - intros k ->%list_elem_of_singleton. by left.
  - intros k es e. by rewrite lookup_empty.
  - intros j c ?. lia.
  - intros j c. by rewrite lookup_nil.
Qed.

Lemma walk_inv_visit contracts ignore_list entry i st callee :
  walk_inv contracts ignore_list entry i st →
  calls st !! i = Some callee →
  walk_inv contracts ignore_list entry (S i) (visit callee st).
Proof.
  intros [Hidx Hnodup Hknown Hcallers Hnodes Hincoming] Hi. split; simpl; try done.
  - by apply lookup_lt_Some in Hi.
  - intros j c Hj Hc. destruct (decide (j = i)) as [->|Hne].
    + simplify_eq. apply nodes_add_has.
    + destruct (Hnodes j c) as (ns & Hns & Hin); [lia|done|].
      by eapply nodes_add_mono.
Qed.

Lemma walk_inv_push contracts ignore_list entry i st callee target :
  walk_inv contracts ignore_list entry i st →
  call_in callee ignore_list = false →
  call_key target ∈ universe contracts →
  walk_inv contracts ignore_list entry i (push callee target st).
Proof.
  intros [Hidx Hnodup Hknown Hcallers Hnodes Hincoming] Hig Htarget.
  assert (∀ j c, calls st !! j = Some c → calls (push callee target st) !! j = Some c)
    as Hkeep.
  { intros j c Hj. simpl. destruct (call_in target (calls st)); simpl; [done|].
    by apply lookup_app_l_Some. }
  destruct (edges_add_has (Call.contract callee) (Edge.mk callee target) (edges st))
    as (es' & e' & Hes' & He' & Heq).
  split.
  - simpl. destruct (call_in target (calls st)); simpl; [done|].
    rewrite length_app. lia.
  - simpl. destruct (call_in target (calls st)) eqn:Hin; simpl; [done|].
    rewrite fmap_app. apply NoDup_app. split; [done|]. split; [|apply NoDup_singleton].
    intros k Hk ->%list_elem_of_singleton. by apply call_in_false in Hin.
  - simpl. destruct (call_in target (calls st)); simpl; [done|].
    intros k. rewrite fmap_app, elem_of_app.
    intros [Hk| ->%list_elem_of_singleton]; [by apply Hknown|by right].
  - simpl. intros k es e Hes He.
    destruct (edges_add_elem _ _ _ _ _ _ Hes He) as [->|(es0 & Hes0 & He0)]; [done|].
    by eapply Hcallers.
  - simpl. intros j c Hj Hc. destruct (call_in target (calls st)); simpl in *.
    + by eapply Hnodes.
    + apply lookup_app_Some in Hc as [Hc|[Hlen _]]; [by eapply Hnodes|lia].
  - intros j c Hc. simpl in Hc.
    assert (calls st !! S j = Some c ∨ call_key c = call_key target) as [Hold|Hnew].
    { destruct (call_in target (calls st)); simpl in Hc; [by left|].
      apply lookup_app_Some in Hc as [Hc|[_ Hc]]; [by left|right].
      apply list_lookup_singleton_Some in Hc as [_ <-]. done. }
    + destruct (Hincoming j c Hold) as (k & es & e & Hes & He & Hkey).
      destruct (edges_add_mono (Call.contract callee) (Edge.mk callee target) _ _ _ _
                  Hes He) as (es1 & Hes1 & He1).
      exists k, es1, e. done.
    + exists (Call.contract callee), es', e'. split; [done|]. split; [done|].
      unfold Edge.__eq__ in Heq. apply andb_true_iff in Heq as [_ Heq].
      apply Call_eq_true in Heq. simpl in Heq. congruence.
Qed.

Lemma walk_inv_step contracts ignore_list entry i st callee st' :
  walk_inv contracts ignore_list entry i st →
  calls st !! i = Some callee →
  walk_step contracts ignore_list callee st = Ok st' →
  walk_inv contracts ignore_list entry (S i) st'.
Proof.
  intros Hinv Hi. apply walk_step_ind.
  - intros c body st0 call target Hig Hc Hbody Hcall Hres Hinv0.
    apply walk_inv_push; [done..|]. by eapply resolve_target_known.
  - by apply walk_inv_visit.
Qed.

Lemma walk_inv_loop contracts ignore_list entry fuel i st st' :
  walk_inv contracts ignore_list entry i st →
  walk_loop fuel contracts ignore_list i st = Ok st' →
  walk_inv contracts ignore_list entry (length (calls st')) st'.
Proof.
  intros Hinv Hloop.
  destruct (walk_loop_ind (walk_inv contracts ignore_list entry) _ _ _ _ _ _
              (walk_inv_step contracts ignore_list entry) Hinv Hloop)
    as (i' & Hinv' & Hend).
  apply lookup_ge_None in Hend. pose proof (inv_index _ _ _ _ _ Hinv').
  by replace (length (calls st')) with i' by lia.
Qed.

(** ** The traversal: termination *)

Lemma bind_terminates {A B} (m : result A) (f : A → result B) :
  m ≠ OutOfFuel → (∀ a, m = Ok a → f a ≠ OutOfFuel) → m ≫= f ≠ OutOfFuel.
Proof. destruct m; simpl; [|done..]. intros _ Hf. by apply Hf. Qed.

Lemma getitem_terminates {A} (o : option A) : getitem o ≠ OutOfFuel.
Proof. by destruct o. Qed.

Lemma find_base_terminates contracts name p : find_base contracts name p ≠ OutOfFuel.
Proof.
  unfold find_base. apply bind_terminates; [apply getitem_terminates|done].
Qed.

Ltac terminates :=
  repeat first
    [ done
    | apply find_base_terminates
    | apply getitem_terminates
    | apply bind_terminates; [|intros ? _]
    | case_match ].

Lemma resolve_terminates contracts callee call :
  resolve contracts callee call ≠ OutOfFuel.
Proof. unfold resolve. terminates. Qed.

Lemma walk_one_terminates contracts callee call st :
  walk_one contracts callee call st ≠ OutOfFuel.
Proof.
  unfold walk_one. apply bind_terminates; [apply resolve_terminates|].
  intros [?|] _; done.
Qed.

Lemma walk_body_terminates contracts callee body st :
  walk_body contracts callee body st ≠ OutOfFuel.
Proof.
  revert st. induction body as [|call body IH]; intros st; simpl; [done|].
  apply bind_terminates; [apply walk_one_terminates|]. intros st' _. apply IH.
Qed.

Lemma walk_step_terminates contracts ignore_list callee st :
  walk_step contracts ignore_list callee st ≠ OutOfFuel.
Proof.
  unfold walk_step. case_match; [done|].
  apply bind_terminates; [apply getitem_terminates|]. intros c _.
  apply bind_terminates; [apply getitem_terminates|]. intros body _.
  apply walk_body_terminates.
Qed.

Lemma walk_loop_S fuel contracts ignore_list i st :
  walk_loop (S fuel) contracts ignore_list i st =
  match calls st !! i with
  | None => Ok st
  | Some callee =>
      st' ← walk_step contracts ignore_list callee st;
      walk_loop fuel contracts ignore_list (S i) st'
  end.
Proof. done. Qed.

Lemma walk_loop_mono fuel contracts ignore_list i st r :
  walk_loop fuel contracts ignore_list i st = r → r ≠ OutOfFuel →
  walk_loop (S fuel) contracts ignore_list i st = r.
Proof.
  revert i st r. induction fuel as [|fuel IH]; intros i st r.
  { simpl. by intros <-. }
  rewrite (walk_loop_S (S fuel)), walk_loop_S.
  destruct (calls st !! i) as [callee|]; [|done].
  destruct (walk_step contracts ignore_list callee st) as [st'| |]; simpl; [|done..].
  apply IH.
Qed.

Lemma walk_loop_mono_le fuel fuel' contracts ignore_list i st r :
  (fuel ≤ fuel')%nat →
  walk_loop fuel contracts ignore_list i st = r → r ≠ OutOfFuel →
  walk_loop fuel' contracts ignore_list i st = r.
Proof. induction 1; [done|]. intros. apply walk_loop_mono; auto. Qed.

Lemma walk_inv_length contracts ignore_list entry i st :
  walk_inv contracts ignore_list entry i st →
  (length (calls st) ≤ S (length (universe contracts)))%nat.
Proof.
  intros Hinv. rewrite <- (length_fmap call_key).
  change (S (length (universe contracts)))
    with (length (call_key entry :: universe contracts)).
  apply submseteq_length, NoDup_submseteq.
  - by eapply inv_nodup.
  - by eapply inv_known.
Qed.

Lemma walk_loop_terminates contracts ignore_list entry fuel i st :
  walk_inv contracts ignore_list entry i st →
  (walk_bound contracts ≤ fuel + i)%nat →
  walk_loop fuel contracts ignore_list i st ≠ OutOfFuel.
Proof.
  unfold walk_bound. revert i st. induction fuel as [|fuel IH]; intros i st Hinv Hfuel.
  - pose proof (walk_inv_length _ _ _ _ _ Hinv).
    pose proof (inv_index _ _ _ _ _ Hinv). lia.
  - rewrite walk_loop_S. destruct (calls st !! i) as [callee|] eqn:Hi; [|done].
    apply bind_terminates; [apply walk_step_terminates|].
    intros st' Hstep. apply IH; [by eapply walk_inv_step|lia].
Qed.

(** ** The claims about the classes and about one resolved call *)

Lemma Ok_fmap_Some {A B} (f : A → B) (o : option A) (t : B) :
  Ok (f <$> o) = Ok (Some t) ↔ ∃ b, o = Some b ∧ t = f b.
Proof.
  destruct o as [a|]; simpl; split.
  - intros [= <-]. eauto.
  - by intros (b & [= <-] & ->).
  - done.
  - by intros (b & ? & _).
Qed.

Lemma Ok_fmap_None {A B} (f : A → B) (o : option A) :
  Ok (f <$> o) = Ok None ↔ o = None.
Proof. destruct o; simpl; split; congruence. Qed.

Lemma holds_at_search_function contracts call x :
  holds_at contracts (search_function call) x ↔
  defined_in contracts (Call.function call) x.
Proof. done. Qed.

Lemma holds_at_search_function_super contracts callee call x :
  holds_at contracts (search_function_super callee call) x ↔
  x ≠ Call.contract callee ∧ defined_in contracts (Call.function call) x.
Proof.
  unfold holds_at, defined_in, search_function_super. split.
  - intros (base & Hbase & [Hne%negb_true_iff%bool_decide_eq_false ?]%andb_true_iff).
    eauto.
  - intros [Hne (base & Hbase & Hdef)]. exists base. split; [done|].
    apply andb_true_iff. split; [|done].
    by apply negb_true_iff, bool_decide_eq_false.
Qed.

Lemma first_at_iff contracts p (Q : string → Prop) lin b :
  (∀ x, holds_at contracts p x ↔ Q x) →
  first_at contracts p lin b ↔
  ∃ pre post, lin = pre ++ b :: post ∧ Q b ∧ ∀ x, x ∈ pre → ¬ Q x.
Proof.
  intros HQ. unfold first_at. split.
  - intros (pre & post & -> & Hb & Hpre). exists pre, post.
    split; [done|]. split; [by apply HQ|].
    rewrite Forall_forall in Hpre. intros x Hx HQx. apply (Hpre x Hx). by apply HQ.
  - intros (pre & post & -> & Hb & Hpre). exists pre, post.
    split; [done|]. split; [by apply HQ|].
    apply Forall_forall. intros x Hx Hh. apply (Hpre x Hx). by apply HQ.
Qed.

Lemma Forall_not_holds_at contracts p (Q : string → Prop) lin :
  (∀ x, holds_at contracts p x ↔ Q x) →
  Forall (λ x, ¬ holds_at contracts p x) lin ↔ ∀ x, x ∈ lin → ¬ Q x.
Proof.
  intros HQ. rewrite Forall_forall. split; intros H x Hx Hh; apply (H x Hx); by apply HQ.
Qed.

(** C9, as amended. Two [Function]s are equal exactly when name, parameter
    count and kind all match; the hash is the hash of the name alone, so
    equal functions have equal hashes and functions of the same name have
    the same hash whatever their parameter count and kind. *)
Theorem Function_identity (hash_str : string → Z) (f g : Function.t) :
  (Function.__eq__ f g = true ↔
     Function.name f = Function.name g ∧
     Function.params f = Function.params g ∧
     Function.type f = Function.type g) ∧
  (Function.__eq__ f g = true →
     Function.__hash__ hash_str f = Function.__hash__ hash_str g) ∧
  (Function.name f = Function.name g →
     Function.__hash__ hash_str f = Function.__hash__ hash_str g).
Proof.
  split; [|split].
  - rewrite Function_eq_true. split; [by intros ->|].
    destruct f, g; simpl. by intros (-> & -> & ->).
  - by intros ->%Function_eq_true.
  - unfold Function.__hash__. by intros ->.
Qed.

(** C9 as stated fails: two overloads that are not equal, differing in
    parameter count and in kind, have the same hash under every hash of
    strings, so the hash is not computed from the three fields. *)
Lemma Function_hash_ignores_params_and_kind :
  Function.__eq__ (Function.mk "transfer" 1 Function.Function)
                  (Function.mk "transfer" 3 Function.Event) = false ∧
  ∀ hash_str : string → Z,
    Function.__hash__ hash_str (Function.mk "transfer" 1 Function.Function) =
    Function.__hash__ hash_str (Function.mk "transfer" 3 Function.Event).
Proof. split; [reflexivity|]. intros hash_str. reflexivity. Qed.

(** C1, against the code. On the sample with a using-for attachment the
    call [bal.add(1)] is redirected to the library [L], whose [add] takes two
    parameters, but the target keeps the one-parameter identity of the call
    site; [L] defines no such function and the traversal stops on a
    [KeyError] when it reaches the target. *)
Theorem usingfor_call_keeps_parameter_count :
  resolve ex_usingfor (Call.__init__ "W" (fn "inc" 0) None) (raw_call "bal" (fn "add" 1)) =
    Ok (Some (Call.mk "L" (fn "add" 1) "W")) ∧
  defined_in ex_usingfor (fn "add" 2) "L" ∧
  ¬ defined_in ex_usingfor (fn "add" 1) "L" ∧
  ∀ fuel, walk_call (2 + fuel) ex_usingfor (Call.__init__ "W" (fn "inc" 0) None) [] =
          Raise KeyError.
Proof.
  split; [by vm_compute|]. split; [|split].
  - eexists. split; by vm_compute.
  - intros (base & Hbase & Hdef). vm_compute in Hbase. injection Hbase as <-.
    by vm_compute in Hdef.
  - intros fuel. by vm_compute.
Qed.

Lemma defined_in_has_function contracts f b :
  defined_in contracts f b ↔ has_function contracts f b.
Proof.
  unfold defined_in, has_function. split.
  - intros (base & Hbase & (body & Hin)%defines_true). by exists base, f, body.
  - intros (base & g & body & Hbase & Hin & Hn & Hp & Ht). exists base. split; [done|].
    apply defines_true. exists body.
    replace f with g; [done|]. destruct f, g; cbn in *; congruence.
Qed.

Lemma resolve_super_first_defined contracts callee call c :
  Call.contract call = "super" →
  contracts_get contracts (Call.contract callee) = Some c →
  (∀ target, resolve contracts callee call = Ok (Some target) ↔
     ∃ pre b post,
       Contract.linearization c = pre ++ b :: post ∧
       (b ≠ Call.contract callee ∧ defined_in contracts (Call.function call) b) ∧
       (∀ x, x ∈ pre →
          ¬ (x ≠ Call.contract callee ∧ defined_in contracts (Call.function call) x)) ∧
       target = Call.__init__ b (Call.function call) (Some (Call.context callee))) ∧
  (resolve contracts callee call = Ok None ↔
     ∀ x, x ∈ Contract.linearization c →
       ¬ (x ≠ Call.contract callee ∧ defined_in contracts (Call.function call) x)).
Proof.
  intros Hsuper Hc. rewrite (resolve_super_eq _ _ _ _ Hsuper Hc). split.
  - intros target. rewrite Ok_fmap_Some. split.
    + intros (b & Hb%first_base_Some & ->).
      apply (first_at_iff _ _ _ _ _ (holds_at_search_function_super _ _ _)) in Hb
        as (pre & post & Hlin & Hdef & Hpre).
      exists pre, b, post. done.
    + intros (pre & b & post & Hlin & Hdef & Hpre & ->). exists b. split; [|done].
      apply first_base_Some.
      apply (first_at_iff _ _ _ _ _ (holds_at_search_function_super _ _ _)).
      by exists pre, post.
  - rewrite Ok_fmap_None, first_base_None.
    apply (Forall_not_holds_at _ _ _ _ (holds_at_search_function_super _ _ _)).
Qed.

(** C2. A [super] call is resolved in the linearization of the callee's
    contract, skipping that contract itself: the target is the first entry
    other than the callee's contract that is a modeled contract whose
    function map has a key with the name, the parameter count and the kind
    of the called function; the call is dropped when there is none. *)
Theorem super_resolves_to_first_proper_base contracts callee call c :
  Call.contract call = "super" →
  contracts_get contracts (Call.contract callee) = Some c →
  (∀ target, resolve contracts callee call = Ok (Some target) ↔
     ∃ pre b post,
       Contract.linearization c = pre ++ b :: post ∧
       (b ≠ Call.contract callee ∧ has_function contracts (Call.function call) b) ∧
       (∀ x, x ∈ pre →
          ¬ (x ≠ Call.contract callee ∧ has_function contracts (Call.function call) x)) ∧
       target = Call.__init__ b (Call.function call) (Some (Call.context callee))) ∧
  (resolve contracts callee call = Ok None ↔
     ∀ x, x ∈ Contract.linearization c →
       ¬ (x ≠ Call.contract callee ∧ has_function contracts (Call.function call) x)).
Proof.
  intros Hsuper Hc.
  destruct (resolve_super_first_defined _ _ _ _ Hsuper Hc) as [Hsome Hnone].
  split.
  - intros target. rewrite Hsome.
    by setoid_rewrite defined_in_has_function.
  - rewrite Hnone. by setoid_rewrite defined_in_has_function.
Qed.

Lemma super_in_chain_resolves_to_B :
  ((∃ c, contracts_get ex_chain "C" = Some c ∧
         Contract.linearization c = ["C"; "B"; "A"]) ∧
   (has_function ex_chain (fn "foo" 0) "C" ∧ has_function ex_chain (fn "foo" 0) "B" ∧
    has_function ex_chain (fn "foo" 0) "A") ∧
   resolve ex_chain (Call.__init__ "C" (fn "foo" 0) None) (raw_call "super" (fn "foo" 0)) =
     Ok (Some (Call.mk "B" (fn "foo" 0) "C"))) ∧
  ((∃ c, contracts_get ex_chain_gap "C" = Some c ∧
         Contract.linearization c = ["C"; "B"; "A"]) ∧
   (has_function ex_chain_gap (fn "foo" 0) "C" ∧
    ¬ has_function ex_chain_gap (fn "foo" 0) "B" ∧
    has_function ex_chain_gap (fn "foo" 0) "A") ∧
   resolve ex_chain_gap (Call.__init__ "C" (fn "foo" 0) None)
       (raw_call "super" (fn "foo" 0)) =
     Ok (Some (Call.mk "A" (fn "foo" 0) "C"))).
Proof.
  assert (∀ contracts name c body,
            contracts_get contracts name = Some c →
            (fn "foo" 0, body) ∈ Contract.functions c →
            has_function contracts (fn "foo" 0) name) as Hhas.
  { intros contracts name c body Hc Hin. by exists c, (fn "foo" 0), body. }
  assert (¬ has_function ex_chain_gap (fn "foo" 0) "B") as HnB.
  { intros (base & g & body & Hbase & Hin & Hn & Hp & Ht).
    vm_compute in Hbase. injection Hbase as <-.
    cbn [Contract.functions] in Hin.
    apply elem_of_cons in Hin as [[= -> _]|Hin]; [discriminate Hp|].
    apply elem_of_cons in Hin as [[= -> _]|Hin]; [discriminate Ht|].
    by apply not_elem_of_nil in Hin. }
  split.
  - assert (∃ c, contracts_get ex_chain "C" = Some c ∧
                 Contract.linearization c = ["C"; "B"; "A"]) as Hc
      by (eexists; split; vm_compute; reflexivity).
    assert (has_function ex_chain (fn "foo" 0) "B") as HB.
    { eapply (Hhas _ _ _ [raw_call "super" (fn "foo" 0)]);
        [vm_compute; reflexivity|apply list_elem_of_here]. }
    split; [exact Hc|]. split.
    { split; [|split; [exact HB|]].
      - eapply (Hhas _ _ _ [raw_call "super" (fn "foo" 0)]);
          [vm_compute; reflexivity|apply list_elem_of_here].
      - eapply (Hhas _ _ _ []); [vm_compute; reflexivity|apply list_elem_of_here]. }
    destruct Hc as (c & Hc & Hlin).
    apply (proj1 (super_resolves_to_first_proper_base ex_chain
                    (Call.__init__ "C" (fn "foo" 0) None)
                    (raw_call "super" (fn "foo" 0)) c eq_refl Hc)).
    exists ["C"], "B", ["A"]. split; [exact Hlin|].
    split; [split; [discriminate|exact HB]|]. split; [|reflexivity].
    intros x Hx [Hne _]. apply Hne. apply list_elem_of_singleton in Hx. exact Hx.
  - assert (∃ c, contracts_get ex_chain_gap "C" = Some c ∧
                 Contract.linearization c = ["C"; "B"; "A"]) as Hc
      by (eexists; split; vm_compute; reflexivity).
    assert (has_function ex_chain_gap (fn "foo" 0) "A") as HA.
    { eapply (Hhas _ _ _ []); [vm_compute; reflexivity|apply list_elem_of_here]. }
    split; [exact Hc|]. split.
    { split; [|split; [exact HnB|exact HA]].
      eapply (Hhas _ _ _ [raw_call "super" (fn "foo" 0)]);
        [vm_compute; reflexivity|apply list_elem_of_here]. }
    destruct Hc as (c & Hc & Hlin).
    apply (proj1 (super_resolves_to_first_proper_base ex_chain_gap
                    (Call.__init__ "C" (fn "foo" 0) None)
                    (raw_call "super" (fn "foo" 0)) c eq_refl Hc)).
    exists ["C"; "B"], "A", []. split; [exact Hlin|].
    split; [split; [discriminate|exact HA]|]. split; [|reflexivity].
    intros x Hx [Hne Hx'].
    apply elem_of_cons in Hx as [->|Hx]; [by apply Hne|].
    apply list_elem_of_singleton in Hx as ->. by apply HnB.
Defined.

Lemma resolve_this_first_defined contracts callee call ctx :
  Call.contract call = "this" →
  contracts_get contracts (Call.context callee) = Some ctx →
  (∀ target, resolve contracts callee call = Ok (Some target) ↔
     ∃ pre b post,
       Contract.linearization ctx = pre ++ b :: post ∧
       defined_in contracts (Call.function call) b ∧
       (∀ x, x ∈ pre → ¬ defined_in contracts (Call.function call) x) ∧
       target = Call.__init__ b (Call.function call) (Some (Call.context callee))) ∧
  (resolve contracts callee call = Ok None ↔
     ∀ x, x ∈ Contract.linearization ctx →
       ¬ defined_in contracts (Call.function call) x).
Proof.
  intros Hthis Hctx. rewrite (resolve_this_eq _ _ _ _ Hthis Hctx). split.
  - intros target. rewrite Ok_fmap_Some. split.
    + intros (b & Hb%first_base_Some & ->).
      apply (first_at_iff _ _ _ _ _ (holds_at_search_function _ _)) in Hb
        as (pre & post & Hlin & Hdef & Hpre).
      exists pre, b, post. done.
    + intros (pre & b & post & Hlin & Hdef & Hpre & ->). exists b. split; [|done].
      apply first_base_Some.
      apply (first_at_iff _ _ _ _ _ (holds_at_search_function _ _)).
      by exists pre, post.
  - rewrite Ok_fmap_None, first_base_None.
    apply (Forall_not_holds_at _ _ _ _ (holds_at_search_function _ _)).
Qed.

(** C3. An internal call ([this]) is resolved in the linearization of the
    callee's context, not of the callee's contract: the target is the first
    entry, from the left, that is a modeled contract whose function map has a
    key with the name, the parameter count and the kind of the called
    function; the call is dropped when there is none. *)
Theorem internal_call_resolves_in_context contracts callee call ctx :
  Call.contract call = "this" →
  contracts_get contracts (Call.context callee) = Some ctx →
  (∀ target, resolve contracts callee call = Ok (Some target) ↔
     ∃ pre b post,
       Contract.linearization ctx = pre ++ b :: post ∧
       has_function contracts (Call.function call) b ∧
       (∀ x, x ∈ pre → ¬ has_function contracts (Call.function call) x) ∧
       target = Call.__init__ b (Call.function call) (Some (Call.context callee))) ∧
  (resolve contracts callee call = Ok None ↔
     ∀ x, x ∈ Contract.linearization ctx →
       ¬ has_function contracts (Call.function call) x).
Proof.
  intros Hthis Hctx.
  destruct (resolve_this_first_defined _ _ _ _ Hthis Hctx) as [Hsome Hnone].
  split.
  - intros target. rewrite Hsome.
    by setoid_rewrite defined_in_has_function.
  - rewrite Hnone. by setoid_rewrite defined_in_has_function.
Qed.

Lemma internal_call_in_derived_context :
  ((∃ ctx, contracts_get ex_derived "Derived" = Some ctx ∧
           Contract.linearization ctx = ["Derived"; "Base"]) ∧
   (has_function ex_derived (fn "g" 0) "Base" ∧
    has_function ex_derived (fn "g" 0) "Derived") ∧
   resolve ex_derived (Call.mk "Base" (fn "f" 0) "Derived") (raw_call "this" (fn "g" 0)) =
     Ok (Some (Call.mk "Derived" (fn "g" 0) "Derived"))) ∧
  ((∃ ctx, contracts_get ex_derived_gap "Derived" = Some ctx ∧
           Contract.linearization ctx = ["Derived"; "Mid"; "Base"]) ∧
   (¬ has_function ex_derived_gap (fn "g" 0) "Derived" ∧
    ¬ has_function ex_derived_gap (fn "g" 0) "Mid" ∧
    has_function ex_derived_gap (fn "g" 0) "Base") ∧
   resolve ex_derived_gap (Call.mk "Base" (fn "f" 0) "Derived")
       (raw_call "this" (fn "g" 0)) =
     Ok (Some (Call.mk "Base" (fn "g" 0) "Derived"))).
Proof.
  assert (∀ contracts name c body,
            contracts_get contracts name = Some c →
            (fn "g" 0, body) ∈ Contract.functions c →
            has_function contracts (fn "g" 0) name) as Hhas.
  { intros contracts name c body Hc Hin. by exists c, (fn "g" 0), body. }
  assert (¬ has_function ex_derived_gap (fn "g" 0) "Derived") as HnD.
  { intros (base & g & body & Hbase & Hin & Hn & Hp & Ht).
    vm_compute in Hbase. injection Hbase as <-.
    cbn [Contract.functions] in Hin.
    apply elem_of_cons in Hin as [[= -> _]|Hin]; [discriminate Hn|].
    by apply not_elem_of_nil in Hin. }
  assert (¬ has_function ex_derived_gap (fn "g" 0) "Mid") as HnM.
  { intros (base & g & body & Hbase & Hin & Hn & Hp & Ht).
    vm_compute in Hbase. injection Hbase as <-.
    cbn [Contract.functions] in Hin.
    apply elem_of_cons in Hin as [[= -> _]|Hin]; [discriminate Hp|].
    by apply not_elem_of_nil in Hin. }
  split.
  - assert (∃ ctx, contracts_get ex_derived "Derived" = Some ctx ∧
                   Contract.linearization ctx = ["Derived"; "Base"]) as Hctx
      by (eexists; split; vm_compute; reflexivity).
    assert (has_function ex_derived (fn "g" 0) "Derived") as HD.
    { eapply (Hhas _ _ _ []); [vm_compute; reflexivity|apply list_elem_of_here]. }
    split; [exact Hctx|]. split.
    { split; [|exact HD].
      eapply (Hhas _ _ _ []); [vm_compute; reflexivity|].
      apply list_elem_of_further, list_elem_of_here. }
    destruct Hctx as (ctx & Hctx & Hlin).
    apply (proj1 (internal_call_resolves_in_context ex_derived
                    (Call.mk "Base" (fn "f" 0) "Derived")
                    (raw_call "this" (fn "g" 0)) ctx eq_refl Hctx)).
    exists [], "Derived", ["Base"]. split; [exact Hlin|]. split; [exact HD|].
    split; [|reflexivity].
    intros x Hx. apply not_elem_of_nil in Hx. destruct Hx.
  - assert (∃ ctx, contracts_get ex_derived_gap "Derived" = Some ctx ∧
                   Contract.linearization ctx = ["Derived"; "Mid"; "Base"]) as Hctx
      by (eexists; split; vm_compute; reflexivity).
    assert (has_function ex_derived_gap (fn "g" 0) "Base") as HB.
    { eapply (Hhas _ _ _ []); [vm_compute; reflexivity|].
      apply list_elem_of_further, list_elem_of_here. }
    split; [exact Hctx|]. split; [split; [exact HnD|split; [exact HnM|exact HB]]|].
    destruct Hctx as (ctx & Hctx & Hlin).
    apply (proj1 (internal_call_resolves_in_context ex_derived_gap
                    (Call.mk "Base" (fn "f" 0) "Derived")
                    (raw_call "this" (fn "g" 0)) ctx eq_refl Hctx)).
    exists ["Derived"; "Mid"], "Base", []. split; [exact Hlin|]. split; [exact HB|].
    split; [|reflexivity].
    intros x Hx Hx'.
    apply elem_of_cons in Hx as [->|Hx]; [by apply HnD|].
    apply list_elem_of_singleton in Hx as ->. by apply HnM.
Defined.

(** C4, as amended. A call whose receiver is the name of a contract of the
    callee's linearization is resolved in that ancestor's linearization: when
    a modeled contract of it defines the function, the target is the first
    such contract, and the target's context is the callee's context, carried
    over unchanged. *)
Theorem base_name_call_keeps_callee_context contracts callee call c anc pre b post :
  Call.contract call ∉ ["this"; "super"] →
  contracts_get contracts (Call.contract callee) = Some c →
  Call.contract call ∈ Contract.linearization c →
  contracts_get contracts (Call.contract call) = Some anc →
  Contract.linearization anc = pre ++ b :: post →
  defined_in contracts (Call.function call) b →
  (∀ x, x ∈ pre → ¬ defined_in contracts (Call.function call) x) →
  ∃ target,
    resolve contracts callee call = Ok (Some target) ∧
    Call.contract target = b ∧
    Call.function target = Call.function call ∧
    (Call.context callee ≠ "" → Call.context target = Call.context callee).
Proof.
  intros Hcall Hc Hin Hanc Hlin Hdef Hpre.
  exists (Call.__init__ b (Call.function call) (Some (Call.context callee))).
  split; [|split; [done|split; [done|]]].
  - eapply resolve_base_name_eq; [done..|]. apply first_base_Some.
    apply (first_at_iff _ _ _ _ _ (holds_at_search_function _ _)).
    by exists pre, post.
  - intros Hctx. simpl. by rewrite bool_decide_eq_false_2.
Qed.

Lemma base_name_call_in_derived_contract :
  ∃ target,
    resolve ex_base_name (Call.__init__ "D" (fn "f" 0) None) (raw_call "B" (fn "g" 0)) =
      Ok (Some target) ∧
    Call.contract target = "B" ∧
    Call.function target = fn "g" 0 ∧
    ("D" ≠ "" → Call.context target = "D").
Proof.
  assert (∃ c, contracts_get ex_base_name "D" = Some c ∧
               Contract.linearization c = ["D"; "B"]) as (c & Hc & Hlin)
    by (eexists; split; vm_compute; reflexivity).
  assert (∃ anc, contracts_get ex_base_name "B" = Some anc ∧
                 Contract.linearization anc = ["B"]) as (anc & Hanc & Hlin')
    by (eexists; split; vm_compute; reflexivity).
  apply (base_name_call_keeps_callee_context ex_base_name
           (Call.__init__ "D" (fn "f" 0) None) (raw_call "B" (fn "g" 0))
           c anc [] "B" []).
  - vm_compute. intros H. inversion H as [|? ? ? H']; subst.
    inversion H' as [|? ? ? H'']; subst. inversion H''.
  - exact Hc.
  - rewrite Hlin. right. left.
  - exact Hanc.
  - exact Hlin'.
  - eexists; split; vm_compute; reflexivity.
  - intros x Hx. apply not_elem_of_nil in Hx. destruct Hx.
Defined.

(** C4 as stated fails: [D.f] calls [B.g()] with the base [B] of [D] named
    as receiver; the call is resolved to [B], and the context of the target
    is [D], the context of the callee, not the ancestor [B]. *)
Lemma base_name_call_context_is_not_the_ancestor :
  (∃ c, contracts_get ex_base_name "D" = Some c ∧ "B" ∈ Contract.linearization c) ∧
  resolve ex_base_name (Call.__init__ "D" (fn "f" 0) None) (raw_call "B" (fn "g" 0)) =
    Ok (Some (Call.mk "B" (fn "g" 0) "D")) ∧
  Call.context (Call.mk "B" (fn "g" 0) "D") ≠ "B".
Proof.
  split; [|split; [by vm_compute|done]].
  eexists. split; [by vm_compute|]. vm_compute. right. left.
Qed.

(** ** The claims about the linearization *)

(** C5. A linearization that [c3] returns for a contract starts with the
    contract, has no duplicates, and holds exactly the contract and its
    transitive bases; a contract without declared bases (or outside the
    model) linearizes to itself alone. *)
Theorem c3_linearization contracts contract :
  (∀ fuel l, c3 fuel contract contracts = Ok l →
     head l = Some contract ∧ NoDup l ∧
     ∀ x, x ∈ l ↔ x = contract ∨ transitive_base contracts contract x) ∧
  ((∀ c, contracts_get contracts contract = Some c → Contract.base_contracts c = []) →
   ∀ fuel, c3 (S fuel) contract contracts = Ok [contract]).
Proof.
  split.
  - intros fuel l Hl. destruct (c3_head_NoDup _ _ _ _ Hl) as [Hhead Hnodup].
    split; [done|]. split; [done|]. by eapply c3_elem.
  - intros Hleaf fuel. rewrite c3_S.
    destruct (contracts_get contracts contract) as [c|]; [|done].
    by rewrite (Hleaf c eq_refl), decide_True.
Qed.

Lemma diamond_linearization :
  c3 3 "D" ex_diamond_raw = Ok ["D"; "C"; "B"; "A"] ∧
  (∀ x, x ∈ ["D"; "C"; "B"; "A"] ↔ x = "D" ∨ transitive_base ex_diamond_raw "D" x) ∧
  (∀ fuel, c3 (S fuel) "A" ex_diamond_raw = Ok ["A"]).
Proof.
  assert (c3 3 "D" ex_diamond_raw = Ok ["D"; "C"; "B"; "A"]) as HD
    by (vm_compute; reflexivity).
  split; [exact HD|]. split.
  - apply (proj1 (c3_linearization ex_diamond_raw "D") 3 _ HD).
  - apply (proj2 (c3_linearization ex_diamond_raw "A")).
    intros c Hc. vm_compute in Hc. injection Hc as <-. reflexivity.
Defined.

(** C6. On the lists [c3] hands to it, all of them non-empty, the merge
    either returns an order or raises [TypeError], and it raises exactly when
    its rounds reach lists of which some is non-empty while every head is in
    the tail of some list. A contract whose merge gets stuck in this way
    makes [c3] raise, and then the linearization loop of the model
    construction returns no registry. *)
Theorem c3_merge_fails_iff_stuck :
  (∀ lst, Forall (λ l, l ≠ []) lst →
     (c3_merge lst = Raise TypeError ↔ reaches_stuck lst) ∧
     (c3_merge lst = Raise TypeError ∨ ∃ out, c3_merge lst = Ok out)) ∧
  (∀ fuel contracts name c lins,
     contracts_get contracts name = Some c →
     Contract.base_contracts c ≠ [] →
     Forall2 (λ b lb, c3 fuel b contracts = Ok lb) (Contract.base_contracts c) lins →
     reaches_stuck (lins ++ [Contract.base_contracts c]) →
     c3 (S fuel) name contracts = Raise TypeError ∧
     ∀ contracts', linearize_contracts (S fuel) contracts ≠ Ok contracts').
Proof.
  assert (∀ lst, Forall (λ l, l ≠ []) lst →
     (c3_merge lst = Raise TypeError ↔ reaches_stuck lst) ∧
     (c3_merge lst = Raise TypeError ∨ ∃ out, c3_merge lst = Ok out)) as Hmerge.
  { intros lst Hne. unfold c3_merge.
    destruct (c3_merge_fuel_total (S (total_length lst)) lst Hne)
      as [[-> Hreach]|(out & -> & Hreach)]; [lia| |].
    - split; [done|by left].
    - split; [done|]. right. by exists out. }
  split; [exact Hmerge|].
  intros fuel contracts name c lins Hc Hbases Hlins Hstuck.
  assert (c3 (S fuel) name contracts = Raise TypeError) as Hraise.
  { rewrite c3_S, Hc, decide_False by done.
    apply mapM_Ok_inv in Hlins as Hmap. rewrite Hmap. simpl.
    assert (Forall (λ l, l ≠ []) (lins ++ [Contract.base_contracts c])) as Hne.
    { apply Forall_app. split; [|by constructor].
      apply Forall_forall. intros l Hl. apply list_elem_of_lookup in Hl as [i Hi].
      destruct (Forall2_lookup_r _ _ _ _ _ Hlins Hi) as (b & _ & Hb).
      apply c3_head_NoDup in Hb as [Hhead _]. by destruct l. }
    destruct (Hmerge _ Hne) as [Hiff _]. by rewrite (proj2 Hiff Hstuck). }
  split; [done|]. intros contracts' Hok.
  apply mapM_Ok_inv in Hok.
  apply contracts_get_elem_of, list_elem_of_lookup in Hc as [i Hi].
  destruct (Forall2_lookup_l _ _ _ _ _ Hok Hi) as (y & _ & Hy).
  cbv beta iota in Hy. by rewrite Hraise in Hy.
Qed.

Lemma contradictory_bases_fail :
  c3_merge [["Y"; "B"; "C"]; ["X"; "C"; "B"]; ["Y"; "X"]] = Raise TypeError ∧
  reaches_stuck [["Y"; "B"; "C"]; ["X"; "C"; "B"]; ["Y"; "X"]] ∧
  c3 3 "Z" ex_contradictory_raw = Raise TypeError ∧
  linearize_contracts 3 ex_contradictory_raw = Raise TypeError.
Proof.
  assert (c3_merge [["Y"; "B"; "C"]; ["X"; "C"; "B"]; ["Y"; "X"]] = Raise TypeError)
    as Hraise by (vm_compute; reflexivity).
  split; [exact Hraise|]. split; [|split; vm_compute; reflexivity].
  apply (proj1 (proj1 (proj1 c3_merge_fails_iff_stuck
                  [["Y"; "B"; "C"]; ["X"; "C"; "B"]; ["Y"; "X"]]
                  ltac:(repeat constructor; discriminate)))).
  exact Hraise.
Defined.

(** ** The claims about the traversal *)

Lemma call_in_key (a b : Call.t) (lst : list Call.t) :
  call_key a = call_key b → call_in a lst = call_in b lst.
Proof.
  intros Hkey. destruct (call_in b lst) eqn:Hb.
  - apply call_in_true. rewrite Hkey. by apply call_in_true.
  - apply call_in_false. rewrite Hkey. by apply call_in_false.
Qed.

Lemma walk_run_inv contracts ignore_list entry fuel st :
  walk_run fuel contracts entry ignore_list = Ok st →
  walk_inv contracts ignore_list entry (length (calls st)) st.
Proof. apply walk_inv_loop, walk_inv_init. Qed.

Lemma walk_run_terminates contracts ignore_list entry fuel :
  (walk_bound contracts ≤ fuel)%nat →
  walk_run fuel contracts entry ignore_list ≠ OutOfFuel.
Proof.
  intros Hfuel. eapply walk_loop_terminates; [apply walk_inv_init|lia].
Qed.

(** C7. With [walk_bound contracts] units of fuel or more the traversal
    ends, on a graph or on an exception, and the fuel beyond the bound does
    not change its outcome; a target joins the worklist only when no call
    with the same contract and function is in it, so the worklist never
    holds two such calls and is never longer than the universe of targets
    plus the entry. *)
Theorem walk_call_terminates contracts entry ignore_list :
  (∃ r, r ≠ OutOfFuel ∧
        ∀ fuel, (walk_bound contracts ≤ fuel)%nat →
                walk_call fuel contracts entry ignore_list = r) ∧
  (∀ callee call_to st,
     calls (push callee call_to st) =
     if call_in call_to (calls st) then calls st else calls st ++ [call_to]) ∧
  (∀ fuel st, walk_run fuel contracts entry ignore_list = Ok st →
     NoDup (call_key <$> calls st) ∧
     (length (calls st) ≤ S (length (universe contracts)))%nat).
Proof.
  split; [|split].
  - exists (walk_call (walk_bound contracts) contracts entry ignore_list). split.
    + unfold walk_call. apply bind_terminates; [|done].
      by apply walk_run_terminates.
    + intros fuel Hfuel. unfold walk_call, walk_run.
      rewrite (walk_loop_mono_le _ _ _ _ _ _ _ Hfuel eq_refl); [done|].
      by apply walk_run_terminates.
  - intros callee call_to st. simpl. by destruct (call_in call_to (calls st)).
  - intros fuel st Hinv%walk_run_inv. split.
    + by eapply inv_nodup.
    + by eapply walk_inv_length.
Qed.

Lemma child_super_call_terminates :
  walk_bound ex_child = 5 ∧
  ∀ fuel, (walk_bound ex_child ≤ fuel)%nat →
    ∃ nodes edges,
      walk_call fuel ex_child (Call.__init__ "Child" (fn "foo" 0) None) [] =
        Ok (nodes, edges) ∧
      nodes !! "Child" = Some [Call.mk "Child" (fn "foo" 0) "Child"] ∧
      nodes !! "Parent" = Some [Call.mk "Parent" (fn "foo" 0) "Child"] ∧
      edges !! "Child" = Some [Edge.mk (Call.mk "Child" (fn "foo" 0) "Child")
                                       (Call.mk "Parent" (fn "foo" 0) "Child")] ∧
      edges !! "Parent" = None.
Proof.
  split; [vm_compute; reflexivity|]. intros fuel Hfuel.
  destruct (proj1 (walk_call_terminates ex_child
                     (Call.__init__ "Child" (fn "foo" 0) None) []))
    as (r & _ & Hall).
  rewrite (Hall fuel Hfuel).
  rewrite <- (Hall 5 ltac:(vm_compute; reflexivity)).
  eexists _, _. split; [vm_compute; reflexivity|].
  repeat split; vm_compute; reflexivity.
Defined.

(** C10. The call list of a dequeued call is looked up in the function map
    of the call's own contract and nowhere else: when that contract is
    modeled and does not define the function, the turn raises [KeyError],
    whatever its linearization holds. This happens for an entry function
    that the requested contract only inherits, which the lookup of the
    command line accepts, and for an external call through a state variable
    whose declared contract type only inherits the function. *)
Theorem missing_function_raises_KeyError :
  (∀ contracts ignore_list fuel i st callee c,
     calls st !! i = Some callee →
     call_in callee ignore_list = false →
     contracts_get contracts (Call.contract callee) = Some c →
     functions_get c (Call.function callee) = None →
     walk_loop (S fuel) contracts ignore_list i st = Raise KeyError) ∧
  (entry_call ex_inherits_only "Derived" "f" None =
     Ok (Call.mk "Derived" (fn "f" 0) "Derived") ∧
   defined_in ex_inherits_only (fn "f" 0) "Base" ∧
   ¬ defined_in ex_inherits_only (fn "f" 0) "Derived" ∧
   ∀ fuel, main (S fuel) ex_inherits_only "Derived" "f" None [] = Raise KeyError) ∧
  (resolve ex_external (Call.__init__ "Main" (fn "f" 0) None) (raw_call "t" (fn "g" 0)) =
     Ok (Some (Call.mk "Sub" (fn "g" 0) "Main")) ∧
   defined_in ex_external (fn "g" 0) "Token" ∧
   ¬ defined_in ex_external (fn "g" 0) "Sub" ∧
   ∀ fuel, main (2 + fuel) ex_external "Main" "f" None [] = Raise KeyError).
Proof.
  split; [|split].
  - intros contracts ignore_list fuel i st callee c Hi Hig Hc Hf.
    rewrite walk_loop_S, Hi. unfold walk_step. rewrite Hig, Hc.
    cbn [getitem mbind result_bind]. by rewrite Hf.
  - split; [by vm_compute|]. split; [eexists; split; by vm_compute|]. split.
    + intros (base & Hbase & Hdef). vm_compute in Hbase. injection Hbase as <-.
      by vm_compute in Hdef.
    + intros fuel. by vm_compute.
  - split; [by vm_compute|]. split; [eexists; split; by vm_compute|]. split.
    + intros (base & Hbase & Hdef). vm_compute in Hbase. injection Hbase as <-.
      by vm_compute in Hdef.
    + intros fuel. by vm_compute.
Qed.

Lemma inherited_entry_raises_KeyError :
  walk_loop 1 ex_inherits_only [] 0 (walk_init (Call.mk "Derived" (fn "f" 0) "Derived")) =
  Raise KeyError.
Proof.
  assert (∃ c, contracts_get ex_inherits_only "Derived" = Some c ∧
               functions_get c (fn "f" 0) = None) as (c & Hc & Hf)
    by (eexists; split; vm_compute; reflexivity).
  apply (proj1 missing_function_raises_KeyError ex_inherits_only [] 0 0
           (walk_init (Call.mk "Derived" (fn "f" 0) "Derived"))
           (Call.mk "Derived" (fn "f" 0) "Derived") c).
  - reflexivity.
  - reflexivity.
  - exact Hc.
  - exact Hf.
Defined.

(** * Further properties of the code *)

(** ** The merge keeps the order of every list *)

Lemma c3_merge_fuel_sublist fuel lst out :
  c3_merge_fuel fuel lst = Ok out → ∀ l, l ∈ lst → l `sublist_of` out.
Proof.
  revert lst out. induction fuel as [|fuel IH]; intros lst out; simpl; [done|].
  destruct (any lst) eqn:Hany; simpl.
  - intros ([c|] & Hfound & Hrest)%bind_Ok_inv; [|done].
    apply bind_Ok_inv in Hrest as (rec & Hrec & Hrest).
    apply bind_Ok_inv in Hrest as (rest & Hrest & [= <-]).
    apply mapM_drop_candidate in Hrec as ->.
    apply find_candidate_Some in Hfound as [_ [Hne _]%not_in_tails_true].
    intros l Hl.
    assert (drop_head c l `sublist_of` rest) as Hsub.
    { destruct (decide (drop_head c l = [])) as [->|Hnil]; [apply sublist_nil_l|].
      apply (IH _ _ Hrest). apply list_elem_of_filter. split; [done|].
      apply list_elem_of_fmap. eauto. }
    rewrite Forall_forall in Hne. specialize (Hne l Hl).
    destruct l as [|h t]; [done|]. simpl in Hsub.
    case_bool_decide; [subst h; by apply sublist_skip|by apply sublist_cons].
  - intros [= <-] l Hl. apply any_false in Hany. rewrite Forall_forall in Hany.
    by rewrite (Hany l Hl).
Qed.

(** X1. The linearization keeps the declared precedence: the stored base
    list of a contract, and the linearization of each of its bases, are
    found in the contract's linearization in the same relative order. *)
Theorem c3_keeps_local_order fuel contracts contract c l :
  c3 fuel contract contracts = Ok l →
  contracts_get contracts contract = Some c →
  Contract.base_contracts c `sublist_of` l ∧
  ∀ b, b ∈ Contract.base_contracts c →
    ∃ lb, c3 fuel b contracts = Ok lb ∧ lb `sublist_of` l.
Proof.
  destruct fuel as [|fuel]; [done|]. intros Hl Hc.
  destruct (decide (Contract.base_contracts c = [])) as [Hb|Hb].
  { rewrite Hb. split; [apply sublist_nil_l|]. by intros b ?%not_elem_of_nil. }
  apply (c3_node_inv _ _ _ c) in Hl as (lins & merged & Hlins & Hmerged & ->); [|done..].
  pose proof (c3_merge_fuel_sublist _ _ _ Hmerged) as Hsub. split.
  - apply sublist_cons, Hsub, elem_of_app. right. by apply list_elem_of_singleton.
  - intros b [i Hi]%list_elem_of_lookup.
    destruct (Forall2_lookup_l _ _ _ _ _ Hlins Hi) as (lb & Hlb & Hcb).
    exists lb. split; [by apply c3_mono|].
    apply sublist_cons, Hsub, elem_of_app. left. by eapply list_elem_of_lookup_2.
Qed.

Lemma diamond_keeps_local_order :
  ["C"; "B"] `sublist_of` ["D"; "C"; "B"; "A"] ∧
  ∀ b, b ∈ ["C"; "B"] →
    ∃ lb, c3 3 b ex_diamond_raw = Ok lb ∧ lb `sublist_of` ["D"; "C"; "B"; "A"].
Proof.
  assert (∃ c, contracts_get ex_diamond_raw "D" = Some c ∧
               Contract.base_contracts c = ["C"; "B"]) as (c & Hc & Hb)
    by (eexists; split; vm_compute; reflexivity).
  rewrite <- Hb.
  apply (c3_keeps_local_order 3 ex_diamond_raw "D" c ["D"; "C"; "B"; "A"]).
  - vm_compute. reflexivity.
  - exact Hc.
Defined.

(** ** Cyclic and acyclic inheritance *)

Lemma c3_merge_input_nonempty fuel contracts bases lins :
  bases ≠ [] →
  Forall2 (λ b lb, c3 fuel b contracts = Ok lb) bases lins →
  Forall (λ l, l ≠ []) (lins ++ [bases]).
Proof.
  intros Hbases Hlins. apply Forall_app. split; [|by constructor].
  apply Forall_forall. intros l [i Hi]%list_elem_of_lookup.
  destruct (Forall2_lookup_r _ _ _ _ _ Hlins Hi) as (b & _ & Hb).
  apply c3_head_NoDup in Hb as [Hhead _]. by destruct l.
Qed.

Lemma c3_merge_nonempty_terminates lst :
  Forall (λ l, l ≠ []) lst → c3_merge lst ≠ OutOfFuel.
Proof.
  intros Hne. unfold c3_merge.
  destruct (c3_merge_fuel_total (S (total_length lst)) lst Hne)
    as [[-> _]|(out & -> & _)]; [lia|done..].
Qed.

Lemma mapM_OutOfFuel {A B} (f : A → result B) (l : list A) :
  mapM f l = OutOfFuel → ∃ x, x ∈ l ∧ f x = OutOfFuel.
Proof.
  induction l as [|x l IH]; simpl; [done|].
  destruct (f x) as [y| |] eqn:Hx; simpl; [|done|].
  - destruct (mapM f l) as [k| |]; simpl; [done..|].
    intros _. destruct IH as (x' & Hin & Hx'); [done|]. exists x'. split; [by right|done].
  - intros _. exists x. split; [by left|done].
Qed.

(** Fuel runs out only along a chain of declared bases as long as the
    fuel. *)
Lemma c3_OutOfFuel_path contracts fuel x :
  c3 fuel x contracts = OutOfFuel →
  ∃ xs, length xs = fuel ∧ base_path contracts x xs.
Proof.
  revert x. induction fuel as [|fuel IH]; intros x; [by exists []|].
  rewrite c3_S. destruct (contracts_get contracts x) as [c|] eqn:Hc; [|done].
  case_decide as Hbases; [done|].
  destruct (mapM _ _) as [lins| |] eqn:Hlins; simpl; [|done|].
  - intros Hout. exfalso. apply mapM_Ok_inv in Hlins.
    pose proof (c3_merge_input_nonempty _ _ _ _ Hbases Hlins) as Hne.
    apply c3_merge_nonempty_terminates in Hne.
    by destruct (c3_merge (lins ++ [Contract.base_contracts c])).
  - intros _. apply mapM_OutOfFuel in Hlins as (b & Hb & Hout).
    destruct (IH b Hout) as (xs & Hlen & Hpath).
    exists (b :: xs). split; [by rewrite <- Hlen|]. split; [by exists c|done].
Qed.

Lemma base_path_transitive contracts x xs i j a b :
  base_path contracts x xs → (i < j)%nat →
  (x :: xs) !! i = Some a → (x :: xs) !! j = Some b →
  transitive_base contracts a b.
Proof.
  revert x i j a. induction xs as [|y xs IH]; intros x i j a Hpath Hij Hi Hj.
  { destruct j as [|[|j]]; [lia|done..]. }
  destruct Hpath as [Hxy Hpath]. destruct j as [|j]; [lia|].
  destruct i as [|i].
  - injection Hi as <-. destruct j as [|j].
    + injection Hj as <-. by apply tc_once.
    + eapply tc_l; [done|]. eapply (IH y 0 (S j)); [done|lia|done..].
  - eapply (IH y i j); [done|lia|done..].
Qed.

Lemma base_path_modeled contracts x xs i a :
  base_path contracts x xs → (i < length xs)%nat →
  (x :: xs) !! i = Some a → a ∈ contracts.*1.
Proof.
  revert x i. induction xs as [|y xs IH]; intros x i Hpath Hi Ha; [simpl in Hi; lia|].
  destruct Hpath as [(c & Hc & _) Hpath]. destruct i as [|i].
  - injection Ha as <-. apply contracts_get_elem_of in Hc.
    apply list_elem_of_fmap. by exists (x, c).
  - eapply (IH y i); [done|simpl in Hi; lia|done].
Qed.

(** X2. Cyclic inheritance is never linearized: when a contract, or one of
    its transitive bases, is a transitive base of itself, [c3] returns no
    list for the contract whatever the fuel, and the linearization loop of
    the model construction returns no registry. *)
Theorem c3_rejects_cyclic_inheritance contracts contract c x :
  contracts_get contracts contract = Some c →
  x = contract ∨ transitive_base contracts contract x →
  transitive_base contracts x x →
  ∀ fuel, (∀ l, c3 fuel contract contracts ≠ Ok l) ∧
          (∀ contracts', linearize_contracts fuel contracts ≠ Ok contracts').
Proof.
  intros Hc Hx Hcycle fuel.
  assert (∀ l, c3 fuel contract contracts ≠ Ok l) as Hno.
  { intros l Hl. destruct Hx as [->|Hx]; [by eapply c3_acyclic|].
    destruct (c3_base_fuel _ _ _ Hx _ _ Hl) as (fuel' & l' & _ & Hl').
    by eapply c3_acyclic. }
  split; [done|]. intros contracts' Hok. apply mapM_Ok_inv in Hok.
  apply contracts_get_elem_of, list_elem_of_lookup in Hc as [i Hi].
  destruct (Forall2_lookup_l _ _ _ _ _ Hok Hi) as (y & _ & Hy).
  cbv beta iota in Hy. apply bind_Ok_inv in Hy as (lin & Hlin & _).
  by eapply Hno.
Qed.

Lemma mutual_inheritance_is_rejected :
  (∀ fuel l, c3 fuel "A" ex_cyclic_raw ≠ Ok l) ∧
  (∀ fuel contracts', linearize_contracts fuel ex_cyclic_raw ≠ Ok contracts').
Proof.
  assert (∃ c, contracts_get ex_cyclic_raw "A" = Some c) as (c & Hc)
    by (eexists; vm_compute; reflexivity).
  assert (is_base ex_cyclic_raw "A" "B") as HAB.
  { eexists. split; [vm_compute; reflexivity|]. vm_compute. left. }
  assert (is_base ex_cyclic_raw "B" "A") as HBA.
  { eexists. split; [vm_compute; reflexivity|]. vm_compute. left. }
  assert (transitive_base ex_cyclic_raw "A" "A") as Hcycle.
  { eapply tc_l; [exact HAB|]. apply tc_once. exact HBA. }
  split.
  - intros fuel.
    apply (proj1 (c3_rejects_cyclic_inheritance ex_cyclic_raw "A" c "A" Hc
                    (or_introl eq_refl) Hcycle fuel)).
  - intros fuel.
    apply (proj2 (c3_rejects_cyclic_inheritance ex_cyclic_raw "A" c "A" Hc
                    (or_introl eq_refl) Hcycle fuel)).
Defined.

(** X3. On a model without cyclic inheritance the linearization of a
    contract ends: with more fuel than there are contracts [c3] returns a
    list or raises, and its outcome does not depend on the fuel. *)
Theorem c3_terminates_on_acyclic contracts contract :
  (∀ x, ¬ transitive_base contracts x x) →
  ∃ r, r ≠ OutOfFuel ∧
       ∀ fuel, (length contracts < fuel)%nat → c3 fuel contract contracts = r.
Proof.
  intros Hacyclic.
  assert (c3 (S (length contracts)) contract contracts ≠ OutOfFuel) as Hend.
  { intros (xs & Hlen & Hpath)%c3_OutOfFuel_path.
    assert (NoDup (take (length xs) (contract :: xs))) as Hnodup.
    { apply NoDup_alt. intros i j a [Hi Hilt]%lookup_take_Some [Hj Hjlt]%lookup_take_Some.
      destruct (decide (i = j)) as [|Hne]; [done|]. exfalso.
      destruct (decide (i < j)%nat).
      - eapply Hacyclic, (base_path_transitive _ _ _ i j); [done|lia|done..].
      - eapply Hacyclic, (base_path_transitive _ _ _ j i); [done|lia|done..]. }
    assert (take (length xs) (contract :: xs) ⊆+ contracts.*1) as Hsub.
    { apply NoDup_submseteq; [done|].
      intros a [i [Hi Hilt]%lookup_take_Some]%list_elem_of_lookup.
      by eapply base_path_modeled. }
    apply submseteq_length in Hsub.
    rewrite length_take, length_fmap in Hsub. simpl in Hsub. lia. }
  exists (c3 (S (length contracts)) contract contracts). split; [done|].
  intros fuel Hfuel. eapply c3_mono_le; [|done..]. lia.
Qed.

Lemma diamond_linearization_terminates :
  ∃ r, r ≠ OutOfFuel ∧
       ∀ fuel, (length ex_diamond_raw < fuel)%nat → c3 fuel "D" ex_diamond_raw = r.
Proof.
  apply (c3_terminates_on_acyclic ex_diamond_raw "D").
  intros x Hcycle.
  assert (∃ c, contracts_get ex_diamond_raw x = Some c) as (c & Hc).
  { apply tc_inv_l in Hcycle as [(c & Hc & _)|(y & (c & Hc & _) & _)]; eauto. }
  apply contracts_get_elem_of in Hc.
  assert (∃ l, c3 3 x ex_diamond_raw = Ok l) as (l & Hl).
  { vm_compute in Hc.
    repeat (apply elem_of_cons in Hc as [Hc|Hc];
            [injection Hc as -> _; eexists; vm_compute; reflexivity|]).
    by apply not_elem_of_nil in Hc. }
  by eapply c3_acyclic.
Defined.

(** ** External calls: through a state variable, through an attached library *)

Lemma holds_at_search_var contracts call x :
  holds_at contracts (search_var call) x ↔
  ∃ ty, declares_var contracts (Call.contract call) x ty.
Proof.
  unfold holds_at, declares_var, search_var. split.
  - intros (base & Hbase & [ty Hty]%bool_decide_eq_true). eauto.
  - intros (ty & base & Hbase & Hty). exists base. split; [done|].
    apply bool_decide_eq_true. eauto.
Qed.

Lemma holds_at_search_using contracts ty x :
  holds_at contracts (search_using ty) x ↔ ∃ lib, attaches contracts ty x lib.
Proof.
  unfold holds_at, attaches, search_using. split.
  - intros (c & Hc & [lib Hlib]%bool_decide_eq_true). eauto.
  - intros (lib & c & Hc & Hlib). exists c. split; [done|].
    apply bool_decide_eq_true. eauto.
Qed.

Lemma find_base_eq contracts name p c :
  contracts_get contracts name = Some c →
  find_base contracts name p = Ok (first_base contracts p (Contract.linearization c)).
Proof. intros Hc. unfold find_base. by rewrite Hc. Qed.

Lemma base_name_step_None contracts c call :
  not_a_base_call contracts c call →
  (if bool_decide (Call.contract call ∈ Contract.linearization c)
   then find_base contracts (Call.contract call) (search_function call)
   else Ok None) = Ok None.
Proof.
  intros [Hnot|(anc & Hanc & Hnone)].
  - by rewrite bool_decide_eq_false_2.
  - case_bool_decide; [|done]. unfold find_base. rewrite Hanc. simpl. f_equal.
    apply first_base_None.
    by apply (Forall_not_holds_at _ _ _ _ (holds_at_search_function _ _)).
Qed.

(** The part of [resolve] that follows a receiver that is neither a
    sentinel nor a resolved base name. *)
Lemma resolve_external_eq contracts callee call c :
  Call.contract call ∉ ["this"; "super"] →
  contracts_get contracts (Call.contract callee) = Some c →
  not_a_base_call contracts c call →
  resolve contracts callee call =
  match first_base contracts (search_var call) (Contract.linearization c) with
  | None => Ok None
  | Some base_name =>
      base ← getitem (contracts_get contracts base_name);
      contract_to ← getitem (Contract.state_user_vars base !! Call.contract call);
      if dict_in String.eqb contracts contract_to then
        Ok (Some (Call.__init__ contract_to (Call.function call) (Some base_name)))
      else
        base_usingfor ← find_base contracts base_name (search_using contract_to);
        base_usingfor ← getitem base_usingfor;
        lib ← getitem (contracts_get contracts base_usingfor);
        contract_to ← getitem (Contract.usingfors lib !! contract_to);
        Ok (Some (Call.__init__ contract_to (Call.function call) (Some base_name)))
  end.
Proof.
  intros Hcall Hc Hbase. unfold resolve.
  rewrite bool_decide_eq_false_2 by done. rewrite Hc.
  cbn [getitem mbind result_bind]. rewrite (base_name_step_None _ _ _ Hbase).
  cbn [mbind result_bind]. rewrite (find_base_eq _ _ _ _ Hc).
  cbn [mbind result_bind]. by destruct (first_base _ _ _).
Qed.

Lemma first_declaring_base contracts call lin pre b post ty :
  lin = pre ++ b :: post →
  declares_var contracts (Call.contract call) b ty →
  (∀ x ty', x ∈ pre → ¬ declares_var contracts (Call.contract call) x ty') →
  first_base contracts (search_var call) lin = Some b.
Proof.
  intros Hlin Hb Hpre. apply first_base_Some.
  apply (first_at_iff _ _ _ _ _ (holds_at_search_var _ _)).
  exists pre, post. split; [done|]. split; [eauto|].
  intros x Hx [ty' Hty']. by eapply Hpre.
Qed.

(** X4. An external call, whose receiver is not a sentinel and does not
    resolve as a base name, is taken as a call through a state variable: the
    nearest contract in the linearization of the callee's contract that
    declares the variable gives the target's context, and the declared type,
    when it is a modeled contract, is the target's contract. *)
Theorem external_call_resolves_to_declared_type contracts callee call c pre b post ty :
  Call.contract call ∉ ["this"; "super"] →
  contracts_get contracts (Call.contract callee) = Some c →
  not_a_base_call contracts c call →
  Contract.linearization c = pre ++ b :: post →
  declares_var contracts (Call.contract call) b ty →
  (∀ x ty', x ∈ pre → ¬ declares_var contracts (Call.contract call) x ty') →
  is_Some (contracts_get contracts ty) →
  resolve contracts callee call =
    Ok (Some (Call.__init__ ty (Call.function call) (Some b))).
Proof.
  intros Hcall Hc Hbase Hlin Hb Hpre Hty.
  rewrite (resolve_external_eq _ _ _ _ Hcall Hc Hbase).
  rewrite (first_declaring_base _ _ _ _ _ _ _ Hlin Hb Hpre).
  destruct Hb as (base & Hb & Hvar). rewrite Hb. cbn [getitem mbind result_bind].
  rewrite Hvar. cbn [getitem mbind result_bind].
  unfold dict_in. by rewrite bool_decide_eq_true_2.
Qed.

Lemma external_call_to_state_variable_type :
  resolve ex_external (Call.__init__ "Main" (fn "f" 0) None) (raw_call "t" (fn "g" 0)) =
    Ok (Some (Call.mk "Sub" (fn "g" 0) "Main")).
Proof.
  assert (∃ c, contracts_get ex_external "Main" = Some c ∧
               Contract.linearization c = ["Main"]) as (c & Hc & Hlin)
    by (eexists; split; vm_compute; reflexivity).
  apply (external_call_resolves_to_declared_type ex_external
           (Call.__init__ "Main" (fn "f" 0) None) (raw_call "t" (fn "g" 0))
           c [] "Main" [] "Sub").
  - vm_compute. intros H. inversion H as [|? ? ? H']; subst.
    inversion H' as [|? ? ? H'']; subst. inversion H''.
  - exact Hc.
  - left. rewrite Hlin. vm_compute. intros H. inversion H as [|? ? ? H']; subst.
    inversion H'.
  - exact Hlin.
  - eexists. split; vm_compute; reflexivity.
  - intros x ty' Hx. apply not_elem_of_nil in Hx. destruct Hx.
  - eexists. vm_compute. reflexivity.
Defined.

(** X5. An external call whose receiver no contract of the linearization of
    the callee's contract declares as a state variable is dropped: no
    target, no error. *)
Theorem undeclared_receiver_is_dropped contracts callee call c :
  Call.contract call ∉ ["this"; "super"] →
  contracts_get contracts (Call.contract callee) = Some c →
  not_a_base_call contracts c call →
  (∀ x ty, x ∈ Contract.linearization c →
           ¬ declares_var contracts (Call.contract call) x ty) →
  resolve contracts callee call = Ok None ∧
  ∀ st, walk_one contracts callee call st = Ok st.
Proof.
  intros Hcall Hc Hbase Hnone.
  assert (resolve contracts callee call = Ok None) as Hres.
  { rewrite (resolve_external_eq _ _ _ _ Hcall Hc Hbase).
    assert (first_base contracts (search_var call) (Contract.linearization c) = None)
      as ->; [|done].
    apply first_base_None.
    apply (Forall_not_holds_at _ _ _ _ (holds_at_search_var _ _)).
    intros x Hx [ty Hty]. by eapply Hnone. }
  split; [done|]. intros st. unfold walk_one. by rewrite Hres.
Qed.

Lemma call_on_undeclared_receiver_is_dropped :
  resolve ex_token (Call.__init__ "Token" (fn "approve" 2) None)
          (raw_call "msg" (fn "send" 1)) = Ok None ∧
  ∀ st, walk_one ex_token (Call.__init__ "Token" (fn "approve" 2) None)
                 (raw_call "msg" (fn "send" 1)) st = Ok st.
Proof.
  assert (∃ c, contracts_get ex_token "Token" = Some c ∧
               Contract.linearization c = ["Token"] ∧
               Contract.state_user_vars c = ∅) as (c & Hc & Hlin & Hvars)
    by (eexists; split; [|split]; vm_compute; reflexivity).
  apply (undeclared_receiver_is_dropped ex_token
           (Call.__init__ "Token" (fn "approve" 2) None)
           (raw_call "msg" (fn "send" 1)) c).
  - vm_compute. intros H. inversion H as [|? ? ? H']; subst.
    inversion H' as [|? ? ? H'']; subst. inversion H''.
  - exact Hc.
  - left. rewrite Hlin. vm_compute. intros H. inversion H as [|? ? ? H']; subst.
    inversion H'.
  - intros x ty Hx (base & Hbase & Hty). rewrite Hlin in Hx.
    apply list_elem_of_singleton in Hx. subst x. rewrite Hc in Hbase.
    injection Hbase as <-. rewrite Hvars in Hty. rewrite lookup_empty in Hty.
    discriminate Hty.
Defined.

(** X6. When the declared type of the state variable is not a modeled
    contract, the call is redirected to the library that the nearest
    contract in the declaring contract's linearization attaches to that
    type; the context is the declaring contract. *)
Theorem external_call_resolves_to_attached_library
    contracts callee call c pre b post ty base pre' u post' lib :
  Call.contract call ∉ ["this"; "super"] →
  contracts_get contracts (Call.contract callee) = Some c →
  not_a_base_call contracts c call →
  Contract.linearization c = pre ++ b :: post →
  contracts_get contracts b = Some base →
  Contract.state_user_vars base !! Call.contract call = Some ty →
  (∀ x ty', x ∈ pre → ¬ declares_var contracts (Call.contract call) x ty') →
  contracts_get contracts ty = None →
  Contract.linearization base = pre' ++ u :: post' →
  attaches contracts ty u lib →
  (∀ x lib', x ∈ pre' → ¬ attaches contracts ty x lib') →
  resolve contracts callee call =
    Ok (Some (Call.__init__ lib (Call.function call) (Some b))).
Proof.
  intros Hcall Hc Hbase Hlin Hb Hty Hpre Hnot Hlin' Hu Hpre'.
  rewrite (resolve_external_eq _ _ _ _ Hcall Hc Hbase).
  rewrite (first_declaring_base _ _ _ _ _ _ ty Hlin); [|by exists base|done].
  rewrite Hb. cbn [getitem mbind result_bind]. rewrite Hty.
  cbn [getitem mbind result_bind]. unfold dict_in.
  rewrite bool_decide_eq_false_2
    by (unfold contracts_get in Hnot; rewrite Hnot; by intros [? ?]).
  unfold find_base. rewrite Hb. cbn [getitem mbind result_bind].
  assert (first_base contracts (search_using ty) (Contract.linearization base) = Some u)
    as ->.
  { apply first_base_Some. apply (first_at_iff _ _ _ _ _ (holds_at_search_using _ _)).
    exists pre', post'. split; [done|]. split; [eauto|].
    intros x Hx [lib' Hlib']. by eapply Hpre'. }
  destruct Hu as (cu & Hcu & Hlib). cbn [getitem mbind result_bind].
  rewrite Hcu. cbn [getitem mbind result_bind]. by rewrite Hlib.
Qed.

Lemma call_through_using_for :
  resolve ex_usingfor (Call.__init__ "W" (fn "inc" 0) None) (raw_call "bal" (fn "add" 1)) =
    Ok (Some (Call.__init__ "L" (fn "add" 1) (Some "W"))).
Proof.
  assert (∃ c, contracts_get ex_usingfor "W" = Some c ∧
               Contract.linearization c = ["W"] ∧
               Contract.state_user_vars c !! "bal" = Some "Counter" ∧
               Contract.usingfors c !! "Counter" = Some "L")
    as (c & Hc & Hlin & Hvar & Husing)
    by (eexists; split; [|split; [|split]]; vm_compute; reflexivity).
  apply (external_call_resolves_to_attached_library ex_usingfor
           (Call.__init__ "W" (fn "inc" 0) None) (raw_call "bal" (fn "add" 1))
           c [] "W" [] "Counter" c [] "W" [] "L").
  - vm_compute. intros H. inversion H as [|? ? ? H']; subst.
    inversion H' as [|? ? ? H'']; subst. inversion H''.
  - exact Hc.
  - left. rewrite Hlin. vm_compute. intros H. inversion H as [|? ? ? H']; subst.
    inversion H'.
  - exact Hlin.
  - exact Hc.
  - exact Hvar.
  - intros x ty' Hx. apply not_elem_of_nil in Hx. destruct Hx.
  - vm_compute. reflexivity.
  - exact Hlin.
  - exists c. split; [exact Hc|exact Husing].
  - intros x lib' Hx. apply not_elem_of_nil in Hx. destruct Hx.
Defined.

(** X7. When the declared type of the state variable is not a modeled
    contract and no contract in the declaring contract's linearization
    attaches a library to it, the call is not dropped: resolution raises
    [KeyError], and so does the traversal on reaching the call. *)
Theorem missing_attachment_raises_KeyError contracts callee call c pre b post ty base :
  Call.contract call ∉ ["this"; "super"] →
  contracts_get contracts (Call.contract callee) = Some c →
  not_a_base_call contracts c call →
  Contract.linearization c = pre ++ b :: post →
  contracts_get contracts b = Some base →
  Contract.state_user_vars base !! Call.contract call = Some ty →
  (∀ x ty', x ∈ pre → ¬ declares_var contracts (Call.contract call) x ty') →
  contracts_get contracts ty = None →
  (∀ x lib, x ∈ Contract.linearization base → ¬ attaches contracts ty x lib) →
  resolve contracts callee call = Raise KeyError ∧
  ∀ st, walk_one contracts callee call st = Raise KeyError.
Proof.
  intros Hcall Hc Hbase Hlin Hb Hty Hpre Hnot Hnone.
  assert (resolve contracts callee call = Raise KeyError) as Hres.
  { rewrite (resolve_external_eq _ _ _ _ Hcall Hc Hbase).
    rewrite (first_declaring_base _ _ _ _ _ _ ty Hlin); [|by exists base|done].
    rewrite Hb. cbn [getitem mbind result_bind]. rewrite Hty.
    cbn [getitem mbind result_bind]. unfold dict_in.
    rewrite bool_decide_eq_false_2
      by (unfold contracts_get in Hnot; rewrite Hnot; by intros [? ?]).
    unfold find_base. rewrite Hb. cbn [getitem mbind result_bind].
    assert (first_base contracts (search_using ty) (Contract.linearization base) = None)
      as ->; [|done].
    apply first_base_None.
    apply (Forall_not_holds_at _ _ _ _ (holds_at_search_using _ _)).
    intros x Hx [lib Hlib]. by eapply Hnone. }
  split; [done|]. intros st. unfold walk_one. by rewrite Hres.
Qed.

Lemma call_on_unmodeled_type_raises_KeyError :
  resolve ex_no_attachment (Call.__init__ "W" (fn "inc" 0) None)
          (raw_call "bal" (fn "add" 1)) = Raise KeyError ∧
  ∀ st, walk_one ex_no_attachment (Call.__init__ "W" (fn "inc" 0) None)
                 (raw_call "bal" (fn "add" 1)) st = Raise KeyError.
Proof.
  assert (∃ c, contracts_get ex_no_attachment "W" = Some c ∧
               Contract.linearization c = ["W"] ∧
               Contract.state_user_vars c !! "bal" = Some "Counter" ∧
               Contract.usingfors c = ∅)
    as (c & Hc & Hlin & Hvar & Husing)
    by (eexists; split; [|split; [|split]]; vm_compute; reflexivity).
  apply (missing_attachment_raises_KeyError ex_no_attachment
           (Call.__init__ "W" (fn "inc" 0) None) (raw_call "bal" (fn "add" 1))
           c [] "W" [] "Counter" c).
  - vm_compute. intros H. inversion H as [|? ? ? H']; subst.
    inversion H' as [|? ? ? H'']; subst. inversion H''.
  - exact Hc.
  - left. rewrite Hlin. vm_compute. intros H. inversion H as [|? ? ? H']; subst.
    inversion H'.
  - exact Hlin.
  - exact Hc.
  - exact Hvar.
  - intros x ty' Hx. apply not_elem_of_nil in Hx. destruct Hx.
  - vm_compute. reflexivity.
  - intros x lib Hx (cu & Hcu & Hlib). rewrite Hlin in Hx.
    apply list_elem_of_singleton in Hx. subst x. rewrite Hc in Hcu.
    injection Hcu as <-. rewrite Husing in Hlib. rewrite lookup_empty in Hlib.
    discriminate Hlib.
Defined.

(** ** The graph that the traversal builds *)

Lemma call_set_add_elem x s y : y ∈ call_set_add x s → y = x ∨ y ∈ s.
Proof. unfold call_set_add. destruct (call_in x s); set_solver. Qed.

Lemma nodes_add_elem k x (nodes : gmap string (list Call.t)) k' ns' y :
  nodes_add k x nodes !! k' = Some ns' → y ∈ ns' →
  (k' = k ∧ y = x) ∨ ∃ ns, nodes !! k' = Some ns ∧ y ∈ ns.
Proof.
  unfold nodes_add. destruct (decide (k = k')) as [->|Hne].
  - rewrite lookup_insert_eq. intros [= <-] [->|Hin]%call_set_add_elem; [by left|].
    right. destruct (nodes !! k') as [ns|]; simpl in *; [eauto|].
    by apply not_elem_of_nil in Hin.
  - rewrite lookup_insert_ne by done. eauto.
Qed.

Lemma extends_refl st : extends st st.
Proof. split; [done|eauto]. Qed.

Lemma extends_trans st1 st2 st3 : extends st1 st2 → extends st2 st3 → extends st1 st3.
Proof.
  intros [Hp1 He1] [Hp2 He2]. split; [by etrans|].
  intros k es e Hes He. destruct (He1 k es e Hes He) as (es' & Hes' & He'). eauto.
Qed.

Lemma extends_visit callee st : extends st (visit callee st).
Proof. split; [done|eauto]. Qed.

Lemma extends_push callee target st : extends st (push callee target st).
Proof.
  split; simpl.
  - destruct (call_in target (calls st)); simpl; [done|]. by apply prefix_app_r.
  - intros k es e Hes He. by eapply edges_add_mono.
Qed.

Lemma extends_call_in st st' x :
  extends st st' → call_in x (calls st) = true → call_in x (calls st') = true.
Proof.
  intros [[k ->] _]. rewrite !call_in_true, fmap_app, elem_of_app. by left.
Qed.

Lemma extends_elem_of st st' x : extends st st' → x ∈ calls st → x ∈ calls st'.
Proof. intros [[k ->] _] Hx. apply elem_of_app. by left. Qed.

Lemma extends_recorded st st' callee target :
  extends st st' → recorded callee target st → recorded callee target st'.
Proof.
  intros Hext [Hin (es & e & Hes & He & Heq)]. split; [by eapply extends_call_in|].
  destruct (proj2 Hext _ _ _ Hes He) as (es' & Hes' & He'). eauto.
Qed.

Lemma recorded_push callee target st : recorded callee target (push callee target st).
Proof.
  split; simpl.
  - destruct (call_in target (calls st)) eqn:Hin; simpl; [done|].
    apply call_in_true. rewrite fmap_app. set_solver.
  - destruct (edges_add_has (Call.contract callee) (Edge.mk callee target) (edges st))
      as (es' & e' & Hes' & He' & Heq). eauto.
Qed.

Lemma walk_body_extends contracts callee body st st' :
  walk_body contracts callee body st = Ok st' → extends st st'.
Proof.
  apply (walk_body_ind (extends st)); [|apply extends_refl].
  intros st0 call target _ _ Hext. eapply extends_trans; [done|apply extends_push].
Qed.

Lemma walk_step_extends contracts ignore_list callee st st' :
  walk_step contracts ignore_list callee st = Ok st' → extends st st'.
Proof.
  apply (walk_step_ind (extends st)); [|apply extends_visit].
  intros c body st0 call target _ _ _ _ _ Hext.
  eapply extends_trans; [done|apply extends_push].
Qed.

(** The inner loop records every call of the body that resolves. *)
Lemma walk_body_complete contracts callee body st st' :
  walk_body contracts callee body st = Ok st' →
  ∀ call target, call ∈ body →
    resolve contracts callee call = Ok (Some target) →
    recorded callee target st'.
Proof.
  revert st. induction body as [|call0 body IH]; intros st; simpl.
  { intros _ call target Hin. by apply not_elem_of_nil in Hin. }
  intros (st1 & Hone & Hrest)%bind_Ok_inv call target Hin Hres.
  apply elem_of_cons in Hin as [->|Hin]; [|by eapply IH].
  apply walk_body_extends in Hrest. eapply extends_recorded; [done|].
  apply walk_one_Ok in Hone as [[Hnone _]|(target' & Hres' & ->)]; [congruence|].
  assert (target' = target) as -> by congruence. apply recorded_push.
Qed.

Lemma walk_step_Ok_inv contracts ignore_list callee st st' :
  walk_step contracts ignore_list callee st = Ok st' →
  (call_in callee ignore_list = true ∧ st' = visit callee st) ∨
  (call_in callee ignore_list = false ∧
   ∃ c body, contracts_get contracts (Call.contract callee) = Some c ∧
             functions_get c (Call.function callee) = Some body ∧
             walk_body contracts callee body (visit callee st) = Ok st').
Proof.
  unfold walk_step. fold (visit callee st).
  destruct (call_in callee ignore_list); [intros [= <-]; by left|].
  intros (c & Hc%getitem_Ok & (body & Hbody%getitem_Ok & Hwalk)%bind_Ok_inv)%bind_Ok_inv.
  right. split; [done|]. eauto.
Qed.

Lemma edges_add_elem_key k e (edges : gmap string (list Edge.t)) k' es' e' :
  edges_add k e edges !! k' = Some es' → e' ∈ es' →
  (k' = k ∧ e' = e) ∨ ∃ es, edges !! k' = Some es ∧ e' ∈ es.
Proof.
  unfold edges_add. destruct (decide (k = k')) as [->|Hne].
  - rewrite lookup_insert_eq. intros [= <-] [->|Hin]%edge_set_add_elem; [by left|].
    right. destruct (edges !! k') as [es|]; simpl in *; [eauto|].
    by apply not_elem_of_nil in Hin.
  - rewrite lookup_insert_ne by done. eauto.
Qed.

Lemma edge_ok_extends contracts st st' k e :
  extends st st' → edge_ok contracts st k e → edge_ok contracts st' k e.
Proof.
  intros Hext (Hk & Hcaller & Hcallee & Hres). split; [done|].
  split; [by eapply extends_elem_of|]. split; [by eapply extends_call_in|done].
Qed.

Lemma nodes_ok_visit st i callee :
  calls st !! i = Some callee → nodes_ok st → nodes_ok (visit callee st).
Proof.
  intros Hi Hnodes k ns x Hns Hx. simpl in *.
  destruct (nodes_add_elem _ _ _ _ _ _ Hns Hx) as [[-> ->]|(ns0 & Hns0 & Hx0)].
  - split; [done|]. by eapply list_elem_of_lookup_2.
  - by eapply Hnodes.
Qed.

Lemma nodes_ok_push callee target st : nodes_ok st → nodes_ok (push callee target st).
Proof.
  intros Hnodes k ns x Hns Hx. destruct (Hnodes k ns x Hns Hx) as [? ?].
  split; [done|]. eapply extends_elem_of; [apply extends_push|done].
Qed.

Lemma edges_ok_push contracts callee target st c body call :
  callee ∈ calls st →
  contracts_get contracts (Call.contract callee) = Some c →
  functions_get c (Call.function callee) = Some body →
  call ∈ body →
  resolve contracts callee call = Ok (Some target) →
  edges_ok contracts st → edges_ok contracts (push callee target st).
Proof.
  intros Hin Hc Hbody Hcall Hres Hedges k es e Hes He.
  pose proof (extends_push callee target st) as Hext. simpl in Hes.
  destruct (edges_add_elem_key _ _ _ _ _ _ Hes He) as [[-> ->]|(es0 & Hes0 & He0)].
  - split; [done|]. split; [by eapply extends_elem_of|].
    split; [apply recorded_push|]. exists c, body, call. done.
  - eapply edge_ok_extends; [done|]. by eapply Hedges.
Qed.

Lemma graph_inv_init contracts ignore_list entry :
  graph_inv contracts ignore_list entry 0 (walk_init entry).
Proof.
  split.
  - done.
  - intros k ns x Hns Hx. cbn [nodes walk_init] in Hns.
    destruct (nodes_add_elem _ _ _ _ _ _ Hns Hx) as [[-> ->]|(ns0 & Hns0 & _)];
      [|done]. split; [done|]. by left.
  - intros k es e. cbn [edges walk_init]. by rewrite lookup_empty.
  - intros j callee ?. lia.
Qed.

Lemma graph_inv_step contracts ignore_list entry i st callee st' :
  graph_inv contracts ignore_list entry i st →
  calls st !! i = Some callee →
  walk_step contracts ignore_list callee st = Ok st' →
  graph_inv contracts ignore_list entry (S i) st'.
Proof.
  intros [Hentry Hnodes Hedges Hexp] Hi Hstep.
  pose proof (walk_step_extends _ _ _ _ _ Hstep) as Hext.
  assert (nodes_ok st' ∧ edges_ok contracts st' ∧ callee ∈ calls st')
    as (Hnodes' & Hedges' & _).
  { revert Hstep.
    apply (walk_step_ind (λ s, nodes_ok s ∧ edges_ok contracts s ∧ callee ∈ calls s)).
    - intros c body st0 call target _ Hc Hbody Hcall Hres (Hn & He & Hin).
      split; [by apply nodes_ok_push|]. split; [by eapply edges_ok_push|].
      eapply extends_elem_of; [apply extends_push|done].
    - split; [by eapply nodes_ok_visit|]. split; [done|].
      by eapply list_elem_of_lookup_2. }
  split; [|done..|].
  - eapply prefix_lookup_Some; [done|apply Hext].
  - intros j callee' Hj Hj' Hig.
    assert (calls st !! j = Some callee') as Hold.
    { rewrite (prefix_lookup_lt (calls st) (calls st')); [done| |apply Hext].
      apply lookup_lt_Some in Hi. lia. }
    destruct (decide (j = i)) as [->|Hne].
    + assert (callee' = callee) as -> by congruence.
      apply walk_step_Ok_inv in Hstep as [[Hig' _]|(_ & c & body & Hc & Hbody & Hwalk)];
        [congruence|].
      exists c, body. split; [done|]. split; [done|].
      by eapply walk_body_complete.
    + destruct (Hexp j callee') as (c & body & Hc & Hbody & Hrec); [lia|done..|].
      exists c, body. split; [done|]. split; [done|].
      intros call target Hcall Hres. eapply extends_recorded; [done|]. by eapply Hrec.
Qed.

Lemma graph_inv_run contracts ignore_list entry fuel st :
  walk_run fuel contracts entry ignore_list = Ok st →
  graph_inv contracts ignore_list entry (length (calls st)) st.
Proof.
  intros Hrun.
  destruct (walk_loop_ind
              (λ i st, graph_inv contracts ignore_list entry i st ∧
                       (i ≤ length (calls st))%nat) _ _ _ _ _ _
              (λ i st callee st' HP Hi Hstep,
                 conj (graph_inv_step _ _ _ _ _ _ _ (proj1 HP) Hi Hstep)
                      (proj1 (Nat.le_succ_l _ _)
                         (Nat.lt_le_trans _ _ _ (lookup_lt_Some _ _ _ Hi)
                            (prefix_length _ _
                               (proj1 (walk_step_extends _ _ _ _ _ Hstep))))))
              (conj (graph_inv_init contracts ignore_list entry) (Nat.le_0_l _))
              Hrun) as (i' & [Hinv Hle] & Hend).
  apply lookup_ge_None in Hend.
  by replace (length (calls st)) with i' by lia.
Qed.

Lemma NoDup_call_key (l : list Call.t) x y :
  NoDup (call_key <$> l) → x ∈ l → y ∈ l → call_key x = call_key y → x = y.
Proof.
  intros Hnodup [i Hi]%list_elem_of_lookup [j Hj]%list_elem_of_lookup Hkey.
  assert (i = j) as ->; [|congruence].
  eapply NoDup_lookup; [done|..].
  - by rewrite list_lookup_fmap, Hi.
  - by rewrite list_lookup_fmap, Hj, Hkey.
Qed.

Lemma call_in_elem (x : Call.t) (lst : list Call.t) :
  call_in x lst = true → ∃ y, y ∈ lst ∧ call_key x = call_key y.
Proof.
  intros (y & Hkey & Hy)%call_in_true%list_elem_of_fmap. eauto.
Qed.

Lemma node_of_call contracts ignore_list entry st x :
  walk_inv contracts ignore_list entry (length (calls st)) st →
  nodes_ok st → x ∈ calls st →
  ∃ ns, nodes st !! Call.contract x = Some ns ∧ x ∈ ns.
Proof.
  intros Hinv Hnodes Hx. pose proof Hx as [j Hj]%list_elem_of_lookup.
  destruct (inv_nodes _ _ _ _ _ Hinv j x) as (ns & Hns & Hin);
    [by eapply lookup_lt_Some|done|].
  exists ns. split; [done|].
  apply call_in_elem in Hin as (y & Hy & Hkey).
  destruct (Hnodes _ _ _ Hns Hy) as [_ Hy'].
  by rewrite (NoDup_call_key _ x y (inv_nodup _ _ _ _ _ Hinv) Hx Hy' Hkey).
Qed.

Lemma node_of_equal_call contracts ignore_list entry st x :
  walk_inv contracts ignore_list entry (length (calls st)) st →
  nodes_ok st → call_in x (calls st) = true →
  ∃ ns, nodes st !! Call.contract x = Some ns ∧ call_in x ns = true.
Proof.
  intros Hinv Hnodes (y & Hy & Hkey)%call_in_elem.
  destruct (node_of_call _ _ _ _ _ Hinv Hnodes Hy) as (ns & Hns & Hin).
  exists ns. split; [by injection Hkey as -> _|].
  apply call_in_true. rewrite Hkey. apply list_elem_of_fmap. eauto.
Qed.

(** ** Ignored calls in the graph *)

(** C8. Membership in the ignore list looks at contract and function only.
    A callee that is in it is recorded as a node and nothing else happens in
    its turn. In the graph of a finished traversal, an ignored call of the
    worklist is a node under its contract; it is the callee of an edge when
    it was reached through a call, and every call recorded for a caller that
    is not ignored and resolving to it has its edge, or an equal one, in the
    caller's edge set, while the call itself is a node; and it is the caller
    of no edge of any contract. *)
Theorem ignored_calls_are_terminal contracts ignore_list :
  (∀ c ctx, call_in (Call.mk (Call.contract c) (Call.function c) ctx) ignore_list =
            call_in c ignore_list) ∧
  (∀ callee st, call_in callee ignore_list = true →
     walk_step contracts ignore_list callee st = Ok (visit callee st)) ∧
  (∀ fuel entry st, walk_run fuel contracts entry ignore_list = Ok st →
     ∀ c, call_in c ignore_list = true →
       (c ∈ calls st →
          ∃ ns, nodes st !! Call.contract c = Some ns ∧ call_in c ns = true) ∧
       (∀ j, calls st !! S j = Some c →
          ∃ k es e, edges st !! k = Some es ∧ e ∈ es ∧
                    Call.__eq__ (Edge.callee e) c = true) ∧
       (∀ callee, callee ∈ calls st → call_in callee ignore_list = false →
          ∃ cc body,
            contracts_get contracts (Call.contract callee) = Some cc ∧
            functions_get cc (Call.function callee) = Some body ∧
            ∀ call, call ∈ body →
              resolve contracts callee call = Ok (Some c) →
              (∃ es e, edges st !! Call.contract callee = Some es ∧ e ∈ es ∧
                       Edge.__eq__ (Edge.mk callee c) e = true) ∧
              (∃ ns, nodes st !! Call.contract c = Some ns ∧ call_in c ns = true)) ∧
       (∀ k es e, edges st !! k = Some es → e ∈ es →
          Call.__eq__ (Edge.caller e) c = false)).
Proof.
  split; [|split].
  - intros c ctx. by apply call_in_key.
  - intros callee st Hig. unfold walk_step. by rewrite Hig.
  - intros fuel entry st Hrun c Hc.
    pose proof (walk_run_inv _ _ _ _ _ Hrun) as Hinv.
    destruct (graph_inv_run _ _ _ _ _ Hrun) as [_ Hnodes _ Hexp].
    split; [|split; [|split]].
    + intros [j Hj]%list_elem_of_lookup.
      eapply inv_nodes; [done| |done]. by apply lookup_lt_Some in Hj.
    + intros j Hj. destruct (inv_incoming _ _ _ _ _ Hinv j c Hj)
        as (k & es & e & Hes & He & Hkey).
      exists k, es, e. split; [done|]. split; [done|]. by apply Call_eq_true.
    + intros callee [j Hj]%list_elem_of_lookup Hig.
      destruct (Hexp j callee) as (cc & body & Hcc & Hbody & Hrec);
        [by eapply lookup_lt_Some|done..|].
      exists cc, body. split; [done|]. split; [done|].
      intros call Hcall Hres. destruct (Hrec call c Hcall Hres) as [Hin Hedge].
      split; [done|]. by eapply node_of_equal_call.
    + intros k es e Hes He.
      pose proof (inv_callers _ _ _ _ _ Hinv k es e Hes He) as Hcaller.
      destruct (Call.__eq__ (Edge.caller e) c) eqn:Heq; [|done].
      apply Call_eq_true in Heq. rewrite (call_in_key _ _ _ Heq) in Hcaller.
      congruence.
Qed.

Lemma ignored_call_keeps_both_incoming_edges :
  ∃ st,
    walk_run 4 ex_shared_callee (Call.__init__ "T" (fn "a" 0) None)
      [Call.__init__ "T" (fn "c" 0) None] = Ok st ∧
    calls st = [Call.mk "T" (fn "a" 0) "T"; Call.mk "T" (fn "c" 0) "T";
                Call.mk "T" (fn "b" 0) "T"] ∧
    nodes st !! "T" = Some [Call.mk "T" (fn "a" 0) "T"; Call.mk "T" (fn "c" 0) "T";
                            Call.mk "T" (fn "b" 0) "T"] ∧
    edges st !! "T" =
      Some [Edge.mk (Call.mk "T" (fn "a" 0) "T") (Call.mk "T" (fn "c" 0) "T");
            Edge.mk (Call.mk "T" (fn "a" 0) "T") (Call.mk "T" (fn "b" 0) "T");
            Edge.mk (Call.mk "T" (fn "b" 0) "T") (Call.mk "T" (fn "c" 0) "T")] ∧
    (∃ es e, edges st !! "T" = Some es ∧ e ∈ es ∧
             Edge.__eq__ (Edge.mk (Call.mk "T" (fn "b" 0) "T")
                                  (Call.mk "T" (fn "c" 0) "T")) e = true) ∧
    (∀ k es e, edges st !! k = Some es → e ∈ es →
       Call.__eq__ (Edge.caller e) (Call.mk "T" (fn "c" 0) "T") = false).
Proof.
  destruct (walk_run 4 ex_shared_callee (Call.__init__ "T" (fn "a" 0) None)
              [Call.__init__ "T" (fn "c" 0) None]) as [st| |] eqn:Hrun;
    [|vm_compute in Hrun; discriminate Hrun..].
  exists st. split; [reflexivity|].
  assert (Ok st = Ok st) as Hst by reflexivity.
  rewrite <- Hrun in Hst at 1. vm_compute in Hst. injection Hst as Hst.
  split; [rewrite <- Hst; reflexivity|].
  split; [rewrite <- Hst; vm_compute; reflexivity|].
  split; [rewrite <- Hst; vm_compute; reflexivity|].
  destruct (proj2 (proj2 (ignored_calls_are_terminal ex_shared_callee
              [Call.__init__ "T" (fn "c" 0) None])) 4
              (Call.__init__ "T" (fn "a" 0) None) st Hrun
              (Call.mk "T" (fn "c" 0) "T") ltac:(vm_compute; reflexivity))
    as (_ & _ & Hincoming & Houtgoing).
  split; [|exact Houtgoing].
  destruct (Hincoming (Call.mk "T" (fn "b" 0) "T"))
    as (cc & body & Hcc & Hbody & Hcalls).
  { rewrite <- Hst. cbn [calls]. apply list_elem_of_further, list_elem_of_further,
      list_elem_of_here. }
  { vm_compute; reflexivity. }
  vm_compute in Hcc. injection Hcc as <-.
  vm_compute in Hbody. injection Hbody as <-.
  exact (proj1 (Hcalls (raw_call "this" (fn "c" 0)) ltac:(apply list_elem_of_here)
                  ltac:(vm_compute; reflexivity))).
Defined.

(** ** The graph as a whole *)

(** X8. The graph of a finished traversal is well formed: the worklist
    starts with the entry; the node set of a contract holds exactly the
    calls of the worklist on that contract; an edge is stored under its
    caller's contract, its caller is a node of that contract, and its callee
    is equal, as a [Call], to a node of the callee's contract. *)
Theorem walk_graph_is_well_formed fuel contracts entry ignore_list st :
  walk_run fuel contracts entry ignore_list = Ok st →
  calls st !! 0 = Some entry ∧
  (∀ k x, (∃ ns, nodes st !! k = Some ns ∧ x ∈ ns) ↔
          (x ∈ calls st ∧ Call.contract x = k)) ∧
  (∀ k es e, edges st !! k = Some es → e ∈ es →
     Call.contract (Edge.caller e) = k ∧
     (∃ ns, nodes st !! k = Some ns ∧ Edge.caller e ∈ ns) ∧
     (∃ ns, nodes st !! Call.contract (Edge.callee e) = Some ns ∧
            call_in (Edge.callee e) ns = true)).
Proof.
  intros Hrun. pose proof (walk_run_inv _ _ _ _ _ Hrun) as Hinv.
  destruct (graph_inv_run _ _ _ _ _ Hrun) as [Hentry Hnodes Hedges _].
  split; [done|]. split.
  - intros k x. split.
    + intros (ns & Hns & Hx). destruct (Hnodes _ _ _ Hns Hx). done.
    + intros [Hx <-]. by eapply node_of_call.
  - intros k es e Hes He. destruct (Hedges _ _ _ Hes He) as (Hk & Hcaller & Hcallee & _).
    split; [done|]. split.
    + rewrite <- Hk. by eapply node_of_call.
    + by eapply node_of_equal_call.
Qed.

Lemma derived_graph_is_well_formed :
  ∃ st,
    walk_run 4 ex_derived (Call.__init__ "Derived" (fn "h" 0) None) [] = Ok st ∧
    calls st = [Call.mk "Derived" (fn "h" 0) "Derived";
                Call.mk "Base" (fn "f" 0) "Derived";
                Call.mk "Derived" (fn "g" 0) "Derived"] ∧
    (∀ k x, (∃ ns, nodes st !! k = Some ns ∧ x ∈ ns) ↔
            (x ∈ calls st ∧ Call.contract x = k)).
Proof.
  destruct (walk_run 4 ex_derived (Call.__init__ "Derived" (fn "h" 0) None) [])
    as [st| |] eqn:Hrun; [|vm_compute in Hrun; discriminate Hrun..].
  exists st. split; [reflexivity|].
  assert (Ok st = Ok st) as Hst by reflexivity.
  rewrite <- Hrun in Hst at 1. vm_compute in Hst. injection Hst as Hst.
  split; [rewrite <- Hst; reflexivity|].
  apply (proj1 (proj2 (walk_graph_is_well_formed 4 ex_derived
                         (Call.__init__ "Derived" (fn "h" 0) None) [] st Hrun))).
Defined.

(** X9. Every edge of a finished traversal is the resolution of a recorded
    call: its caller is not ignored, the caller's contract defines the
    caller's function, and one of the calls recorded for that function
    resolves, for this caller, to the edge's callee. *)
Theorem every_edge_is_a_resolved_call fuel contracts entry ignore_list st k es e :
  walk_run fuel contracts entry ignore_list = Ok st →
  edges st !! k = Some es → e ∈ es →
  call_in (Edge.caller e) ignore_list = false ∧
  ∃ c body call,
    contracts_get contracts (Call.contract (Edge.caller e)) = Some c ∧
    functions_get c (Call.function (Edge.caller e)) = Some body ∧
    call ∈ body ∧
    resolve contracts (Edge.caller e) call = Ok (Some (Edge.callee e)).
Proof.
  intros Hrun Hes He. pose proof (walk_run_inv _ _ _ _ _ Hrun) as Hinv.
  destruct (graph_inv_run _ _ _ _ _ Hrun) as [_ _ Hedges _].
  split; [by eapply inv_callers|].
  destruct (Hedges _ _ _ Hes He) as (<- & _ & _ & c & body & call & Hres).
  by exists c, body, call.
Qed.

Lemma child_edge_is_a_resolved_call :
  ∃ c body call,
    contracts_get ex_child "Child" = Some c ∧
    functions_get c (fn "foo" 0) = Some body ∧
    call ∈ body ∧
    resolve ex_child (Call.mk "Child" (fn "foo" 0) "Child") call =
      Ok (Some (Call.mk "Parent" (fn "foo" 0) "Child")).
Proof.
  destruct (walk_run 3 ex_child (Call.__init__ "Child" (fn "foo" 0) None) [])
    as [st| |] eqn:Hrun; [|vm_compute in Hrun; discriminate Hrun..].
  assert (Ok st = Ok st) as Hst by reflexivity.
  rewrite <- Hrun in Hst at 1. vm_compute in Hst. injection Hst as Hst.
  apply (proj2 (every_edge_is_a_resolved_call 3 ex_child
                  (Call.__init__ "Child" (fn "foo" 0) None) [] st "Child"
                  [Edge.mk (Call.mk "Child" (fn "foo" 0) "Child")
                           (Call.mk "Parent" (fn "foo" 0) "Child")]
                  (Edge.mk (Call.mk "Child" (fn "foo" 0) "Child")
                           (Call.mk "Parent" (fn "foo" 0) "Child")) Hrun
                  ltac:(rewrite <- Hst; vm_compute; reflexivity)
                  ltac:(left))).
Defined.

(** X10. A finished traversal is closed under resolution: for every call of
    the worklist that is not ignored, its contract defines its function, and
    every call recorded for that function that resolves has its edge, or an
    equal one, in the caller's edge set and its target, or an equal call,
    among the nodes of the target's contract. *)
Theorem resolved_calls_are_recorded fuel contracts entry ignore_list st callee :
  walk_run fuel contracts entry ignore_list = Ok st →
  callee ∈ calls st →
  call_in callee ignore_list = false →
  ∃ c body,
    contracts_get contracts (Call.contract callee) = Some c ∧
    functions_get c (Call.function callee) = Some body ∧
    ∀ call target, call ∈ body →
      resolve contracts callee call = Ok (Some target) →
      (∃ es e, edges st !! Call.contract callee = Some es ∧ e ∈ es ∧
               Edge.__eq__ (Edge.mk callee target) e = true) ∧
      (∃ ns, nodes st !! Call.contract target = Some ns ∧ call_in target ns = true).
Proof.
  intros Hrun [j Hj]%list_elem_of_lookup Hig.
  pose proof (walk_run_inv _ _ _ _ _ Hrun) as Hinv.
  destruct (graph_inv_run _ _ _ _ _ Hrun) as [_ Hnodes _ Hexp].
  destruct (Hexp j callee) as (c & body & Hc & Hbody & Hrec);
    [by eapply lookup_lt_Some|done..|].
  exists c, body. split; [done|]. split; [done|].
  intros call target Hcall Hres. destruct (Hrec call target Hcall Hres) as [Hin Hedge].
  split; [done|]. by eapply node_of_equal_call.
Qed.

Lemma token_calls_are_recorded :
  ∃ st c body,
    walk_run 4 ex_token (Call.__init__ "Token" (fn "approve" 2) None) [] = Ok st ∧
    contracts_get ex_token "Token" = Some c ∧
    functions_get c (fn "_approve" 3) = Some body ∧
    ∀ call target, call ∈ body →
      resolve ex_token (Call.mk "Token" (fn "_approve" 3) "Token") call =
        Ok (Some target) →
      (∃ es e, edges st !! "Token" = Some es ∧ e ∈ es ∧
               Edge.__eq__ (Edge.mk (Call.mk "Token" (fn "_approve" 3) "Token") target) e
                 = true) ∧
      (∃ ns, nodes st !! Call.contract target = Some ns ∧ call_in target ns = true).
Proof.
  destruct (walk_run 4 ex_token (Call.__init__ "Token" (fn "approve" 2) None) [])
    as [st| |] eqn:Hrun; [|vm_compute in Hrun; discriminate Hrun..].
  assert (Ok st = Ok st) as Hst by reflexivity.
  rewrite <- Hrun in Hst at 1. vm_compute in Hst. injection Hst as Hst.
  destruct (resolved_calls_are_recorded 4 ex_token
              (Call.__init__ "Token" (fn "approve" 2) None) [] st
              (Call.mk "Token" (fn "_approve" 3) "Token") Hrun
              ltac:(rewrite <- Hst; right; left) eq_refl)
    as (c & body & Hc & Hbody & Hrec).
  exists st, c, body. split; [reflexivity|]. split; [exact Hc|]. split; [exact Hbody|].
  exact Hrec.
Defined.

(** ** The function lookup of the command line *)

Lemma entry_call_eq contracts contract_name function count :
  entry_call contracts contract_name function count =
  match contracts_get contracts contract_name with
  | None => Raise SystemExit
  | Some c =>
      match filter (entry_filter function count)
                   (matching_functions contracts (Contract.linearization c)) with
      | [] => Raise SystemExit
      | f :: _ => Ok (Call.mk contract_name f.1 contract_name)
      end
  end.
Proof.
  unfold entry_call. destruct (contracts_get contracts contract_name) as [c|]; [|done].
  generalize (matching_functions contracts (Contract.linearization c)). intros l.
  assert (filter (entry_filter function count) l =
          match count with
          | None => filter (λ f, Function.name f.1 = function ∧
                                 Function.type f.1 = Function.Function) l
          | Some n => filter (λ f, Function.params f.1 = n)
                        (filter (λ f, Function.name f.1 = function ∧
                                      Function.type f.1 = Function.Function) l)
          end) as ->.
  { destruct count as [n|].
    - rewrite list_filter_filter. apply list_filter_iff. intros x.
      unfold entry_filter. tauto.
    - apply list_filter_iff. intros x. unfold entry_filter. tauto. }
  destruct (filter (λ f, Function.name f.1 = function ∧ _) l) as [|f fs] eqn:Hf.
  - by destruct count.
  - destruct count as [n|]; [|done]. by destruct (filter _ (f :: fs)).
Qed.

Lemma head_filter_bind {A B} (P : B → Prop) `{∀ y, Decision (P y)}
    (g : A → list B) (l : list A) y ys :
  filter P (l ≫= g) = y :: ys →
  ∃ pre x post, l = pre ++ x :: post ∧ y ∈ g x ∧ P y ∧
                ∀ z y', z ∈ pre → y' ∈ g z → ¬ P y'.
Proof.
  induction l as [|x l IH]; [done|]. rewrite bind_cons, filter_app.
  destruct (filter P (g x)) as [|y0 ys0] eqn:Hx; simpl.
  - intros (pre & x' & post & -> & Hy & HP & Hpre)%IH.
    exists (x :: pre), x', post. split; [done|]. split; [done|]. split; [done|].
    intros z y' [->|Hz]%elem_of_cons Hy'; [|by eapply Hpre].
    intros HP'. assert (y' ∈ filter P (g x)) as Hin by (by apply list_elem_of_filter).
    rewrite Hx in Hin. by apply not_elem_of_nil in Hin.
  - intros [= -> _]. exists [], x, l. split; [done|].
    assert (y ∈ filter P (g x)) as [HP Hy]%list_elem_of_filter by (rewrite Hx; by left).
    split; [done|]. split; [done|]. intros z y' Hz. by apply not_elem_of_nil in Hz.
Qed.

Lemma filter_bind_nil {A B} (P : B → Prop) `{∀ y, Decision (P y)}
    (g : A → list B) (l : list A) :
  filter P (l ≫= g) = [] ↔ ∀ x y, x ∈ l → y ∈ g x → ¬ P y.
Proof.
  split.
  - intros Hnil x y Hx Hy HP.
    assert (y ∈ filter P (l ≫= g)) as Hin.
    { apply list_elem_of_filter. split; [done|]. apply list_elem_of_bind. eauto. }
    rewrite Hnil in Hin. by apply not_elem_of_nil in Hin.
  - intros Hnone. destruct (filter P (l ≫= g)) as [|y ys] eqn:Hf; [done|].
    assert (y ∈ filter P (l ≫= g)) as [HP (x & Hy & Hx)%list_elem_of_bind]%list_elem_of_filter
      by (rewrite Hf; by left).
    by destruct (Hnone x y Hx Hy).
Qed.

Lemma elem_of_candidates contracts b f b' :
  (f, b') ∈ match contracts_get contracts b with
            | Some base => (λ f, (f, b)) <$> (Contract.functions base).*1
            | None => []
            end ↔
  b' = b ∧ ∃ base body, contracts_get contracts b = Some base ∧
                        (f, body) ∈ Contract.functions base.
Proof.
  destruct (contracts_get contracts b) as [base|].
  - rewrite list_elem_of_fmap. split.
    + intros (f' & [= -> ->] & ([f'' body] & -> & Hin)%list_elem_of_fmap).
      split; [done|]. by exists base, body.
    + intros (-> & base' & body & [= <-] & Hin). exists f. split; [done|].
      apply list_elem_of_fmap. by exists (f, body).
  - split; [by intros ?%not_elem_of_nil|]. by intros (_ & ? & ? & ? & _).
Qed.

Lemma entry_filter_candidate contracts function count f b :
  entry_candidate contracts function count f b ↔
  (∃ base body, contracts_get contracts b = Some base ∧
                (f, body) ∈ Contract.functions base) ∧
  entry_filter function count (f, b).
Proof.
  unfold entry_candidate, entry_filter. simpl. split.
  - intros (Hdef & Hname & Htype & Hcount). split; [done|]. split; [done|].
    destruct count as [n|]; [by apply Hcount|done].
  - intros (Hdef & [Hname Htype] & Hcount). split; [done|]. split; [done|].
    split; [done|]. intros n ->. done.
Qed.

(** X11. The lookup of the entry function either stops the program or
    returns a call on the requested contract, in its own context, to a
    function that the command line asks for and that a modeled contract of
    the requested contract's linearization defines, no contract earlier in
    that linearization defining one; it stops exactly when the contract is
    not modeled or no contract of its linearization defines such a
    function. *)
Theorem entry_call_finds_first_matching_function contracts contract_name function count :
  (∀ call, entry_call contracts contract_name function count = Ok call →
     call = Call.mk contract_name (Call.function call) contract_name ∧
     ∃ c pre b post,
       contracts_get contracts contract_name = Some c ∧
       Contract.linearization c = pre ++ b :: post ∧
       entry_candidate contracts function count (Call.function call) b ∧
       ∀ x f, x ∈ pre → ¬ entry_candidate contracts function count f x) ∧
  (entry_call contracts contract_name function count = Raise SystemExit ↔
     contracts_get contracts contract_name = None ∨
     ∃ c, contracts_get contracts contract_name = Some c ∧
          ∀ x f, x ∈ Contract.linearization c →
                 ¬ entry_candidate contracts function count f x) ∧
  (entry_call contracts contract_name function count = Raise SystemExit ∨
   ∃ call, entry_call contracts contract_name function count = Ok call).
Proof.
  rewrite entry_call_eq. unfold matching_functions.
  destruct (contracts_get contracts contract_name) as [c|] eqn:Hc.
  2:{ split; [done|]. split; [|by left]. split; [by left|done]. }
  destruct (filter _ _) as [|[f b] fs] eqn:Hf.
  - split; [done|]. split; [|by left]. split; [|done]. intros _. right.
    exists c. split; [done|]. intros x f Hx [Hdef Hfilter]%entry_filter_candidate.
    eapply (proj1 (filter_bind_nil _ _ _) Hf x (f, x)); [done| |done].
    apply elem_of_candidates. done.
  - apply head_filter_bind in Hf as (pre & x & post & Hlin & Hin & HP & Hpre).
    apply elem_of_candidates in Hin as [-> Hdef].
    split; [|split; [|right; eauto]].
    + intros call [= <-]. split; [done|]. exists c, pre, x, post.
      split; [done|]. split; [done|]. split; [by apply entry_filter_candidate|].
      intros z f' Hz [Hdef' HP']%entry_filter_candidate.
      eapply (Hpre z (f', z)); [done| |done]. by apply elem_of_candidates.
    + split; [done|]. intros [?|(c' & [= <-] & Hnone)]; [done|]. exfalso.
      eapply (Hnone x f); [rewrite Hlin; set_solver|].
      by apply entry_filter_candidate.
Qed.

Lemma inherited_entry_is_found_in_the_base :
  entry_call ex_inherits_only "Derived" "f" None =
    Ok (Call.mk "Derived" (fn "f" 0) "Derived") ∧
  ∃ c pre b post,
    contracts_get ex_inherits_only "Derived" = Some c ∧
    Contract.linearization c = pre ++ b :: post ∧
    entry_candidate ex_inherits_only "f" None (fn "f" 0) b ∧
    ∀ x f, x ∈ pre → ¬ entry_candidate ex_inherits_only "f" None f x.
Proof.
  assert (entry_call ex_inherits_only "Derived" "f" None =
            Ok (Call.mk "Derived" (fn "f" 0) "Derived")) as Hcall
    by (vm_compute; reflexivity).
  split; [exact Hcall|].
  apply (proj2 (proj1 (entry_call_finds_first_matching_function
                         ex_inherits_only "Derived" "f" None) _ Hcall)).
Defined.

(** ** The ignore list of the command line *)

Lemma colon_is_the_colon : String colon "" = ":".
Proof. reflexivity. Qed.

Lemma split_on_length sep s : length (split_on sep s) = S (count_char sep s).
Proof.
  induction s as [|ch s IH]; simpl; [done|].
  case_bool_decide; simpl; [by rewrite IH|].
  destruct (split_on sep s); simpl in *; lia.
Qed.

Lemma parse_ignore_one_Ok py_int ignore call :
  parse_ignore_one py_int ignore = Ok call →
  count_char colon ignore = 2 ∧
  Function.type (Call.function call) = Function.Function ∧
  Call.context call = Call.contract call ∧
  ∃ contract function count,
    split_on colon ignore = [contract; function; count] ∧
    py_int count = Ok (Function.params (Call.function call)) ∧
    Call.contract call = contract ∧ Function.name (Call.function call) = function.
Proof.
  unfold parse_ignore_one. pose proof (split_on_length colon ignore) as Hlen.
  destruct (split_on colon ignore) as [|contract [|function [|count [|? ?]]]]; try done.
  intros (n & Hn & [= <-])%bind_Ok_inv. simpl in Hlen.
  split; [lia|]. split; [done|]. split; [done|].
  exists contract, function, count. done.
Qed.

(** X12. An ignore list read from the command line has one call for each
    specifier, each specifier has exactly two colons, and every call is a
    plain function in its own contract's context; so a modifier or an event
    is never in the ignore list, whatever specifiers are given. *)
Theorem parsed_ignore_list_holds_plain_functions py_int ignore ignore_list :
  parse_ignore py_int ignore = Ok ignore_list →
  length ignore_list = length (default [] ignore) ∧
  Forall (λ s, count_char colon s = 2) (default [] ignore) ∧
  Forall (λ c, Function.type (Call.function c) = Function.Function ∧
               Call.context c = Call.contract c) ignore_list ∧
  ∀ callee, Function.type (Call.function callee) ≠ Function.Function →
            call_in callee ignore_list = false.
Proof.
  intros Hparse.
  assert (Forall2 (λ s c, parse_ignore_one py_int s = Ok c) (default [] ignore) ignore_list)
    as Hall.
  { destruct ignore as [l|]; simpl in *; [by apply mapM_Ok_inv|].
    injection Hparse as <-. constructor. }
  assert (Forall (λ c, Function.type (Call.function c) = Function.Function ∧
                       Call.context c = Call.contract c) ignore_list) as Hplain.
  { apply Forall_forall. intros c [i Hi]%list_elem_of_lookup.
    destruct (Forall2_lookup_r _ _ _ _ _ Hall Hi) as (s & _ & Hs).
    by apply parse_ignore_one_Ok in Hs as (_ & ? & ? & _). }
  split; [symmetry; by eapply Forall2_length|]. split; [|split; [done|]].
  - apply Forall_forall. intros s [i Hi]%list_elem_of_lookup.
    destruct (Forall2_lookup_l _ _ _ _ _ Hall Hi) as (c & _ & Hc).
    by apply parse_ignore_one_Ok in Hc as (? & _).
  - intros callee Hkind. apply call_in_false.
    intros (c & Hkey & Hc)%list_elem_of_fmap.
    rewrite Forall_forall in Hplain. destruct (Hplain c Hc) as [Htype _].
    injection Hkey as _ Hf. by rewrite Hf in Hkind.
Qed.

Lemma ignore_specifier_is_a_plain_function :
  parse_ignore digit_int (Some ["Token:_approve:3"]) =
    Ok [Call.mk "Token" (fn "_approve" 3) "Token"] ∧
  ∀ callee, Function.type (Call.function callee) ≠ Function.Function →
            call_in callee [Call.mk "Token" (fn "_approve" 3) "Token"] = false.
Proof.
  assert (parse_ignore digit_int (Some ["Token:_approve:3"]) =
            Ok [Call.mk "Token" (fn "_approve" 3) "Token"]) as Hparse
    by (vm_compute; reflexivity).
  split; [exact Hparse|].
  apply (proj2 (proj2 (proj2 (parsed_ignore_list_holds_plain_functions
                                digit_int _ _ Hparse)))).
Defined.

(** ** The registry after the linearization loop *)

Lemma set_linearization_fields c lin :
  Contract.name (set_linearization c lin) = Contract.name c ∧
  Contract.base_contracts (set_linearization c lin) = Contract.base_contracts c ∧
  Contract.state_user_vars (set_linearization c lin) = Contract.state_user_vars c ∧
  Contract.usingfors (set_linearization c lin) = Contract.usingfors c ∧
  Contract.functions (set_linearization c lin) = Contract.functions c ∧
  Contract.linearization (set_linearization c lin) = lin.
Proof. done. Qed.

Lemma linearized_lookup fuel (contracts0 l l' : registry) name :
  Forall2 (λ x y, (let '(name, contract) := x in
                   lin ← c3 fuel name contracts0;
                   Ok (name, set_linearization contract lin)) = Ok y) l l' →
  match dict_get String.eqb l name with
  | Some c => ∃ lin, c3 fuel name contracts0 = Ok lin ∧
                     dict_get String.eqb l' name = Some (set_linearization c lin)
  | None => dict_get String.eqb l' name = None
  end.
Proof.
  induction 1 as [|[n c] [n' c'] l l' Hx _ IH]; simpl; [done|].
  apply bind_Ok_inv in Hx as (lin & Hlin & [= <- <-]).
  destruct (String.eqb name n) eqn:Hn; [|done].
  apply String.eqb_eq in Hn as ->. eauto.
Qed.

Lemma linearized_names fuel (contracts0 l l' : registry) :
  Forall2 (λ x y, (let '(name, contract) := x in
                   lin ← c3 fuel name contracts0;
                   Ok (name, set_linearization contract lin)) = Ok y) l l' →
  l'.*1 = l.*1.
Proof.
  induction 1 as [|[n c] [n' c'] l l' Hx _ IH]; [done|].
  apply bind_Ok_inv in Hx as (lin & _ & [= <- <-]).
  rewrite !fmap_cons. cbn [fst]. by rewrite IH.
Qed.

(** X14. When the linearization loop of the model construction succeeds,
    the registry keeps its names and their order, a name that was not
    modeled stays unmodeled, and every contract is found again under its
    name with its fields unchanged but for the linearization, which is now
    the list [c3] computes for that name and starts with the name. *)
Theorem linearize_contracts_stores_c3 fuel contracts contracts' :
  linearize_contracts fuel contracts = Ok contracts' →
  contracts'.*1 = contracts.*1 ∧
  (∀ name, contracts_get contracts name = None → contracts_get contracts' name = None) ∧
  ∀ name c, contracts_get contracts name = Some c →
    ∃ c' lin,
      contracts_get contracts' name = Some c' ∧
      c3 fuel name contracts = Ok lin ∧
      Contract.linearization c' = lin ∧
      head lin = Some name ∧
      Contract.name c' = Contract.name c ∧
      Contract.base_contracts c' = Contract.base_contracts c ∧
      Contract.state_user_vars c' = Contract.state_user_vars c ∧
      Contract.usingfors c' = Contract.usingfors c ∧
      Contract.functions c' = Contract.functions c.
Proof.
  unfold linearize_contracts. intros Hall%mapM_Ok_inv. split; [|split].
  - by eapply linearized_names.
  - intros name Hname. pose proof (linearized_lookup _ _ _ _ name Hall) as Hl.
    unfold contracts_get in *. by rewrite Hname in Hl.
  - intros name c Hname. pose proof (linearized_lookup _ _ _ _ name Hall) as Hl.
    unfold contracts_get in *. rewrite Hname in Hl. destruct Hl as (lin & Hlin & Hget).
    exists (set_linearization c lin), lin. split; [done|]. split; [done|].
    split; [done|]. split; [by apply c3_head_NoDup in Hlin as [? _]|done].
Qed.

Lemma chain_registry_stores_c3 :
  ∃ contracts',
    linearize_contracts 5 [raw_contract "A" [] [] [] [];
                           raw_contract "B" ["A"] [] [] []] = Ok contracts' ∧
    contracts'.*1 = ["A"; "B"] ∧
    ∃ c', contracts_get contracts' "B" = Some c' ∧
          Contract.linearization c' = ["B"; "A"].
Proof.
  destruct (linearize_contracts 5 [raw_contract "A" [] [] [] [];
                                   raw_contract "B" ["A"] [] [] []])
    as [contracts'| |] eqn:Hlink; [|vm_compute in Hlink; discriminate Hlink..].
  exists contracts'. split; [reflexivity|].
  destruct (linearize_contracts_stores_c3 _ _ _ Hlink) as (Hnames & _ & Hget).
  split; [exact Hnames|].
  destruct (Hget "B" (raw_contract "B" ["A"] [] [] []).2 ltac:(vm_compute; reflexivity))
    as (c' & lin & Hc' & Hlin & Hlin' & _).
  exists c'. split; [exact Hc'|]. rewrite Hlin'.
  vm_compute in Hlin. injection Hlin as <-. reflexivity.
Defined.

(** ** The call extraction *)

Lemma value_ind' (P : value → Prop) :
  P VNone → (∀ b, P (VBool b)) → (∀ n, P (VInt n)) → (∀ s, P (VStr s)) →
  (∀ l, Forall P l → P (VList l)) →
  (∀ items, Forall (λ item, P item.2) items → P (VNode items)) →
  ∀ v, P v.
Proof.
  intros HN HB HI HS HL HD. fix IH 1. intros [|b|n|s|l|items].
  - exact HN.
  - apply HB.
  - apply HI.
  - apply HS.
  - apply HL. induction l as [|x l IHl]; constructor; [apply IH|apply IHl].
  - apply HD. induction items as [|[k v] items IHi]; constructor; [apply IH|apply IHi].
Qed.

Lemma for_each_cons {A B} (f : A → B → parsed A) a x l :
  for_each f a (x :: l) = (a' ← f a x; for_each f a' l).
Proof. done. Qed.

Lemma get_calls_item_eq dictionary keyname function_calls k v' :
  get_calls_item dictionary keyname function_calls (k, v') =
  (function_calls ←
     (if bool_decide (k = "type") && py_eq_str v' "FunctionCall"
      then call_of_invocation dictionary keyname function_calls
      else Parsed function_calls);
   match v' with
   | VNode _ => get_calls_from_dict v' function_calls k
   | VList l => for_each get_calls_element function_calls l
   | _ => Parsed function_calls
   end).
Proof. done. Qed.

Lemma get_calls_elements_eq (l : list value) (function_calls : list Call.t) :
  (fix elements (l : list value) (function_calls : list Call.t) {struct l}
       : parsed (list Call.t) :=
     match l with
     | [] => Parsed function_calls
     | x :: l' =>
         function_calls ←
           match x with
           | VNode _ => get_calls_from_dict x function_calls ""
           | _ => Parsed function_calls
           end;
         elements l' function_calls
     end) l function_calls =
  for_each get_calls_element function_calls l.
Proof.
  revert function_calls. induction l as [|x l IH]; intros function_calls; [done|].
  cbn -[get_calls_from_dict get_calls_element].
  change (get_calls_element function_calls x)
    with (match x with
          | VNode _ => get_calls_from_dict x function_calls ""
          | _ => Parsed function_calls
          end).
  destruct (match x with VNode _ => _ | _ => _ end) as [fc| |];
    cbn [mbind parsed_bind]; [apply IH|done..].
Qed.

Lemma get_calls_items_eq dictionary keyname rest (function_calls : list Call.t) :
  (fix items (rest : list (string * value)) (function_calls : list Call.t)
       {struct rest} : parsed (list Call.t) :=
     match rest with
     | [] => Parsed function_calls
     | (k, v') :: rest' =>
         function_calls ←
           (if bool_decide (k = "type") && py_eq_str v' "FunctionCall"
            then call_of_invocation dictionary keyname function_calls
            else Parsed function_calls);
         function_calls ←
           match v' with
           | VNode _ => get_calls_from_dict v' function_calls k
           | VList l =>
               (fix elements (l : list value) (function_calls : list Call.t)
                    {struct l} : parsed (list Call.t) :=
                  match l with
                  | [] => Parsed function_calls
                  | x :: l' =>
                      function_calls ←
                        match x with
                        | VNode _ => get_calls_from_dict x function_calls ""
                        | _ => Parsed function_calls
                        end;
                      elements l' function_calls
                  end) l function_calls
           | _ => Parsed function_calls
           end;
         items rest' function_calls
     end) rest function_calls =
  for_each (get_calls_item dictionary keyname) function_calls rest.
Proof.
  revert function_calls. induction rest as [|[k v'] rest IH]; intros function_calls.
  { reflexivity. }
  rewrite for_each_cons, get_calls_item_eq.
  set (A := if bool_decide (k = "type") && py_eq_str v' "FunctionCall" then _ else _).
  destruct A as [fc| |]; cbn [mbind parsed_bind]; [|reflexivity..].
  destruct v' as [|b|n|s|l|d]; cbn [mbind parsed_bind]; try exact (IH _).
  - rewrite get_calls_elements_eq.
    destruct (for_each get_calls_element fc l); cbn [mbind parsed_bind];
      [exact (IH _)|reflexivity..].
  - destruct (get_calls_from_dict (VNode d) fc k); cbn [mbind parsed_bind];
      [exact (IH _)|reflexivity..].
Qed.

Lemma get_calls_from_dict_node dictionary function_calls keyname :
  get_calls_from_dict (VNode dictionary) function_calls keyname =
  for_each (get_calls_item dictionary keyname) function_calls dictionary.
Proof.
  cbn [get_calls_from_dict].
  exact (get_calls_items_eq dictionary keyname dictionary function_calls).
Qed.

(** The outcomes of [yields], one function at a time. *)
Lemma yields_ext P (g h : list Call.t → parsed (list Call.t)) :
  (∀ acc, g acc = h acc) → yields P g → yields P h.
Proof.
  intros Hgh [Hacc Hnew]. split.
  - intros acc. rewrite <- !Hgh. apply Hacc.
  - intros new. rewrite <- Hgh. apply Hnew.
Qed.

Lemma yields_Parsed P : yields P (λ acc, Parsed acc).
Proof.
  split.
  - intros acc. cbn [mbind parsed_bind]. by rewrite app_nil_r.
  - intros new [= <-]. constructor.
Qed.

Lemma yields_snoc P c : P c → yields P (λ acc, Parsed (acc ++ [c])).
Proof.
  intros Hc. split.
  - intros acc. reflexivity.
  - intros new [= <-]. by constructor.
Qed.

Lemma yields_Throws P e : yields P (λ _, Throws e).
Proof. split; [reflexivity|discriminate]. Qed.

Lemma yields_Unmodelled P : yields P (λ _, Unmodelled).
Proof. split; [reflexivity|discriminate]. Qed.

Lemma yields_bind P (g h : list Call.t → parsed (list Call.t)) :
  yields P g → yields P h → yields P (λ acc, a ← g acc; h a).
Proof.
  intros [Hg Pg] [Hh Ph]. split.
  - intros acc. rewrite (Hg acc).
    destruct (g []) as [n1| |] eqn:Hg'; cbn [mbind parsed_bind]; [|reflexivity..].
    rewrite (Hh (acc ++ n1)), (Hh n1).
    destruct (h []) as [n2| |]; cbn [mbind parsed_bind]; [|reflexivity..].
    by rewrite app_assoc.
  - intros new. destruct (g []) as [n1| |] eqn:Hg'; cbn [mbind parsed_bind];
      [|discriminate..].
    rewrite (Hh n1). destruct (h []) as [n2| |] eqn:Hh'; cbn [mbind parsed_bind];
      [|discriminate..].
    intros [= <-]. apply Forall_app. split; [by apply Pg|by apply Ph].
Qed.

Lemma yields_after {A} P (m : parsed A) (h : A → list Call.t → parsed (list Call.t)) :
  (∀ a, yields P (h a)) → yields P (λ acc, a ← m; h a acc).
Proof.
  intros Hh. destruct m as [a| |]; cbn [mbind parsed_bind].
  - apply Hh.
  - apply yields_Throws.
  - apply yields_Unmodelled.
Qed.

Lemma yields_if P (b : bool) (g h : list Call.t → parsed (list Call.t)) :
  yields P g → yields P h → yields P (λ acc, if b then g acc else h acc).
Proof. by destruct b. Qed.

Lemma yields_for_each {B} P (f : list Call.t → B → parsed (list Call.t)) (l : list B) :
  Forall (λ x, yields P (λ acc, f acc x)) l → yields P (λ acc, for_each f acc l).
Proof.
  induction 1 as [|x l Hx _ IH].
  - apply yields_Parsed.
  - apply (yields_ext P (λ acc, a ← f acc x; for_each f a l)); [done|].
    by apply (yields_bind P (λ acc, f acc x) (λ acc, for_each f acc l)).
Qed.

Lemma call_of_invocation_yields dictionary keyname :
  yields extracted (call_of_invocation dictionary keyname).
Proof.
  unfold call_of_invocation.
  apply (yields_after extracted (node_getitem dictionary "expression")); intros exp.
  apply (yields_after extracted (node_getitem dictionary "arguments")); intros arguments.
  apply (yields_after extracted (py_len arguments)); intros param_count.
  apply (yields_after extracted (py_getitem exp "type")); intros exp_type.
  set (fun_type := if bool_decide (keyname = "eventCall") then _ else _).
  assert (fun_type = Function.Function ∨ fun_type = Function.Event) as Hkind.
  { unfold fun_type. destruct (bool_decide _); [by right|by left]. }
  clearbody fun_type.
  apply (yields_bind extracted
    (λ acc, if py_eq_str exp_type "Identifier" then
              name ← py_getitem exp "name"; name ← as_str name;
              Parsed (acc ++ [Call.__init__ "this"
                (Function.__init__ name param_count (Some fun_type)) None])
            else Parsed acc)
    (λ acc, if py_eq_str exp_type "MemberAccess" then
              base ← py_getitem exp "expression";
              has_name ← py_contains base "name";
              if has_name : bool then
                member ← py_getitem exp "memberName";
                member ← as_str member;
                receiver ← py_getitem base "name";
                receiver ← as_str receiver;
                Parsed (acc ++ [Call.__init__ receiver
                  (Function.__init__ member param_count (Some fun_type)) None])
              else Parsed acc
            else Parsed acc)).
  - apply yields_if; [|apply yields_Parsed].
    apply (yields_after extracted (py_getitem exp "name")); intros name.
    apply (yields_after extracted (as_str name)); intros name'.
    apply yields_snoc. by split.
  - apply yields_if; [|apply yields_Parsed].
    apply (yields_after extracted (py_getitem exp "expression")); intros base.
    apply (yields_after extracted (py_contains base "name")); intros has_name.
    apply yields_if; [|apply yields_Parsed].
    apply (yields_after extracted (py_getitem exp "memberName")); intros member.
    apply (yields_after extracted (as_str member)); intros member'.
    apply (yields_after extracted (py_getitem base "name")); intros receiver.
    apply (yields_after extracted (as_str receiver)); intros receiver'.
    apply yields_snoc. by split.
Qed.

Lemma get_calls_element_yields x :
  (∀ keyname, yields extracted (λ acc, get_calls_from_dict x acc keyname)) →
  yields extracted (λ acc, get_calls_element acc x).
Proof.
  intros Hx. destruct x; try apply yields_Parsed. apply Hx.
Qed.

Lemma get_calls_from_dict_yields v :
  (∀ keyname, yields extracted (λ acc, get_calls_from_dict v acc keyname)) ∧
  ∀ l, v = VList l →
    Forall (λ x, ∀ keyname, yields extracted (λ acc, get_calls_from_dict x acc keyname)) l.
Proof.
  induction v as [|b|n|s|l IH|dictionary IH] using value_ind';
    try (split; [intros keyname; apply yields_Throws|discriminate]).
  - split; [intros keyname; apply yields_Throws|].
    intros l' [= <-]. eapply Forall_impl; [exact IH|]. by intros x [Hx _].
  - split; [|discriminate]. intros keyname.
    apply (yields_ext extracted
      (λ acc, for_each (get_calls_item dictionary keyname) acc dictionary)).
    { intros acc. by rewrite get_calls_from_dict_node. }
    generalize dictionary at 1 as d. intros d.
    apply yields_for_each. eapply Forall_impl; [exact IH|].
    intros [k v'] [Hv Hl]. cbn [snd] in Hv, Hl.
    apply (yields_ext extracted
      (λ acc, fc ← (if bool_decide (k = "type") && py_eq_str v' "FunctionCall"
                   then call_of_invocation d keyname acc else Parsed acc);
              match v' with
              | VNode _ => get_calls_from_dict v' fc k
              | VList l => for_each get_calls_element fc l
              | _ => Parsed fc
              end)).
    { intros acc. by rewrite get_calls_item_eq. }
    apply (yields_bind extracted
      (λ acc, if bool_decide (k = "type") && py_eq_str v' "FunctionCall"
              then call_of_invocation d keyname acc else Parsed acc)
      (λ fc, match v' with
             | VNode _ => get_calls_from_dict v' fc k
             | VList l => for_each get_calls_element fc l
             | _ => Parsed fc
             end)).
    + apply yields_if; [apply call_of_invocation_yields|apply yields_Parsed].
    + destruct v' as [|b|n|s|l|d']; try apply yields_Parsed.
      * apply yields_for_each. eapply Forall_impl; [exact (Hl l eq_refl)|].
        intros x Hx. by apply get_calls_element_yields.
      * apply Hv.
Qed.

(** ** The model builder *)

Lemma parsed_bind_inv {A B} (m : parsed A) (f : A → parsed B) b :
  m ≫= f = Parsed b → ∃ a, m = Parsed a ∧ f a = Parsed b.
Proof. destruct m as [a| |]; cbn [mbind parsed_bind]; [by exists a|discriminate..]. Qed.

Lemma py_eq_str_true v s : py_eq_str v s = true → v = VStr s.
Proof.
  destruct v as [| | |s'| |]; try discriminate. cbn [py_eq_str].
  by intros ->%bool_decide_eq_true.
Qed.

Lemma as_str_Parsed v s : as_str v = Parsed s → v = VStr s.
Proof. destruct v as [| | |s'| |]; try discriminate. by intros [= ->]. Qed.

Lemma py_iter_Parsed v l : py_iter v = Parsed l → v = VList l.
Proof. destruct v as [| | | |l'|]; try discriminate. by intros [= ->]. Qed.

Lemma py_len_Parsed v n : py_len v = Parsed n → ∃ l, v = VList l ∧ n = Z.of_nat (length l).
Proof. destruct v as [| | | |l'|]; try discriminate. intros [= <-]. by exists l'. Qed.

Lemma mapM_Parsed_inv {A B} (f : A → parsed B) (l : list A) (k : list B) :
  mapM f l = Parsed k → Forall2 (λ x y, f x = Parsed y) l k.
Proof.
  revert k. induction l as [|x l IH]; intros k; cbn [mapM].
  - intros [= <-]. constructor.
  - intros (y & Hy & (k' & Hk' & [= <-])%parsed_bind_inv)%parsed_bind_inv.
    constructor; [done|]. by apply IH.
Qed.

Lemma functions_set_get (functions : list (Function.t * list Call.t)) function calls :
  dict_get Function.__eq__ (functions_set functions function calls) function = Some calls.
Proof.
  induction functions as [|[f old] functions IH]; cbn [functions_set dict_get].
  - by rewrite Function_eq_refl.
  - destruct (Function.__eq__ function f) eqn:E; cbn [dict_get]; by rewrite E.
Qed.

Lemma functions_set_get_ne (functions : list (Function.t * list Call.t)) function calls g :
  g ≠ function →
  dict_get Function.__eq__ (functions_set functions function calls) g =
  dict_get Function.__eq__ functions g.
Proof.
  intros Hne. induction functions as [|[f old] functions IH]; cbn [functions_set dict_get].
  - destruct (Function.__eq__ g function) eqn:E; [|done].
    by apply Function_eq_true in E.
  - destruct (Function.__eq__ function f) eqn:E; cbn [dict_get].
    + apply Function_eq_true in E as <-.
      destruct (Function.__eq__ g function) eqn:E'; [|done].
      by apply Function_eq_true in E'.
    + by rewrite IH.
Qed.

Lemma functions_set_keys (functions : list (Function.t * list Call.t)) function calls :
  (functions_set functions function calls).*1 =
  if dict_in Function.__eq__ functions function then functions.*1
  else functions.*1 ++ [function].
Proof.
  unfold dict_in. induction functions as [|[f old] functions IH];
    cbn [functions_set dict_get]; [done|].
  destruct (Function.__eq__ function f) eqn:E.
  - by rewrite bool_decide_true by eauto.
  - rewrite !fmap_cons, IH. by destruct (bool_decide _).
Qed.

Lemma parse_using_for_Parsed contract node c' :
  parse_using_for contract node = Parsed c' →
  ∃ typename ty,
    py_getitem node "typeName" = Parsed typename ∧
    py_getitem typename "type" = Parsed ty ∧
    if py_eq_str ty "UserDefinedTypeName" then
      ∃ path lib,
        py_getitem typename "namePath" = Parsed (VStr path) ∧
        py_getitem node "libraryName" = Parsed (VStr lib) ∧
        c' = with_usingfor contract path lib
    else c' = contract.
Proof.
  unfold parse_using_for.
  intros (typename & Htypename & (ty & Hty & H)%parsed_bind_inv)%parsed_bind_inv.
  exists typename, ty. split; [done|]. split; [done|].
  destruct (py_eq_str ty "UserDefinedTypeName"); [|by injection H as <-].
  apply parsed_bind_inv in H as (lib' & Hlib & H).
  apply parsed_bind_inv in H as (path' & Hpath & H).
  apply parsed_bind_inv in H as (lib & ->%as_str_Parsed & H).
  apply parsed_bind_inv in H as (path & ->%as_str_Parsed & [= <-]).
  by exists path, lib.
Qed.

Lemma parse_state_variable_Parsed contract var c' :
  parse_state_variable contract var = Parsed c' →
  (∃ x ty, user_typed var x ty ∧ c' = with_state_user_var contract x ty) ∨
  ((∀ x ty, ¬ user_typed var x ty) ∧ c' = contract).
Proof.
  unfold parse_state_variable.
  intros (typename & Htypename & (tt & Htt & H)%parsed_bind_inv)%parsed_bind_inv.
  destruct (py_eq_str tt "UserDefinedTypeName") eqn:E.
  - apply py_eq_str_true in E as ->.
    apply parsed_bind_inv in H as (path' & Hpath & H).
    apply parsed_bind_inv in H as (name' & Hname & H).
    apply parsed_bind_inv in H as (path & ->%as_str_Parsed & H).
    apply parsed_bind_inv in H as (name & ->%as_str_Parsed & [= <-]).
    left. exists name, path. split; [|done]. by exists typename.
  - right. injection H as <-. split; [|done].
    intros x ty (typename' & Htypename' & Htt' & _).
    rewrite Htypename in Htypename'. injection Htypename' as <-.
    rewrite Htt in Htt'. injection Htt' as ->. discriminate E.
Qed.

Lemma modifier_call_Parsed x c :
  modifier_call x = Parsed c →
  py_getitem x "name" = Parsed (VStr (Function.name (Call.function c))) ∧
  (∃ arguments, py_getitem x "arguments" = Parsed (VList arguments) ∧
     Function.params (Call.function c) = Z.of_nat (length arguments)) ∧
  is_modifier_call c.
Proof.
  unfold modifier_call.
  intros (name' & Hname & H)%parsed_bind_inv.
  apply parsed_bind_inv in H as (arguments & Harguments & H).
  apply parsed_bind_inv in H as (count & (l & -> & ->)%py_len_Parsed & H).
  apply parsed_bind_inv in H as (name & ->%as_str_Parsed & [= <-]).
  split; [done|]. split; [by exists l|done].
Qed.

Lemma parse_definition_Parsed contract node kind c' :
  parse_definition contract node kind = Parsed c' →
  ∃ name count modifiers body,
    c' = with_function contract (Function.mk name count kind) (modifiers ++ body) ∧
    (∃ parameters l, py_getitem node "parameters" = Parsed parameters ∧
       py_getitem parameters "parameters" = Parsed (VList l) ∧
       count = Z.of_nat (length l)) ∧
    (if bool_decide (kind = Function.Function) then
       ∃ is_constructor l,
         py_getitem node "isConstructor" = Parsed is_constructor ∧
         (if py_truthy is_constructor then name = Contract.name contract
          else py_getitem node "name" = Parsed (VStr name)) ∧
         py_getitem node "modifiers" = Parsed (VList l) ∧
         Forall2 (λ x c, modifier_call x = Parsed c) l modifiers
     else py_getitem node "name" = Parsed (VStr name) ∧ modifiers = []) ∧
    match py_getitem node "body" with
    | Parsed b =>
        if py_truthy b then get_calls_from_dict b [] "" = Parsed body else body = []
    | _ => body = []
    end ∧
    Forall extracted body.
Proof.
  unfold parse_definition.
  intros (name0 & Hname0 & H)%parsed_bind_inv.
  apply parsed_bind_inv in H as ([name1 modifiers] & Hfun & H).
  apply parsed_bind_inv in H as (has_body & Hhas & H).
  apply parsed_bind_inv in H as (calls & Hcalls & H).
  apply parsed_bind_inv in H as (parameters & Hparameters & H).
  apply parsed_bind_inv in H as (parameters' & Hparameters' & H).
  apply parsed_bind_inv in H as (count & (l & -> & ->)%py_len_Parsed & H).
  apply parsed_bind_inv in H as (name & ->%as_str_Parsed & [= <-]).
  assert (∃ body, calls = modifiers ++ body ∧
            match py_getitem node "body" with
            | Parsed b =>
                if py_truthy b then get_calls_from_dict b [] "" = Parsed body
                else body = []
            | _ => body = []
            end ∧ Forall extracted body) as (body & -> & Hbody & Hextracted).
  { destruct node as [| | | | |items]; try discriminate Hname0.
    injection Hhas as <-. cbn [py_getitem] in *. unfold node_getitem in *.
    unfold dict_in in Hcalls.
    destruct (dict_get String.eqb items "body") as [b|] eqn:Hb.
    - rewrite bool_decide_true in Hcalls by eauto. cbn [mbind parsed_bind] in Hcalls.
      destruct (py_truthy b).
      + destruct (get_calls_from_dict_yields b) as [Hyields _].
        destruct (Hyields "") as [Hacc Hnew]. rewrite (Hacc modifiers) in Hcalls.
        apply parsed_bind_inv in Hcalls as (body & Hbody & [= <-]).
        exists body. split; [done|]. split; [done|]. by apply Hnew.
      + injection Hcalls as <-. exists []. by rewrite app_nil_r.
    - rewrite bool_decide_false in Hcalls by (by intros [? ?]).
      injection Hcalls as <-. exists []. by rewrite app_nil_r. }
  exists name, (Z.of_nat (length l)), modifiers, body.
  split; [done|]. split; [by exists parameters, l|]. split; [|done].
  destruct (bool_decide (kind = Function.Function)).
  - apply parsed_bind_inv in Hfun as (is_constructor & Hctor & H).
    apply parsed_bind_inv in H as (mods & Hmods & H).
    apply parsed_bind_inv in H as (l' & ->%py_iter_Parsed & H).
    apply parsed_bind_inv in H as (calls & Hmapped%mapM_Parsed_inv & [= Hn <-]).
    exists is_constructor, l'. split; [done|]. split; [|done].
    destruct (py_truthy is_constructor); [by injection Hn as <-|by rewrite <- Hn].
  - by injection Hfun as -> <-.
Qed.

Lemma parse_node_cases contract node c' :
  parse_node contract node = Parsed c' →
  (has_type node "UsingForDeclaration" = true ∧
     parse_using_for contract node = Parsed c') ∨
  (has_type node "StateVariableDeclaration" = true ∧
     ∃ variables, py_getitem node "variables" = Parsed (VList variables) ∧
       for_each parse_state_variable contract variables = Parsed c') ∨
  (∃ ty kind, py_getitem node "type" = Parsed ty ∧ definition_kind ty = Some kind ∧
     parse_definition contract node kind = Parsed c') ∨
  (∃ ty, py_getitem node "type" = Parsed ty ∧
     py_eq_str ty "UsingForDeclaration" = false ∧
     py_eq_str ty "StateVariableDeclaration" = false ∧
     definition_kind ty = None ∧ c' = contract).
Proof.
  unfold parse_node, has_type.
  intros (ty & Hty & H)%parsed_bind_inv. rewrite Hty.
  destruct (py_eq_str ty "UsingForDeclaration") eqn:Eu.
  { apply py_eq_str_true in Eu as ->.
    apply parsed_bind_inv in H as (c1 & Hc1 & H). cbn in H. injection H as ->.
    by left. }
  cbn [mbind parsed_bind] in H.
  destruct (py_eq_str ty "StateVariableDeclaration") eqn:Es.
  { apply py_eq_str_true in Es as ->.
    apply parsed_bind_inv in H as (c1 & Hc1 & H). cbn in H. injection H as ->.
    apply parsed_bind_inv in Hc1 as (variables & Hvariables & Hc1).
    apply parsed_bind_inv in Hc1 as (l & ->%py_iter_Parsed & Hc1).
    right. left. split; [done|]. by exists l. }
  cbn [mbind parsed_bind] in H.
  destruct (definition_kind ty) as [kind|] eqn:Ek.
  - right. right. left. by exists ty, kind.
  - right. right. right. injection H as <-. by exists ty.
Qed.

Lemma for_each_preserves {A B} (R : A → A → Prop) (f : A → B → parsed A) :
  (∀ a, R a a) → (∀ a b c, R a b → R b c → R a c) →
  (∀ a x a', f a x = Parsed a' → R a a') →
  ∀ l a a', for_each f a l = Parsed a' → R a a'.
Proof.
  intros Hrefl Htrans Hf. induction l as [|x l IH]; intros a a'.
  - intros [= <-]. apply Hrefl.
  - rewrite for_each_cons. intros (a1 & Ha1 & Hl)%parsed_bind_inv.
    apply (Htrans a a1 a'); [by eapply Hf|by apply IH].
Qed.

Lemma same_header_refl c : same_header c c.
Proof. done. Qed.

Lemma same_header_trans c1 c2 c3 :
  same_header c1 c2 → same_header c2 c3 → same_header c1 c3.
Proof. intros (? & ? & ?) (? & ? & ?). repeat split; congruence. Qed.

Lemma signature_of_parse_definition contract node kind c' :
  parse_definition contract node kind = Parsed c' →
  ∃ function modifiers body,
    signature_of contract node kind function ∧
    c' = with_function contract function (modifiers ++ body) ∧
    (if bool_decide (kind = Function.Function) then
       ∃ l, py_getitem node "modifiers" = Parsed (VList l) ∧
            Forall2 (λ x c, modifier_call x = Parsed c) l modifiers
     else modifiers = []) ∧
    body_calls node body ∧ Forall extracted body.
Proof.
  intros (name & count & modifiers & body & -> & Hcount & Hkind & Hbody & Hextracted)
    %parse_definition_Parsed.
  exists (Function.mk name count kind), modifiers, body.
  split; [|split; [done|split; [|done]]].
  - split; [done|]. split; [|done]. cbn [Function.name].
    destruct (bool_decide (kind = Function.Function)); cbn [andb]; [|by destruct Hkind].
    destruct Hkind as (ctor & l & Hctor & Hname & _). unfold is_constructor.
    rewrite Hctor. by destruct (py_truthy ctor).
  - destruct (bool_decide (kind = Function.Function)); [|by destruct Hkind].
    destruct Hkind as (ctor & l & _ & _ & Hl & Hmods). by exists l.
Qed.

Lemma signature_of_unique contract node kind f g :
  signature_of contract node kind f → signature_of contract node kind g → f = g.
Proof.
  intros (Hkf & Hnf & pf & lf & Hpf & Hlf & Hcf) (Hkg & Hng & pg & lg & Hpg & Hlg & Hcg).
  rewrite Hpf in Hpg. injection Hpg as <-. rewrite Hlf in Hlg. injection Hlg as <-.
  destruct f as [nf cf kf], g as [ng cg kg]; cbn in *. f_equal; [|congruence..].
  destruct (bool_decide (kind = Function.Function) && is_constructor node);
    congruence.
Qed.

Lemma has_type_definition_kind node ty kind :
  py_getitem node "type" = Parsed ty → definition_kind ty = Some kind →
  has_type node "UsingForDeclaration" = false ∧
  has_type node "StateVariableDeclaration" = false.
Proof.
  unfold has_type, definition_kind. intros -> Hkind.
  destruct (py_eq_str ty "FunctionDefinition") eqn:E1;
    [apply py_eq_str_true in E1 as ->; done|].
  destruct (py_eq_str ty "ModifierDefinition") eqn:E2;
    [apply py_eq_str_true in E2 as ->; done|].
  destruct (py_eq_str ty "EventDefinition") eqn:E3;
    [apply py_eq_str_true in E3 as ->; done|done].
Qed.

Lemma parse_node_definition contract node ty kind c' :
  py_getitem node "type" = Parsed ty → definition_kind ty = Some kind →
  parse_node contract node = Parsed c' →
  parse_definition contract node kind = Parsed c'.
Proof.
  intros Hty Hkind Hparse.
  destruct (has_type_definition_kind _ _ _ Hty Hkind) as [Hu Hs].
  apply parse_node_cases in Hparse as [[Hu' _]|[[Hs' _]|[H|H]]].
  - by rewrite Hu in Hu'.
  - by rewrite Hs in Hs'.
  - destruct H as (ty' & kind' & Hty' & Hkind' & H). congruence.
  - destruct H as (ty' & Hty' & _ & _ & Hkind' & _). congruence.
Qed.

Lemma parse_state_variable_frame contract var c' :
  parse_state_variable contract var = Parsed c' →
  same_header contract c' ∧
  Contract.usingfors c' = Contract.usingfors contract ∧
  Contract.functions c' = Contract.functions contract.
Proof.
  intros [(x & ty & _ & ->)|[_ ->]]%parse_state_variable_Parsed; by repeat split.
Qed.

Lemma parse_state_variables_frame contract variables c' :
  for_each parse_state_variable contract variables = Parsed c' →
  same_header contract c' ∧
  Contract.usingfors c' = Contract.usingfors contract ∧
  Contract.functions c' = Contract.functions contract.
Proof.
  revert contract. induction variables as [|var variables IH]; intros contract.
  - intros [= <-]. by repeat split.
  - rewrite for_each_cons. intros (c1 & Hc1 & Hc')%parsed_bind_inv.
    apply parse_state_variable_frame in Hc1 as (Hh1 & Hu1 & Hf1).
    apply IH in Hc' as (Hh & Hu & Hf).
    split; [by apply (same_header_trans _ c1)|]. split; congruence.
Qed.

Lemma parse_node_frame contract node c' :
  parse_node contract node = Parsed c' →
  same_header contract c' ∧
  (has_type node "UsingForDeclaration" = false →
   Contract.usingfors c' = Contract.usingfors contract) ∧
  (has_type node "StateVariableDeclaration" = false →
   Contract.state_user_vars c' = Contract.state_user_vars contract) ∧
  (has_type node "FunctionDefinition" = false →
   has_type node "ModifierDefinition" = false →
   has_type node "EventDefinition" = false →
   Contract.functions c' = Contract.functions contract).
Proof.
  intros [[Hu H]|[[Hs H]|[H|H]]]%parse_node_cases.
  - apply parse_using_for_Parsed in H as (typename & ty & _ & _ & H).
    assert (same_header contract c' ∧
            Contract.state_user_vars c' = Contract.state_user_vars contract ∧
            Contract.functions c' = Contract.functions contract) as (? & ? & ?).
    { destruct (py_eq_str ty "UserDefinedTypeName"); [|by subst].
      by destruct H as (path & lib & _ & _ & ->). }
    split; [done|]. split; [by rewrite Hu|]. by split.
  - destruct H as (variables & _ & (? & ? & ?)%parse_state_variables_frame).
    split; [done|]. split; [done|]. split; [by rewrite Hs|done].
  - destruct H as (ty & kind & Hty & Hkind & H).
    destruct (has_type_definition_kind _ _ _ Hty Hkind) as [Hu Hs].
    apply parse_definition_Parsed in H as (name & count & mods & body & -> & _).
    split; [done|]. split; [done|]. split; [done|].
    unfold has_type. rewrite Hty. unfold definition_kind in Hkind.
    intros E1 E2 E3. by rewrite E1, E2, E3 in Hkind.
  - destruct H as (ty & _ & _ & _ & _ & ->). by repeat split.
Qed.

Lemma parse_state_variables_sound contract variables c' :
  for_each parse_state_variable contract variables = Parsed c' →
  ∀ x ty, Contract.state_user_vars c' !! x = Some ty →
    Contract.state_user_vars contract !! x = Some ty ∨
    ∃ var, var ∈ variables ∧ user_typed var x ty.
Proof.
  revert contract. induction variables as [|var variables IH]; intros contract.
  - intros [= <-] x ty Hx. by left.
  - rewrite for_each_cons. intros (c1 & Hc1 & Hc')%parsed_bind_inv x ty Hx.
    destruct (IH _ Hc' x ty Hx) as [H1|(var' & Hin & Hut)].
    + apply parse_state_variable_Parsed in Hc1 as [(y & ty' & Hut & ->)|[_ ->]];
        [|by left].
      cbn [with_state_user_var Contract.state_user_vars] in H1.
      destruct (decide (y = x)) as [->|Hne].
      * rewrite lookup_insert_eq in H1. injection H1 as ->.
        right. exists var. split; [by left|done].
      * rewrite lookup_insert_ne in H1 by done. by left.
    + right. exists var'. split; [by right|done].
Qed.

Lemma user_typed_name var x ty x' ty' :
  user_typed var x ty → user_typed var x' ty' → x = x'.
Proof. intros (? & _ & _ & _ & H) (? & _ & _ & _ & H'). congruence. Qed.

Lemma parse_state_variables_complete contract variables c' :
  for_each parse_state_variable contract variables = Parsed c' →
  (∀ x, is_Some (Contract.state_user_vars contract !! x) →
        is_Some (Contract.state_user_vars c' !! x)) ∧
  ∀ var x ty, var ∈ variables → user_typed var x ty →
    is_Some (Contract.state_user_vars c' !! x).
Proof.
  revert contract. induction variables as [|var variables IH]; intros contract.
  - intros [= <-]. split; [done|]. by intros var x ty ?%not_elem_of_nil.
  - rewrite for_each_cons. intros (c1 & Hc1 & Hc')%parsed_bind_inv.
    destruct (IH _ Hc') as [Hmono Hall].
    apply parse_state_variable_Parsed in Hc1 as [(y & ty' & Hut & ->)|[Hnone ->]].
    + split.
      * intros x Hx. apply Hmono.
        cbn [with_state_user_var Contract.state_user_vars].
        destruct (decide (y = x)) as [->|Hne];
          [by rewrite lookup_insert_eq|by rewrite lookup_insert_ne].
      * intros var' x ty [->|Hin]%elem_of_cons Hx; [|by eapply Hall].
        apply Hmono. rewrite (user_typed_name _ _ _ _ _ Hx Hut).
        cbn [with_state_user_var Contract.state_user_vars].
        by rewrite lookup_insert_eq.
    + split; [done|].
      intros var' x ty [->|Hin]%elem_of_cons Hx; [|by eapply Hall].
      by destruct (Hnone x ty).
Qed.

Lemma contracts_set_get (contracts : registry) name c :
  contracts_get (contracts_set contracts name c) name = Some c.
Proof.
  unfold contracts_get.
  induction contracts as [|[n old] contracts IH]; cbn [contracts_set dict_get].
  - by rewrite String.eqb_refl.
  - destruct (String.eqb name n) eqn:E; cbn [dict_get]; by rewrite E.
Qed.

Lemma contracts_set_get_ne (contracts : registry) name c n :
  n ≠ name →
  contracts_get (contracts_set contracts name c) n = contracts_get contracts n.
Proof.
  intros Hne. unfold contracts_get.
  induction contracts as [|[n' old] contracts IH]; cbn [contracts_set dict_get].
  - by apply String.eqb_neq in Hne as ->.
  - destruct (String.eqb name n') eqn:E; cbn [dict_get].
    + apply String.eqb_eq in E as <-. by apply String.eqb_neq in Hne as ->.
    + by rewrite IH.
Qed.

Lemma contracts_set_keys (contracts : registry) name c :
  (contracts_set contracts name c).*1 =
  if dict_in String.eqb contracts name then contracts.*1 else contracts.*1 ++ [name].
Proof.
  unfold dict_in. induction contracts as [|[n old] contracts IH];
    cbn [contracts_set dict_get]; [done|].
  destruct (String.eqb name n) eqn:E.
  - by rewrite bool_decide_true by eauto.
  - rewrite !fmap_cons, IH. by destruct (bool_decide _).
Qed.

Lemma parse_contract_definition_Parsed contracts directive contracts' :
  parse_contract_definition contracts directive = Parsed contracts' →
  ∃ name bases sub_nodes c,
    py_getitem directive "name" = Parsed (VStr name) ∧
    py_getitem directive "baseContracts" = Parsed (VList bases) ∧
    py_getitem directive "subNodes" = Parsed (VList sub_nodes) ∧
    Forall2 (λ b s, base_name_of b = Parsed s) (reverse bases) (Contract.base_contracts c) ∧
    Contract.name c = name ∧ Contract.linearization c = [] ∧
    for_each parse_node (Contract.mk name (Contract.base_contracts c) ∅ ∅ [] [])
      sub_nodes = Parsed c ∧
    contracts' = contracts_set contracts name c.
Proof.
  unfold parse_contract_definition.
  intros (name' & Hname & H)%parsed_bind_inv.
  apply parsed_bind_inv in H as (name & ->%as_str_Parsed & H).
  apply parsed_bind_inv in H as (bases' & Hbases & H).
  apply parsed_bind_inv in H as (reversed & Hreversed & H).
  apply parsed_bind_inv in H as (bases & Hmapped%mapM_Parsed_inv & H).
  apply parsed_bind_inv in H as (sub_nodes' & Hsub & H).
  apply parsed_bind_inv in H as (sub_nodes & ->%py_iter_Parsed & H).
  apply parsed_bind_inv in H as (c & Hc & [= <-]).
  destruct bases' as [| | | |l|]; try discriminate Hreversed.
  injection Hreversed as <-.
  pose proof (for_each_preserves same_header parse_node
                same_header_refl same_header_trans
                (λ a x a' H, proj1 (parse_node_frame a x a' H)) _ _ _ Hc)
    as (Hn & Hb & Hl).
  cbn [Contract.name Contract.base_contracts Contract.linearization] in Hn, Hb, Hl.
  exists name, l, sub_nodes, c. rewrite Hb. by repeat split.
Qed.

(** X15: [get_calls_from_dict] only appends to the list it is given, and
    what it appends, or the exception it raises, does not depend on that
    list: its outcome on [function_calls] is its outcome on the empty list,
    put after [function_calls]. *)
Theorem get_calls_from_dict_only_appends v function_calls keyname :
  get_calls_from_dict v function_calls keyname =
  (new ← get_calls_from_dict v [] keyname; Parsed (function_calls ++ new)).
Proof. destruct (get_calls_from_dict_yields v) as [H _]. apply (H keyname). Qed.

(** X16: every call that [get_calls_from_dict] records, at any depth of the
    tree, is a call to a plain function or to an event, never to a modifier,
    and its context is its receiver. *)
Theorem extracted_calls_are_function_or_event_calls v function_calls keyname calls :
  get_calls_from_dict v function_calls keyname = Parsed calls →
  ∃ new, calls = function_calls ++ new ∧ Forall extracted new.
Proof.
  destruct (get_calls_from_dict_yields v) as [H _].
  destruct (H keyname) as [Hacc Hnew]. rewrite Hacc.
  intros (new & Hnew' & [= <-])%parsed_bind_inv. exists new. split; [done|].
  by apply Hnew.
Qed.

Lemma body_calls_are_function_or_event_calls :
  get_calls_from_dict ex_body [ex_only_owner] "" =
    Parsed (ex_only_owner :: ex_body_calls) ∧
  ∃ new, ex_only_owner :: ex_body_calls = [ex_only_owner] ++ new ∧
         Forall extracted new.
Proof.
  assert (get_calls_from_dict ex_body [ex_only_owner] "" =
            Parsed (ex_only_owner :: ex_body_calls)) as Hcalls
    by (vm_compute; reflexivity).
  split; [exact Hcalls|].
  exact (extracted_calls_are_function_or_event_calls _ _ _ _ Hcalls).
Defined.

(** X17: [parse_node] never changes the name, the bases or the
    linearization of the contract, and it changes the attached libraries
    only for a [UsingForDeclaration], the state variables only for a
    [StateVariableDeclaration] and the functions only for a function, a
    modifier or an event definition; a member of any other type leaves the
    contract as it is. *)
Theorem parse_node_changes_only_the_field_of_its_type contract node c' :
  parse_node contract node = Parsed c' →
  same_header contract c' ∧
  (has_type node "UsingForDeclaration" = false →
   Contract.usingfors c' = Contract.usingfors contract) ∧
  (has_type node "StateVariableDeclaration" = false →
   Contract.state_user_vars c' = Contract.state_user_vars contract) ∧
  (has_type node "FunctionDefinition" = false →
   has_type node "ModifierDefinition" = false →
   has_type node "EventDefinition" = false →
   Contract.functions c' = Contract.functions contract) ∧
  (has_type node "UsingForDeclaration" = false →
   has_type node "StateVariableDeclaration" = false →
   has_type node "FunctionDefinition" = false →
   has_type node "ModifierDefinition" = false →
   has_type node "EventDefinition" = false →
   c' = contract).
Proof.
  intros (Hh & Hu & Hs & Hf)%parse_node_frame.
  split; [done|]. split; [done|]. split; [done|]. split; [done|].
  intros Eu Es E1 E2 E3. destruct Hh as (Hn & Hb & Hl).
  specialize (Hu Eu). specialize (Hs Es). specialize (Hf E1 E2 E3).
  destruct c', contract; cbn in *. congruence.
Qed.

Lemma struct_definition_leaves_the_contract :
  parse_node ex_token_contract (VNode [("type", VStr "StructDefinition")]) =
    Parsed ex_token_contract ∧
  same_header ex_token_contract ex_token_contract.
Proof.
  assert (parse_node ex_token_contract (VNode [("type", VStr "StructDefinition")]) =
            Parsed ex_token_contract) as Hparse by (vm_compute; reflexivity).
  split; [exact Hparse|].
  exact (proj1 (parse_node_changes_only_the_field_of_its_type _ _ _ Hparse)).
Defined.

(** X18: a function, modifier or event definition that [parse_node] accepts
    is stored under its signature -- its name (the contract's for a
    constructor), its number of parameters and its kind: looking that
    signature up in the contract gives the calls of this definition, one per
    attached modifier followed by those of its body, whatever was stored
    under the signature before; every other function keeps its entry, and
    the signature is put after the functions met before unless it was among
    them, when it keeps its place. *)
Theorem definition_is_stored_under_its_signature contract node ty kind c' :
  py_getitem node "type" = Parsed ty → definition_kind ty = Some kind →
  parse_node contract node = Parsed c' →
  ∃ function modifiers body,
    signature_of contract node kind function ∧
    functions_get c' function = Some (modifiers ++ body) ∧
    (if bool_decide (kind = Function.Function) then
       ∃ l, py_getitem node "modifiers" = Parsed (VList l) ∧
            Forall2 (λ x c,
              py_getitem x "name" = Parsed (VStr (Function.name (Call.function c))) ∧
              (∃ arguments, py_getitem x "arguments" = Parsed (VList arguments) ∧
                 Function.params (Call.function c) = Z.of_nat (length arguments)) ∧
              is_modifier_call c) l modifiers
     else modifiers = []) ∧
    body_calls node body ∧
    (∀ g, g ≠ function → functions_get c' g = functions_get contract g) ∧
    (Contract.functions c').*1 =
      if defines function contract then (Contract.functions contract).*1
      else (Contract.functions contract).*1 ++ [function].
Proof.
  intros Hty Hkind Hparse%(parse_node_definition _ _ _ _ _ Hty Hkind).
  apply signature_of_parse_definition in Hparse
    as (function & modifiers & body & Hsig & -> & Hmods & Hbody & _).
  exists function, modifiers, body. split; [done|].
  unfold functions_get, defines. cbn [with_function Contract.functions].
  split; [apply functions_set_get|]. split.
  { destruct (bool_decide (kind = Function.Function)); [|done].
    destruct Hmods as (l & Hl & Hmods). exists l. split; [done|].
    eapply Forall2_impl; [exact Hmods|]. intros x c. apply modifier_call_Parsed. }
  split; [done|]. split; [|apply functions_set_keys].
  intros g Hg. by apply functions_set_get_ne.
Qed.

Lemma approve_is_stored_under_its_signature :
  parse_node ex_token_redefined ex_approve =
    Parsed (Contract.mk "Token" [] ∅ ∅
              [(fn "transfer" 2, []);
               (fn "approve" 2, ex_only_owner :: ex_body_calls);
               (fn "check" 1, [])] []) ∧
  ∃ function modifiers body,
    signature_of ex_token_redefined ex_approve Function.Function function ∧
    functions_get (Contract.mk "Token" [] ∅ ∅
                     [(fn "transfer" 2, []);
                      (fn "approve" 2, ex_only_owner :: ex_body_calls);
                      (fn "check" 1, [])] []) function = Some (modifiers ++ body) ∧
    body_calls ex_approve body ∧
    functions_get (Contract.mk "Token" [] ∅ ∅
                     [(fn "transfer" 2, []);
                      (fn "approve" 2, ex_only_owner :: ex_body_calls);
                      (fn "check" 1, [])] []) (fn "check" 1) =
      functions_get ex_token_redefined (fn "check" 1).
Proof.
  assert (parse_node ex_token_redefined ex_approve =
            Parsed (Contract.mk "Token" [] ∅ ∅
                      [(fn "transfer" 2, []);
                       (fn "approve" 2, ex_only_owner :: ex_body_calls);
                       (fn "check" 1, [])] [])) as Hparse
    by (vm_compute; reflexivity).
  split; [exact Hparse|].
  destruct (definition_is_stored_under_its_signature ex_token_redefined ex_approve
              (VStr "FunctionDefinition") Function.Function _ eq_refl eq_refl Hparse)
    as (function & modifiers & body & Hsig & Hget & _ & Hbody & Hothers & _).
  exists function, modifiers, body. split; [exact Hsig|]. split; [exact Hget|].
  split; [exact Hbody|]. apply Hothers.
  destruct Hsig as (_ & _ & parameters & l & Hparameters & Hl & Hcount).
  vm_compute in Hparameters. injection Hparameters as <-.
  vm_compute in Hl. injection Hl as <-.
  intros <-. discriminate Hcount.
Defined.

(** X19: the calls stored for a definition are one call per attached
    modifier, in the order of the modifiers and each to the modifier of that
    name in the contract itself, followed by the calls of the body; only a
    function has modifier calls, and a definition without a body has no
    others. *)
Theorem stored_calls_are_modifiers_then_body contract node ty kind c' function :
  py_getitem node "type" = Parsed ty → definition_kind ty = Some kind →
  parse_node contract node = Parsed c' →
  signature_of contract node kind function →
  ∃ modifiers body,
    functions_get c' function = Some (modifiers ++ body) ∧
    (if bool_decide (kind = Function.Function) then
       ∃ l, py_getitem node "modifiers" = Parsed (VList l) ∧
            Forall2 (λ x c,
              py_getitem x "name" = Parsed (VStr (Function.name (Call.function c))) ∧
              is_modifier_call c) l modifiers
     else modifiers = []) ∧
    body_calls node body ∧ Forall extracted body.
Proof.
  intros Hty Hkind Hparse%(parse_node_definition _ _ _ _ _ Hty Hkind) Hsig.
  apply signature_of_parse_definition in Hparse
    as (function' & modifiers & body & Hsig' & -> & Hmods & Hbody & Hextracted).
  rewrite (signature_of_unique _ _ _ _ _ Hsig Hsig').
  exists modifiers, body. split; [apply functions_set_get|].
  split; [|done]. destruct (bool_decide (kind = Function.Function)); [|done].
  destruct Hmods as (l & Hl & Hmods). exists l. split; [done|].
  eapply Forall2_impl; [exact Hmods|].
  by intros x c (? & _ & ?)%modifier_call_Parsed.
Qed.

Lemma approve_calls_its_modifier_first :
  parse_node ex_token_contract ex_approve =
    Parsed (with_function ex_token_contract (fn "approve" 2)
              (ex_only_owner :: ex_body_calls)) ∧
  ∃ modifiers body,
    functions_get (with_function ex_token_contract (fn "approve" 2)
                     (ex_only_owner :: ex_body_calls)) (fn "approve" 2) =
      Some (modifiers ++ body) ∧
    body_calls ex_approve body.
Proof.
  assert (parse_node ex_token_contract ex_approve =
            Parsed (with_function ex_token_contract (fn "approve" 2)
                      (ex_only_owner :: ex_body_calls))) as Hparse
    by (vm_compute; reflexivity).
  split; [exact Hparse|].
  assert (signature_of ex_token_contract ex_approve Function.Function (fn "approve" 2))
    as Hsig.
  { split; [reflexivity|]. split; [reflexivity|].
    exists (parameter_list 2), (replicate 2 (VNode [("type", VStr "Parameter")])).
    by repeat split. }
  destruct (stored_calls_are_modifiers_then_body ex_token_contract ex_approve
              (VStr "FunctionDefinition") Function.Function _ _ eq_refl eq_refl Hparse Hsig)
    as (modifiers & body & Hget & _ & Hbody & _).
  by exists modifiers, body.
Defined.

(** X20: a [UsingForDeclaration] that [parse_node] accepts attaches the
    library to the type when the type is user-defined, replacing a library
    attached to that type before, and attaches nothing for any other type
    (an elementary type, a mapping, an array). *)
Theorem using_for_attaches_library_to_user_defined_type contract node c' :
  has_type node "UsingForDeclaration" = true →
  parse_node contract node = Parsed c' →
  ∃ typename ty,
    py_getitem node "typeName" = Parsed typename ∧
    py_getitem typename "type" = Parsed ty ∧
    if py_eq_str ty "UserDefinedTypeName" then
      ∃ path lib,
        py_getitem typename "namePath" = Parsed (VStr path) ∧
        py_getitem node "libraryName" = Parsed (VStr lib) ∧
        Contract.usingfors c' = <[path := lib]> (Contract.usingfors contract)
    else Contract.usingfors c' = Contract.usingfors contract.
Proof.
  intros Hu [[_ H]|[[Hs _]|[H|H]]]%parse_node_cases.
  - apply parse_using_for_Parsed in H as (typename & ty & Htypename & Hty & H).
    exists typename, ty. split; [done|]. split; [done|].
    destruct (py_eq_str ty "UserDefinedTypeName"); [|by subst].
    destruct H as (path & lib & Hpath & Hlib & ->). by exists path, lib.
  - unfold has_type in *. destruct (py_getitem node "type") as [ty| |]; [|done..].
    apply py_eq_str_true in Hu as ->. discriminate Hs.
  - destruct H as (ty & kind & Hty & Hkind & _).
    destruct (has_type_definition_kind _ _ _ Hty Hkind) as [Hu' _]. congruence.
  - destruct H as (ty & Hty & Hu' & _). unfold has_type in Hu. rewrite Hty in Hu.
    congruence.
Qed.

Lemma safe_erc20_is_attached_to_ierc20 :
  parse_node ex_token_contract
      (using_for_declaration (user_defined_type "IERC20") "SafeERC20") =
    Parsed (with_usingfor ex_token_contract "IERC20" "SafeERC20") ∧
  ∃ typename ty,
    py_getitem (using_for_declaration (user_defined_type "IERC20") "SafeERC20")
      "typeName" = Parsed typename ∧
    py_getitem typename "type" = Parsed ty.
Proof.
  assert (parse_node ex_token_contract
              (using_for_declaration (user_defined_type "IERC20") "SafeERC20") =
            Parsed (with_usingfor ex_token_contract "IERC20" "SafeERC20")) as Hparse
    by (vm_compute; reflexivity).
  split; [exact Hparse|].
  destruct (using_for_attaches_library_to_user_defined_type ex_token_contract
              (using_for_declaration (user_defined_type "IERC20") "SafeERC20") _
              eq_refl Hparse)
    as (typename & ty & Htypename & Hty & _).
  by exists typename, ty.
Defined.

(** X21: a [StateVariableDeclaration] that [parse_node] accepts records
    the variables of a user-defined type, each under its name with its type,
    and no others: every variable of a user-defined type is recorded, and
    a variable recorded afterwards was recorded before or is declared here
    with that type. *)
Theorem only_user_typed_variables_are_recorded contract node c' :
  has_type node "StateVariableDeclaration" = true →
  parse_node contract node = Parsed c' →
  ∃ variables,
    py_getitem node "variables" = Parsed (VList variables) ∧
    (∀ x ty, Contract.state_user_vars c' !! x = Some ty →
       Contract.state_user_vars contract !! x = Some ty ∨
       ∃ var, var ∈ variables ∧ user_typed var x ty) ∧
    (∀ var x ty, var ∈ variables → user_typed var x ty →
       is_Some (Contract.state_user_vars c' !! x)).
Proof.
  intros Hs [[Hu _]|[[_ H]|[H|H]]]%parse_node_cases.
  - unfold has_type in *. destruct (py_getitem node "type") as [ty| |]; [|done..].
    apply py_eq_str_true in Hs as ->. discriminate Hu.
  - destruct H as (variables & Hvariables & H). exists variables. split; [done|].
    split; [exact (parse_state_variables_sound _ _ _ H)|].
    exact (proj2 (parse_state_variables_complete _ _ _ H)).
  - destruct H as (ty & kind & Hty & Hkind & _).
    destruct (has_type_definition_kind _ _ _ Hty Hkind) as [_ Hs']. congruence.
  - destruct H as (ty & Hty & _ & Hs' & _). unfold has_type in Hs. rewrite Hty in Hs.
    congruence.
Qed.

Lemma token_variable_is_recorded_and_total_is_not :
  parse_node ex_token_contract
      (state_variable_declaration
         [("total", elementary_type "uint"); ("token", user_defined_type "IERC20")]) =
    Parsed (with_state_user_var ex_token_contract "token" "IERC20") ∧
  ∃ variables,
    py_getitem (state_variable_declaration
                  [("total", elementary_type "uint"); ("token", user_defined_type "IERC20")])
      "variables" = Parsed (VList variables) ∧
    length variables = 2.
Proof.
  assert (parse_node ex_token_contract
              (state_variable_declaration
                 [("total", elementary_type "uint");
                  ("token", user_defined_type "IERC20")]) =
            Parsed (with_state_user_var ex_token_contract "token" "IERC20")) as Hparse
    by (vm_compute; reflexivity).
  split; [exact Hparse|].
  destruct (only_user_typed_variables_are_recorded ex_token_contract
              (state_variable_declaration
                 [("total", elementary_type "uint");
                  ("token", user_defined_type "IERC20")]) _ eq_refl Hparse)
    as (variables & Hvariables & _).
  exists variables. split; [exact Hvariables|].
  vm_compute in Hvariables. by injection Hvariables as <-.
Defined.

(** X22: a [UsingForDeclaration] whose [typeName] is not a node -- [None],
    a string, a list -- makes [parse_node] raise [TypeError], whatever the
    contract holds. *)
Theorem using_for_without_type_node_raises_TypeError contract node typename :
  has_type node "UsingForDeclaration" = true →
  py_getitem node "typeName" = Parsed typename →
  (∀ items, typename ≠ VNode items) →
  parse_node contract node = Throws PyTypeError.
Proof.
  unfold has_type, parse_node, parse_using_for. intros Hu Htypename Hnode.
  destruct (py_getitem node "type") as [ty| |]; [|done..].
  cbn [mbind parsed_bind]. rewrite Hu, Htypename. cbn [mbind parsed_bind].
  destruct typename as [| | | | |items]; try reflexivity. by destruct (Hnode items).
Qed.

Lemma using_for_every_type_raises_TypeError :
  parse_node ex_token_contract (using_for_declaration VNone "SafeMath") =
    Throws PyTypeError.
Proof.
  apply (using_for_without_type_node_raises_TypeError _ _ VNone);
    [reflexivity|reflexivity|discriminate].
Defined.

(** X23: a contract definition that [parse_contracts] accepts is registered
    under its name with the declared bases in reverse order, an empty
    linearization and its members parsed in order; it replaces, in place, a
    contract of that name registered before, comes last otherwise, and no
    other contract of the registry changes. *)
Theorem contract_definition_registers_reversed_bases contracts directive contracts' :
  parse_contract_definition contracts directive = Parsed contracts' →
  ∃ name bases sub_nodes c,
    py_getitem directive "name" = Parsed (VStr name) ∧
    py_getitem directive "baseContracts" = Parsed (VList bases) ∧
    py_getitem directive "subNodes" = Parsed (VList sub_nodes) ∧
    contracts_get contracts' name = Some c ∧
    Contract.name c = name ∧
    Forall2 (λ b s, base_name_of b = Parsed s) (reverse bases) (Contract.base_contracts c) ∧
    Contract.linearization c = [] ∧
    for_each parse_node (Contract.mk name (Contract.base_contracts c) ∅ ∅ [] [])
      sub_nodes = Parsed c ∧
    (∀ n, n ≠ name → contracts_get contracts' n = contracts_get contracts n) ∧
    contracts'.*1 =
      if dict_in String.eqb contracts name then contracts.*1 else contracts.*1 ++ [name].
Proof.
  intros (name & bases & sub_nodes & c & Hname & Hbases & Hsub & Hrev & Hn & Hl & Hc & ->)
    %parse_contract_definition_Parsed.
  exists name, bases, sub_nodes, c.
  split; [done|]. split; [done|]. split; [done|].
  split; [apply contracts_set_get|]. split; [done|]. split; [done|].
  split; [done|]. split; [done|]. split; [|apply contracts_set_keys].
  intros n Hne. by apply contracts_set_get_ne.
Qed.

Lemma derived_contract_registers_reversed_bases :
  parse_contract_definition [("B", Contract.__init__ "B")]
      (contract_definition "D" ["B"; "C"] [ex_approve]) =
    Parsed [("B", Contract.__init__ "B");
            ("D", with_function (Contract.mk "D" ["C"; "B"] ∅ ∅ [] [])
                    (fn "approve" 2) (ex_only_owner :: ex_body_calls))] ∧
  ∃ name c,
    contracts_get [("B", Contract.__init__ "B");
                   ("D", with_function (Contract.mk "D" ["C"; "B"] ∅ ∅ [] [])
                           (fn "approve" 2) (ex_only_owner :: ex_body_calls))] name =
      Some c ∧
    Contract.name c = name.
Proof.
  assert (parse_contract_definition [("B", Contract.__init__ "B")]
              (contract_definition "D" ["B"; "C"] [ex_approve]) =
            Parsed [("B", Contract.__init__ "B");
                    ("D", with_function (Contract.mk "D" ["C"; "B"] ∅ ∅ [] [])
                            (fn "approve" 2) (ex_only_owner :: ex_body_calls))]) as Hparse
    by (vm_compute; reflexivity).
  split; [exact Hparse|].
  destruct (contract_definition_registers_reversed_bases _ _ _ Hparse)
    as (name & bases & sub_nodes & c & _ & _ & _ & Hget & Hn & _).
  by exists name, c.
Defined.
